(** * BNPTSClust (Python port): the partition utility, the design-matrix
      builder, the scaler, the Gibbs/Metropolis-Hastings sampler loop and
      the choice of the reported configuration.

    Real numbers of the program are modelled by exact rationals [Q]; the
    random draws and the values of the numerical library calls (Gaussian
    densities, log-acceptance ratios, matrix norms) are inputs of the
    model. *)

From Stdlib Require Import List Bool Arith ZArith QArith Qminmax Lia Lqa Permutation.
Import ListNotations.

Set Implicit Arguments.

(** ** Small array helpers shared by all the modules *)

(** [vector[mask]] for a boolean mask of the length of [vector]. *)
Fixpoint select {B : Type} (mask : list bool) (l : list B) : list B :=
  match mask, l with
  | m :: mask', x :: l' => if m then x :: select mask' l' else select mask' l'
  | _, _ => []
  end.

(** [np.delete(l, i)]. *)
Fixpoint delete_at {B : Type} (i : nat) (l : list B) : list B :=
  match l, i with
  | [], _ => []
  | _ :: l', O => l'
  | x :: l', S i' => x :: delete_at i' l'
  end.

(** [l[i] = x] for an index inside the array. *)
Fixpoint set_at {B : Type} (i : nat) (x : B) (l : list B) : list B :=
  match l, i with
  | [], _ => []
  | _ :: l', O => x :: l'
  | y :: l', S i' => y :: set_at i' x l'
  end.

Definition sum_nat (l : list nat) : nat := fold_right Nat.add 0%nat l.

(** ** comp.py: the partition utility *)

Module Comp.
Section Comp.

Variable A : Type.
(** [eqb x y] is the comparison [x == y] of two entries. *)
Variable eqb : A -> A -> bool.

(** [led[ji] = led[ji] | (mat[ji, j] == True)] for [ji = j+1 .. n-1]:
  [x] is [vector[j]], [vs] is [vector[j+1:]] and [led] is [led[j+1:]]. *)
Fixpoint mark_led (x : A) (vs : list A) (led : list bool) : list bool :=
match vs, led with
| y :: vs', l :: led' => (l || eqb y x) :: mark_led x vs' led'
| _, _ => []
end.

(** The loop [for j in np.arange(0,n)] of [comp].  At index [j] the loop
  reads [led[j]], writes [jstar[j]], and reads and writes only
  [led[j+1:]]; so the state at index [j] is kept as the suffixes
  [vs = vector[j:]] and [led = led[j:]], and the result is [jstar[j:]].
  A [break] leaves the rest of [jstar] at its initial [False]. *)
Fixpoint comp_loop (vs : list A) (led : list bool) : list bool :=
match vs, led with
| x :: vs', l :: led' =>
    if negb l then
      (* jstar[j] = True *)
      match vs' with
      | [] => [true]                                  (* j+1 == n: break *)
      | _ :: _ =>
          let led1 := mark_led x vs' led' in
          if forallb (fun b => b) led1
          then true :: repeat false (length vs')      (* break *)
          else true :: comp_loop vs' led1
      end
    else
      if forallb (fun b => b) led'
      then false :: repeat false (length vs')         (* break *)
      else false :: comp_loop vs' led'
| _, _ => []
end.

(** [np.sum] of column [x] of [mat]: the number of entries equal to [x]. *)
Definition count_eq (x : A) (v : list A) : nat :=
length (filter (fun y => eqb y x) v).

(** [pd.match(vector, ystar)] for one entry: the position of [x] in
  [ystar], or -1. *)
Fixpoint match_from (i : Z) (x : A) (ystar : list A) : Z :=
match ystar with
| [] => (-1)%Z
| y :: ystar' => if eqb x y then i else match_from (i + 1) x ystar'
end.

Definition pd_match (v ystar : list A) : list Z :=
map (fun x => match_from 0 x ystar) v.

Record result : Type := mkResult {
jstar : list bool;
nstar : list nat;
rstar : nat;
gn : list Z
}.

(** [comp(vector)].  Without a representative, that is for the empty
    vector, [mat[:, jstar]] has shape (0,0) and [np.apply_along_axis]
    raises [ValueError] (Cannot apply_along_axis when any iteration
    dimensions are 0): the result is [None]. *)
Definition comp (vector : list A) : option result :=
let n := length vector in
let js := comp_loop vector (repeat false n) in
let ystar := select js vector in
match ystar with
| [] => None
| _ :: _ =>
    let ns := map (fun x => count_eq x vector) ystar in
    Some (mkResult js ns (length ns) (pd_match vector ystar))
end.

(** The representatives [vector[jstar]]. *)
Definition ystar_of (vector : list A) (r : result) : list A :=
select (jstar r) vector.

(** *** Reference description of the first occurrences

  [seen] holds the representatives met so far; an entry is led when it
  equals one of them. *)
Definition led_of (seen : list A) (y : A) : bool :=
existsb (fun x => eqb y x) seen.

Fixpoint firsts_mask (seen vs : list A) : list bool :=
match vs with
| [] => []
| x :: vs' =>
    if led_of seen x then false :: firsts_mask seen vs'
    else true :: firsts_mask (x :: seen) vs'
end.

Fixpoint reps (seen vs : list A) : list A :=
match vs with
| [] => []
| x :: vs' =>
    if led_of seen x then reps seen vs' else x :: reps (x :: seen) vs'
end.

(** Two entries of a list of representatives never compare equal. *)
Definition pairwise_distinct (l : list A) : Prop :=
ForallOrdPairs (fun x y => eqb x y = false) l.

(** The label [g] sends the entry [x] to a representative equal to it. *)
Definition labels_own_value (ystar : list A) (x : A) (g : Z) : Prop :=
exists c r, g = Z.of_nat c /\ nth_error ystar c = Some r /\ eqb x r = true.

End Comp.
End Comp.

(** ** designmatrices.py: the design-matrix builder *)

Module Design.

(** A matrix is the list of its rows. *)
Definition matrix : Type := list (list Z).

(** Row-wise [np.concatenate((A, B), axis=1)]. *)
Fixpoint hcat (A B : matrix) : matrix :=
  match A, B with
  | ra :: A', rb :: B' => (ra ++ rb) :: hcat A' B'
  | _, _ => []
  end.

(** The column slice [M[:, lo:hi]]. *)
Definition cols (lo hi : nat) (M : matrix) : matrix :=
  map (fun row => firstn (hi - lo) (skipn lo row)) M.

(** [np.eye(11)] followed by one row of zeros: [X21], 12 rows by 11. *)
Definition X21 : matrix :=
  map (fun i => map (fun j => if Nat.eqb i j then 1%Z else 0%Z) (seq 0 11))
      (seq 0 11)
  ++ [repeat 0%Z 11].

(** [X2] after the loop [for i in range(2,num+1)]: [X21] stacked; the
    argument is the number of times the loop body runs. *)
Fixpoint stack_X21 (times : nat) : matrix :=
  match times with
  | O => X21
  | S k => stack_X21 k ++ X21
  end.

(** The rows of [M]: the constant 1, the powers [t**i] for [i = 1..deg] of
    [t = 1..T], and the seasonal block [M[:,(deg+1):(1+deg+11)]]. *)
Fixpoint fill_rows (deg : nat) (ts : list nat) (season : matrix) : matrix :=
  match ts, season with
  | t :: ts', srow :: season' =>
      (1%Z :: map (fun i => (Z.of_nat t ^ Z.of_nat i)%Z) (seq 1 deg) ++ srow)
      :: fill_rows deg ts' season'
  | _, _ => []
  end.

(** [M] for [T >= 12]. *)
Definition full_matrix (deg T : nat) : matrix :=
  let num := (T / 12)%nat in
  let resid := (T mod 12)%nat in
  fill_rows deg (seq 1 T) (stack_X21 (num - 1) ++ firstn resid X21).

(** [X] or [Z]: a matrix, or the scalar 0 the code returns for an absent
    block. *)
Inductive block : Type :=
| Mat (rows : matrix)
| Scalar0.

Record design : Type := mkDesign {
  p : nat;
  d : nat;
  X : block;
  Z : block
}.

(** [designmatrices(level,trend,seasonality,deg,T)].  When
    [math.floor(T/12) < 1] the statement [X <- np.concatenate(...)]
    compares the unbound local [X] and raises [UnboundLocalError]: the
    result is [None]. *)
Definition designmatrices (level trend seasonality : bool) (deg T : nat)
  : option design :=
  if (T / 12 <? 1)%nat then None
  else
    let M := full_matrix deg T in
    Some
      match level, trend, seasonality with
      | false, false, false =>
          mkDesign (1 + deg + 11) 0 Scalar0 (Mat M)
      | false, false, true =>
          mkDesign (1 + deg) 11
                   (Mat (cols (deg + 1) (1 + deg + 11) M))
                   (Mat (cols 0 (deg + 1) M))
      | false, true, false =>
          mkDesign (1 + 11) deg
                   (Mat (cols 1 (deg + 1) M))
                   (Mat (hcat (cols 0 1 M) (cols (deg + 1) (1 + deg + 11) M)))
      | true, false, false =>
          mkDesign (deg + 11) 1
                   (Mat (cols 0 1 M))
                   (Mat (cols 1 (1 + deg + 11) M))
      | true, true, false =>
          mkDesign 11 (1 + deg)
                   (Mat (cols 0 (deg + 1) M))
                   (Mat (cols (deg + 1) (1 + deg + 11) M))
      | true, false, true =>
          mkDesign deg (1 + 11)
                   (Mat (hcat (cols 0 1 M) (cols (deg + 1) (1 + deg + 11) M)))
                   (Mat (cols 1 (deg + 1) M))
      | false, true, true =>
          mkDesign 1 (deg + 11)
                   (Mat (cols 1 (1 + deg + 11) M))
                   (Mat (cols 0 1 M))
      | true, true, true =>
          mkDesign 0 (1 + deg + 11) (Mat M) Scalar0
      end.

(** The number of columns of [M]. *)
Definition width (deg : nat) : nat := (1 + deg + 11)%nat.

(** The columns of [M] at the positions [idx], in that order. *)
Definition pick_cols (idx : list nat) (M : matrix) : matrix :=
  map (fun row => map (fun c => nth c row 0%Z) idx) M.

(** A block has [T] rows, all of [k] entries. *)
Definition has_shape (T k : nat) (B : block) : Prop :=
  match B with
  | Mat rows => length rows = T /\ Forall (fun row => length row = k) rows
  | Scalar0 => False
  end.

(** A block is made of the columns [idx] of [M]. *)
Definition from_cols (idx : list nat) (M : matrix) (B : block) : Prop :=
  match B with
  | Mat rows => rows = pick_cols idx M
  | Scalar0 => idx = []
  end.

End Design.

(** ** scaleandperiods.py: the scaler *)

Module Scale.

(** [max(column)] and [min(column)] of Python, from the first entry [x]
    over the rest: a later entry replaces the current one only when it is
    strictly larger (smaller). *)
Fixpoint py_max (x : Q) (l : list Q) : Q :=
  match l with
  | [] => x
  | y :: l' => py_max (if Qle_bool y x then x else y) l'
  end.

Fixpoint py_min (x : Q) (l : list Q) : Q :=
  match l with
  | [] => x
  | y :: l' => py_min (if Qle_bool x y then x else y) l'
  end.

(** The two loops filling [maxima] and [minima]; [max] of an empty column
    raises [ValueError]. *)
Fixpoint extrema (columns : list (list Q)) : option (list (Q * Q)) :=
  match columns with
  | [] => Some []
  | [] :: _ => None
  | (x :: col) :: columns' =>
      match extrema columns' with
      | Some rest => Some ((py_max x col, py_min x col) :: rest)
      | None => None
      end
  end.

(** [np.where(maxima==minima)[0]]. *)
Definition constant_columns (mm : list (Q * Q)) : list nat :=
  map fst
      (filter (fun im => Qeq_bool (fst (snd im)) (snd (snd im)))
              (combine (seq 0 (length mm)) mm)).

(** [mydata.iloc[k,j] = 1 + (1/m1)*(mydata.iloc[k,j] - maxima[j,0])]. *)
Definition scale_column (mx mn : Q) (col : list Q) : list Q :=
  let m1 := mx - mn in
  map (fun x => 1 + (1 / m1) * (x - mx)) col.

(** [scaleandperiods(df)]: the frame is given by its index and its
    columns, and the scaled matrix is returned by columns.  When some
    column is constant, [mydata.drop(index = cts, inplace=True)] returns
    [None] (or raises [KeyError] when the labels are not in the index), so
    [len(mydata)] raises: the result is [None]. *)
Definition scaleandperiods {L : Type} (index : list L) (columns : list (list Q))
  : option (list L * list (list Q) * list nat) :=
  match extrema columns with
  | None => None
  | Some mm =>
      let cts := constant_columns mm in
      if (0 <? length cts)%nat then None
      else
        Some (index,
              map (fun cm => scale_column (fst (snd cm)) (snd (snd cm)) (fst cm))
                  (combine columns mm),
              cts)
  end.

(** A column with at least one entry whose extrema differ. *)
Definition varying (col : list Q) : Prop :=
  match col with
  | [] => False
  | x :: rest => ~ py_max x rest == py_min x rest
  end.


End Scale.

(** ** tseriescm.py: the heterogeneity measure *)

Module HM.

(** [np.where(gnstar == j)[0]]: the positions labelled [j], increasing. *)
Definition where_eq (gnstar : list Z) (j : Z) : list nat :=
  map fst
      (filter (fun ig => Z.eqb (snd ig) j)
              (combine (seq 0 (length gnstar)) gnstar)).

(** [mydata[:, c]] of a matrix given by its rows. *)
Definition column (mydata : list (list Q)) (c : nat) : list Q :=
  map (fun row => nth c row 0) mydata.

(** [sum((u - v)**2)]: Python's [sum] adds from the left, from 0. *)
Fixpoint sq_diffs (u v : list Q) : list Q :=
  match u, v with
  | x :: u', y :: v' => ((x - y) * (x - y)) :: sq_diffs u' v'
  | _, _ => []
  end.

Definition sqdist (u v : list Q) : Q :=
  fold_left Qplus (sq_diffs u v) 0.

(** The double loop over [i1] and [i2 < i1] accumulating [HM1]. *)
Definition HM1_loop (mydata : list (list Q)) (cc : list nat) : Q :=
  fold_left
    (fun acc i1 =>
       fold_left
         (fun acc' i2 =>
            acc' + sqdist (column mydata (nth i2 cc 0%nat))
                          (column mydata (nth i1 cc 0%nat)))
         (seq 0 i1) acc)
    (seq 0 (length cc)) 0.

(** The loop [for j in range(0, mstar)] accumulating [HM]. *)
Definition HM (mydata : list (list Q)) (mstar : nat) (gnstar : list Z) : Q :=
  fold_left
    (fun hm j =>
       let cc := where_eq gnstar (Z.of_nat j) in
       if (1 <? length cc)%nat
       then hm + (2 / (inject_Z (Z.of_nat (length cc)) - 1)) * HM1_loop mydata cc
       else hm)
    (seq 0 mstar) 0.

(** *** The measure as the specification words it *)

(** The unordered pairs of members of a cluster. *)
Fixpoint pairs (cc : list nat) : list (nat * nat) :=
  match cc with
  | [] => []
  | u :: cc' => map (fun v => (u, v)) cc' ++ pairs cc'
  end.

Fixpoint Qsum (l : list Q) : Q :=
  match l with
  | [] => 0
  | x :: l' => x + Qsum l'
  end.

Definition cluster_dissimilarity (mydata : list (list Q)) (cc : list nat) : Q :=
  Qsum (map (fun uv => sqdist (column mydata (fst uv)) (column mydata (snd uv)))
            (pairs cc)).

Definition HM_pairs (mydata : list (list Q)) (mstar : nat) (gnstar : list Z) : Q :=
  Qsum (map (fun j =>
               let cc := where_eq gnstar (Z.of_nat j) in
               if (1 <? length cc)%nat
               then (2 / (inject_Z (Z.of_nat (length cc)) - 1))
                    * cluster_dissimilarity mydata cc
               else 0)
            (seq 0 mstar)).

(** The partition in which series [i] is alone in cluster [i]. *)
Definition singletons (n : nat) : list Z := map Z.of_nat (seq 0 n).

Definition pair_dist (mydata : list (list Q)) (u v : nat) : Q :=
  sqdist (column mydata u) (column mydata v).

(** The double sum the loop of [HM1] runs through. *)
Definition triangle (mydata : list (list Q)) (cc : list nat) : Q :=
  Qsum (map (fun i1 =>
               Qsum (map (fun i2 => pair_dist mydata (nth i2 cc 0%nat)
                                              (nth i1 cc 0%nat))
                         (seq 0 i1)))
            (seq 0 (length cc))).

End HM.

(** ** tseriescm.py: the sampler *)

Module Sampler.

(** Failures (a raised exception) are [None]. *)
Definition bind {B C : Type} (x : option B) (f : B -> option C) : option C :=
  match x with
  | Some v => f v
  | None => None
  end.

Notation "x <- e ;; k" := (bind e (fun x => k))
  (at level 61, e at next level, right associativity).

Definition Qltb (x y : Q) : bool := negb (Qle_bool y x).

Definition Qnat (k : nat) : Q := inject_Z (Z.of_nat k).

(** A logarithm computed by [np.log]: finite, or [-inf] for the argument 0
    (numpy warns and returns [-inf]). *)
Inductive logv : Type :=
| NegInf
| Fin (x : Q).

(** [x <= y] and [x == y] on such values. *)
Definition lv_le (x y : logv) : bool :=
  match x, y with
  | NegInf, _ => true
  | Fin _, NegInf => false
  | Fin u, Fin v => Qle_bool u v
  end.

Definition lv_eq (x y : logv) : bool :=
  match x, y with
  | NegInf, NegInf => true
  | Fin u, Fin v => Qeq_bool u v
  | _, _ => false
  end.

(** [min(x, 0)] and [min(0, x)]. *)
Definition lv_min0 (x : logv) : logv :=
  match x with
  | NegInf => NegInf
  | Fin u => Fin (Qmin u 0)
  end.

(** *** Matrices, by rows *)

Definition matrix : Type := list (list Q).

(** [np.delete(gamma, i, axis=1)]. *)
Definition delete_col (i : nat) (M : matrix) : matrix := map (delete_at i) M.

(** [gmi[:, jstar]]. *)
Definition select_cols (mask : list bool) (M : matrix) : matrix :=
  map (select mask) M.

(** [M[:, c]]. *)
Definition col (c : nat) (M : matrix) : list Q := map (fun r => nth c r 0) M.

(** [M[:, i] = v]; a vector of another length cannot be broadcast. *)
Fixpoint set_col_rows (i : nat) (v : list Q) (M : matrix) : matrix :=
  match M, v with
  | r :: M', x :: v' => set_at i x r :: set_col_rows i v' M'
  | _, _ => []
  end.

Definition set_col (i : nat) (v : list Q) (M : matrix) : option matrix :=
  if (length v =? length M)%nat then Some (set_col_rows i v M) else None.

(** [M[:, cc] = v.reshape((len(v), 1))]: every column of [cc] receives [v]. *)
Definition set_cols (cc : list nat) (v : list Q) (M : matrix) : option matrix :=
  fold_left (fun acc c => M' <- acc ;; set_col c v M') cc (Some M).

(** *** Configuration and its validation *)

Record config : Type := mkConfig {
  maxiter : Z;
  burnin : Z;
  thinning : Z;
  level : bool;
  trend : bool;
  seasonality : bool;
  deg : Z;
  c0eps : Q; c1eps : Q; c0beta : Q; c1beta : Q; c0alpha : Q; c1alpha : Q;
  priora : bool;
  pia : Q; q0a : Q; q1a : Q;
  priorb : bool;
  q0b : Q; q1b : Q;
  a0 : Q;                      (* the argument [a] *)
  b0 : Q;                      (* the argument [b] *)
  indlpml : bool
}.

(** The checks before the sampling starts; integer arguments are integers
    here, so the tests [x%1 != 0] never fire. *)
Definition valid_config (cfg : config) : bool :=
  negb (deg cfg <=? 0)%Z
  && negb (maxiter cfg <=? 0)%Z
  && negb (burnin cfg <=? 0)%Z
  && negb (thinning cfg <=? 0)%Z
  && negb (maxiter cfg <=? burnin cfg)%Z
  && negb (Qle_bool (c0eps cfg) 0 || Qle_bool (c1eps cfg) 0
           || Qle_bool (c0beta cfg) 0 || Qle_bool (c1beta cfg) 0
           || Qle_bool (c0alpha cfg) 0 || Qle_bool (c1alpha cfg) 0)
  && negb (Qle_bool (pia cfg) 0 || Qle_bool 1 (pia cfg))
  && negb (Qle_bool (q0a cfg) 0 || Qle_bool (q1a cfg) 0)
  && negb (Qltb (a0 cfg) 0 || Qle_bool 1 (a0 cfg))
  && negb (Qle_bool (q0b cfg) 0 || Qle_bool (q1b cfg) 0)
  && negb (Qle_bool (b0 cfg) (- a0 cfg)).

(** [level + trend + seasonality]. *)
Definition shape (cfg : config) : nat :=
  (Nat.b2n (level cfg) + Nat.b2n (trend cfg) + Nat.b2n (seasonality cfg))%nat.

(** The allocated trace length [CL]. *)
Definition CL (cfg : config) : Z :=
  if (thinning cfg =? 0)%Z then maxiter cfg - burnin cfg
  else ((maxiter cfg - burnin cfg) / thinning cfg)%Z.

(** *** State of the sampler *)

(** One row of the trace arrays. *)
Record snapshot : Type := mkSnapshot {
  s_sig2eps : list Q;
  s_sig2the : Q;
  s_rho : Q;
  s_a : Q;
  s_b : Q;
  s_m : nat;
  s_gn : list Z;
  s_sig2alpha : option (list Q);
  s_sig2beta : option (list Q)
}.

Record state : Type := mkState {
  gamma : matrix;
  sig2eps : list Q;
  sig2the : Q;
  sig2alpha : list Q;
  sig2beta : list Q;
  rho : Q;
  a : Q;
  b : Q;
  iter0 : Z;
  iter1 : Z;
  iter2 : Z;
  arrho : Z;
  ara : Z;
  arb : Z;
  sim : list (list Z);
  trace : list snapshot       (* the rows [0 .. iter1-1] written so far *)
}.

Definition with_gamma (g : matrix) (st : state) : state :=
  mkState g (sig2eps st) (sig2the st) (sig2alpha st) (sig2beta st)
          (rho st) (a st) (b st) (iter0 st) (iter1 st) (iter2 st)
          (arrho st) (ara st) (arb st) (sim st) (trace st).

Definition with_sim (S : list (list Z)) (st : state) : state :=
  mkState (gamma st) (sig2eps st) (sig2the st) (sig2alpha st) (sig2beta st)
          (rho st) (a st) (b st) (iter0 st) (iter1 st) (iter2 st)
          (arrho st) (ara st) (arb st) S (trace st).

Definition with_variances (e : list Q) (al be : list Q) (th : Q) (st : state)
  : state :=
  mkState (gamma st) e th al be
          (rho st) (a st) (b st) (iter0 st) (iter1 st) (iter2 st)
          (arrho st) (ara st) (arb st) (sim st) (trace st).

Definition with_rho (r : Q) (acc : Z) (st : state) : state :=
  mkState (gamma st) (sig2eps st) (sig2the st) (sig2alpha st) (sig2beta st)
          r (a st) (b st) (iter0 st) (iter1 st) (iter2 st)
          acc (ara st) (arb st) (sim st) (trace st).

Definition with_a (x : Q) (acc : Z) (st : state) : state :=
  mkState (gamma st) (sig2eps st) (sig2the st) (sig2alpha st) (sig2beta st)
          (rho st) x (b st) (iter0 st) (iter1 st) (iter2 st)
          (arrho st) acc (arb st) (sim st) (trace st).

Definition with_b (x : Q) (acc : Z) (st : state) : state :=
  mkState (gamma st) (sig2eps st) (sig2the st) (sig2alpha st) (sig2beta st)
          (rho st) (a st) x (iter0 st) (iter1 st) (iter2 st)
          (arrho st) (ara st) acc (sim st) (trace st).

Definition with_counters (i0 i1 i2 : Z) (tr : list snapshot) (st : state)
  : state :=
  mkState (gamma st) (sig2eps st) (sig2the st) (sig2alpha st) (sig2beta st)
          (rho st) (a st) (b st) i0 i1 i2
          (arrho st) (ara st) (arb st) (sim st) tr.

(** *** Random draws and numerical values of one iteration

    The Gaussian densities and the log-acceptance ratios are computed by
    numpy and scipy from the data and the current parameters; their values
    are taken as given.  A uniform draw on [low, high) is
    [low + (high - low) * u] for a standard uniform [u]. *)
Record draws : Type := mkDraws {
  dens_new : nat -> Q;          (* pdf(mydata[:,i], ..., W) *)
  dens_join : nat -> nat -> Q;  (* pdf(mydata[:,i], ... thetastar[:,j], sigmaeps) *)
  u_pick : nat -> Q;            (* the uniform behind np.random.choice, series i *)
  fresh : nat -> list Q;        (* the new gamma[:,i] drawn from g0 *)
  redraw : nat -> list Q;       (* (beta, theta) drawn for cluster j *)
  sig2eps_new : list Q;
  sig2alpha_new : list Q;
  sig2beta_new : list Q;
  sig2the_new : Q;
  u_rho : Q;                    (* behind rhomh *)
  q_rho : logv;                 (* q of the rho step *)
  logunif1 : logv;              (* np.log(unif1) *)
  unif2 : Q;
  u_amh : Q;                    (* behind amh *)
  quot1 : logv;                 (* quot1 after line 598 *)
  logunif3 : logv;              (* np.log(unif3) *)
  g_b : Q;                      (* the standard gamma variate behind y1 *)
  quot2 : logv;                 (* quot2 after line 630 *)
  logunif4 : logv               (* np.log(unif4) *)
}.

(** The draws lie in the supports of their distributions. *)
Definition draws_ok (dr : draws) : bool :=
  Qle_bool 0 (u_rho dr) && Qltb (u_rho dr) 1
  && Qle_bool 0 (unif2 dr) && Qltb (unif2 dr) 1
  && Qle_bool 0 (u_amh dr) && Qltb (u_amh dr) 1
  && Qle_bool 0 (g_b dr).

(** *** Step 2: weights and update of the membership of one series *)

(** Python's [sum]. *)
Definition py_sum (l : list Q) : Q := fold_left Qplus l 0.

(** The weights [q] of series [i] (lines 285-346).  [pdf0] and [pdfj j]
    are the values of the two density calls.  In the first branch
    [dj[j] <- e] is the comparison [dj[j] < -e], whose value is dropped:
    [dj] keeps its zeros.  When [den == 0] the log-space branch is taken,
    which raises in the three cases ([np.concatenate] of an array with a
    scalar, or with the scalar as axis). *)
Definition weights (sh : nat) (a b : Q) (nstar : list nat) (mi : nat)
           (pdf0 : Q) (pdfj : nat -> Q) : option (list Q) :=
  let d0 := (b + a * Qnat mi) * pdf0 in
  let dj :=
    match sh with
    | 0%nat => repeat 0 mi
    | 3%nat => map (fun j => (Qnat (nth j nstar 0%nat) - a) * pdfj j) (seq 0 mi)
    | _ => map (fun j => (Qnat (nth j nstar 0%nat) - a) * pdfj j) (seq 0 mi)
    end in
  let den := d0 + py_sum dj in
  if Qeq_bool den 0 then None
  else Some (map (fun x => x / den) dj ++ [d0 / den]).

Fixpoint cumsum (acc : Q) (q : list Q) : list Q :=
  match q with
  | [] => []
  | x :: q' => (acc + x) :: cumsum (acc + x) q'
  end.

(** [np.random.choice(np.arange(1,len(q)+1), size=1, replace=False, p=q)]
    for the uniform [u]: negative probabilities are refused; otherwise the
    answer is 1 plus the number of entries of the normalised cumulative
    sums that are [<= u] ([searchsorted] on the right). *)
Definition choice (q : list Q) (u : Q) : option nat :=
  if negb (forallb (Qle_bool 0) q) then None
  else
    let cdf := cumsum 0 q in
    let total := last cdf 0 in
    Some (S (length (filter (fun c => Qle_bool (c / total) u) cdf))).

(** The body of [for i in range(0,n)] (lines 255-374), as far as [gamma]
    is concerned. *)
Definition update_series (cfg : config) (dr : draws) (st : state) (i : nat)
  : option state :=
  g0 <- nth_error (gamma st) 0 ;;
  r <- Comp.comp Qeq_bool (delete_at i g0) ;;
  let mi := Comp.rstar r in
  let gammastar := select_cols (Comp.jstar r) (delete_col i (gamma st)) in
  q <- weights (shape cfg) (a st) (b st) (Comp.nstar r) mi
               (dens_new dr i) (dens_join dr i) ;;
  y <- choice q (u_pick dr i) ;;
  let newcol := if (y =? mi + 1)%nat then fresh dr i
                else col (y - 1) gammastar in
  g <- set_col i newcol (gamma st) ;;
  Some (with_gamma g st).

Definition membership (cfg : config) (dr : draws) (n : nat) (st : state)
  : option state :=
  fold_left (fun acc i => s <- acc ;; update_series cfg dr s i)
            (seq 0 n) (Some st).

(** *** Step 2.1: acceleration and similarity matrix *)

(** Line 450: [(iter0 % thinning == 0) & iter0 >= burnin].  [&] binds
    tighter than [>=]: the bit-and of the truth value with [iter0] is
    compared with [burnin]. *)
Definition sim_due (cfg : config) (it : Z) : bool :=
  (burnin cfg <=? Z.land (Z.b2z (it mod thinning cfg =? 0)%Z) it)%Z.

(** Line 642: [(iter0 % thinning == 0) & (iter0 >= burnin)]. *)
Definition save_due (cfg : config) (it : Z) : bool :=
  (it mod thinning cfg =? 0)%Z && (burnin cfg <=? it)%Z.

Definition incr (r c : nat) (S : list (list Z)) : list (list Z) :=
  let old := nth r S [] in
  set_at r (set_at c (nth c old 0 + 1)%Z old) S.

(** Lines 451-454: [for i1 in range(0,k): for i2 in range(i1,k)], with
    both increments of [sim]. *)
Definition sim_cluster (cc : list nat) (k : nat) (S : list (list Z))
  : list (list Z) :=
  fold_left
    (fun S1 i1 =>
       fold_left
         (fun S2 i2 =>
            let c1 := nth i1 cc 0%nat in
            let c2 := nth i2 cc 0%nat in
            incr c2 c1 (incr c1 c2 S2))
         (seq i1 (k - i1)) S1)
    (seq 0 k) S.

(** The body of [for j in range(0,m)] (lines 395-456): the members of
    cluster [j] receive the redrawn column; when line 450 holds, [sim] is
    incremented, and so is [memory], whose rows [cc + n*iter1] exist only
    while [iter1 < CL]. *)
Definition accel_cluster (cfg : config) (dr : draws) (r : Comp.result)
           (st : state) (j : nat) : option state :=
  let cc := HM.where_eq (Comp.gn r) (Z.of_nat j) in
  let k := nth j (Comp.nstar r) 0%nat in
  g <- set_cols cc (redraw dr j) (gamma st) ;;
  let st1 := with_gamma g st in
  if sim_due cfg (iter0 st) && (0 <? k)%nat then
    if (CL cfg <=? iter1 st)%Z then None
    else Some (with_sim (sim_cluster cc k (sim st)) st1)
  else Some st1.

Definition acceleration (cfg : config) (dr : draws) (st : state)
  : option state :=
  g0 <- nth_error (gamma st) 0 ;;
  r <- Comp.comp Qeq_bool g0 ;;
  fold_left (fun acc j => s <- acc ;; accel_cluster cfg dr r s j)
            (seq 0 (Comp.rstar r)) (Some st).

(** Line 463: the partition used by the later steps and saved in the
    trace. *)
Definition later_partition (st : state) : option Comp.result :=
  g1 <- nth_error (gamma st) 1 ;;
  Comp.comp Qeq_bool g1.

(** *** Steps 3-6: variances *)
Definition variances (cfg : config) (dr : draws) (st : state) : state :=
  with_variances
    (sig2eps_new dr)
    (if (shape cfg =? 3)%nat then sig2alpha st else sig2alpha_new dr)
    (if (shape cfg =? 0)%nat then sig2beta st else sig2beta_new dr)
    (sig2the_new dr) st.

(** *** Step 7: rho.  For [rhomh = -1] the matrix [Pmh] is singular and
    [scipy.linalg.cholesky] raises. *)
Definition rho_step (dr : draws) (st : state) : option state :=
  let rhomh := -(1) + (1 - -(1)) * u_rho dr in
  if Qeq_bool rhomh (-(1)) then None
  else
    let quot := lv_min0 (q_rho dr) in
    if lv_le (logunif1 dr) quot
    then Some (with_rho rhomh (arrho st + 1) st)
    else Some st.

(** *** Step 8: a (lines 564-608) *)
Definition proposal_a (dr : draws) (st : state) : Q :=
  if Qltb (b st) 0 then - b st + (1 - - b st) * u_amh dr
  else if Qle_bool (unif2 dr) (1 # 2) then 0
       else 0 + (1 - 0) * u_amh dr.

Definition a_step (cfg : config) (dr : draws) (st : state) : state :=
  if priora cfg then
    let amh := proposal_a dr st in
    if Qle_bool (a st + b st) 0 then with_a amh (ara st) st
    else
      let alphamh1 := lv_min0 (quot1 dr) in
      if lv_eq (logunif3 dr) alphamh1
      then with_a amh (ara st + 1) st
      else st
  else st.

(** *** Step 9: b (lines 611-640); [y1 = gamma.rvs(1, 1, scale=10)] has
    location 1 and scale 10. *)
Definition b_step (cfg : config) (dr : draws) (st : state) : state :=
  if priorb cfg then
    let y1 := 1 + 10 * g_b dr in
    let bmh := y1 - a st in
    if Qle_bool (a st + b st) 0 then with_b bmh (arb st) st
    else
      let alphamh2 := lv_min0 (quot2 dr) in
      if lv_le (logunif4 dr) alphamh2
      then with_b bmh (arb st + 1) st
      else st
  else st.

(** *** Checkpoint (lines 642-658), LPML rows (lines 660-662), counter *)
Definition take_snapshot (cfg : config) (r : Comp.result) (st : state)
  : snapshot :=
  mkSnapshot (sig2eps st) (sig2the st) (rho st) (a st) (b st)
             (Comp.rstar r) (Comp.gn r)
             (if (shape cfg =? 3)%nat then None else Some (sig2alpha st))
             (if (shape cfg =? 0)%nat then None else Some (sig2beta st)).

Definition checkpoint (cfg : config) (r : Comp.result) (st : state)
  : option state :=
  if save_due cfg (iter0 st) then
    let i1 := (iter1 st + 1)%Z in
    if (CL cfg <=? i1 - 1)%Z then None
    else Some (with_counters (iter0 st) i1 (iter2 st)
                             (trace st ++ [take_snapshot cfg r st]) st)
  else Some st.

Definition lpml_rows (cfg : config) : Z := ((maxiter cfg - burnin cfg) / 10)%Z.

Definition lpml (cfg : config) (n : nat) (st : state) : option state :=
  if indlpml cfg
     && ((iter0 st mod 10 =? 0)%Z && (burnin cfg <=? iter0 st)%Z)
  then
    let i2 := (iter2 st + 1)%Z in
    if (0 <? n)%nat && (lpml_rows cfg <=? i2 - 1)%Z then None
    else Some (with_counters (iter0 st) (iter1 st) i2 (trace st) st)
  else Some st.

(** *** One pass of the [while] body, and the loop *)
Definition iteration (cfg : config) (n : nat) (dr : draws) (st : state)
  : option state :=
  st1 <- membership cfg dr n st ;;
  st2 <- acceleration cfg dr st1 ;;
  r <- later_partition st2 ;;
  st3 <- rho_step dr (variances cfg dr st2) ;;
  let st4 := b_step cfg dr (a_step cfg dr st3) in
  st5 <- checkpoint cfg r st4 ;;
  st6 <- lpml cfg n st5 ;;
  Some (with_counters (iter0 st6 + 1) (iter1 st6) (iter2 st6) (trace st6) st6).

(** [k] passes of [while iter0 < maxiter]; [oracle it] holds the draws of
    the pass with [iter0 = it]. *)
Fixpoint passes (cfg : config) (n : nat) (oracle : nat -> draws) (k : nat)
         (st : state) : option state :=
  match k with
  | O => Some st
  | S k' =>
      if (iter0 st <? maxiter cfg)%Z
      then st' <- iteration cfg n (oracle (Z.to_nat (iter0 st))) st ;;
           passes cfg n oracle k' st'
      else Some st
  end.

(** The state before the loop (lines 137-199); [gamma0] is the matrix
    drawn at lines 155-178. *)
Definition init_state (cfg : config) (n p d : nat) (gamma0 : matrix) : state :=
  mkState gamma0 (repeat 1 n) 1 (repeat 1 p) (repeat 1 d) 0 (a0 cfg) (b0 cfg)
          0 0 0 0 0 0 (repeat (repeat 0%Z n) n) [].

(** The run up to the end of the loop, from the data frame: validation,
    scaling, design matrices, initial values, and [maxiter] passes.  The
    argument [k] bounds the number of passes; [tseriescm] is the case
    [k = maxiter]. *)
Definition run_upto {L : Type} (cfg : config) (index : list L)
           (columns : list (list Q)) (gamma0 : matrix)
           (oracle : nat -> draws) (k : nat) : option state :=
  if valid_config cfg then
    sc <- Scale.scaleandperiods index columns ;;
    let T := length index in
    let n := length columns in
    dm <- Design.designmatrices (level cfg) (trend cfg) (seasonality cfg)
                                (Z.to_nat (deg cfg)) T ;;
    passes cfg n oracle k (init_state cfg n (Design.p dm) (Design.d dm) gamma0)
  else None.

Definition run {L : Type} (cfg : config) (index : list L)
           (columns : list (list Q)) (gamma0 : matrix)
           (oracle : nat -> draws) : option state :=
  run_upto cfg index columns gamma0 oracle (Z.to_nat (maxiter cfg)).

(** Line 723: [sim = sim/iter1]. *)
Definition normalized_sim (st : state) : list (list Q) :=
  map (map (fun c => inject_Z c / inject_Z (iter1 st))) (sim st).

(** The iterations at which a snapshot is due, and their number. *)
Definition due_iterations (cfg : config) : list Z :=
  filter (save_due cfg) (map Z.of_nat (seq 0 (Z.to_nat (maxiter cfg)))).

(** The hyperparameter invariants of the specification, and the ones the
    loop keeps. *)
Definition strict_invariant (st : state) : Prop :=
  0 <= a st /\ a st < 1 /\ - a st < b st /\ -(1) < rho st /\ rho st < 1.

Definition invariant (st : state) : Prop :=
  0 <= a st /\ a st < 1 /\ - a st <= b st /\ -(1) < rho st /\ rho st < 1.

(** [S[i, j]], and the shape and symmetry of the similarity matrix. *)
Definition entry (S : list (list Z)) (i j : nat) : Z := nth j (nth i S []) 0%Z.

Definition square (n : nat) (S : list (list Z)) : Prop :=
  length S = n /\ Forall (fun r => length r = n) S.

Definition symmetric (S : list (list Z)) : Prop :=
  forall i j, entry S i j = entry S j i.


(** The states of a run of [n] series under [cfg]: the state before the
    loop, and the state after each step of an iteration taken from a
    state of the run. *)
Inductive reachable (cfg : config) (n : nat) : state -> Prop :=
| reach_init p d gamma0 :
    valid_config cfg = true -> reachable cfg n (init_state cfg n p d gamma0)
| reach_membership dr st st' :
    reachable cfg n st -> membership cfg dr n st = Some st' ->
    reachable cfg n st'
| reach_acceleration dr st st' :
    reachable cfg n st -> acceleration cfg dr st = Some st' ->
    reachable cfg n st'
| reach_variances dr st :
    reachable cfg n st -> reachable cfg n (variances cfg dr st)
| reach_rho dr st st' :
    draws_ok dr = true -> reachable cfg n st -> rho_step dr st = Some st' ->
    reachable cfg n st'
| reach_a dr st :
    draws_ok dr = true -> reachable cfg n st ->
    reachable cfg n (a_step cfg dr st)
| reach_b dr st :
    draws_ok dr = true -> reachable cfg n st ->
    reachable cfg n (b_step cfg dr st)
| reach_checkpoint r st st' :
    reachable cfg n st -> checkpoint cfg r st = Some st' ->
    reachable cfg n st'
| reach_lpml st st' :
    reachable cfg n st -> lpml cfg n st = Some st' -> reachable cfg n st'
| reach_count st :
    reachable cfg n st ->
    reachable cfg n (with_counters (iter0 st + 1) (iter1 st) (iter2 st)
                                   (trace st) st).

End Sampler.

(** ** Concrete runs used to evaluate the sampler *)

Module Scenario.
Import Sampler.

(** Two series over twelve months. *)
Definition months : list nat := seq 1 12.

Definition frame : list (list Q) :=
  [ map (fun t => inject_Z (Z.of_nat t)) months;
    map (fun t => inject_Z (Z.of_nat (t * t))) months ].

(** A frame whose second series is constant. *)
Definition frame_constant : list (list Q) :=
  [ map (fun t => inject_Z (Z.of_nat t)) months; repeat 3 12 ].

(** A column of [gamma]: the two leading entries, then zeros. *)
Definition column2 (rows : nat) (x y : Q) : list Q :=
  x :: y :: repeat 0 (rows - 2).

(** [gamma] with the given two leading rows. *)
Definition gamma_of (rows : nat) (r0 r1 : list Q) : matrix :=
  r0 :: r1 :: repeat (repeat 0 (length r0)) (rows - 2).

(** The configuration with the default values of the optional arguments,
    for the given chain lengths, flags and initial [a] and [b]. *)
Definition config_of (maxiter burnin thinning : Z)
           (level trend seasonality priora priorb : bool) (a b : Q) : config :=
  mkConfig maxiter burnin thinning level trend seasonality 2
           2 1 2 1 2 1 priora (1 # 2) 1 1 priorb 1 1 a b false.

(** Draws that are the same at every iteration: [pick] is the uniform
    behind every categorical draw; series [i] receives the fresh column
    [(i+1, second i, 0, ...)] when it opens a cluster, and cluster [j] is
    redrawn as [(j+1, second j, 0, ...)].  The proposal of the rho step is
    [rhomh = 0], the current value, for which the log-ratio [q] is 0, and
    [np.log(unif1) = -1].  The densities all have the value 1: only the
    ratios of the weights enter the categorical draw. *)
Definition draws_of (rows : nat) (pick : Q) (second : nat -> Q)
           (unif2 u_amh : Q) (quot1 logunif3 : logv) : draws :=
  mkDraws (fun _ => 1) (fun _ _ => 1) (fun _ => pick)
          (fun i => column2 rows (Qnat (i + 1)) (second i))
          (fun j => column2 rows (Qnat (j + 1)) (second j))
          [1; 1] [1] (repeat 1 13) 1
          (1 # 2) (Fin 0) (Fin (-(1)))
          unif2 u_amh quot1 logunif3
          0 (Fin 0) (Fin 0).

(** The default flags give 13 clustered coefficients: [gamma] has
    13 + 12 rows. *)
Definition rows_default : nat := 25.

Definition gamma_start : matrix := gamma_of rows_default [1; 2] [7; 8].

(** Every series joins the cluster of the other one. *)
Definition calm : draws :=
  draws_of rows_default (1 # 2) (fun _ => 5) (3 # 4) (1 # 2) (Fin 0) (Fin (-(1))).

(** Four iterations, two of them past the burn-in, thinning 1. *)
Definition cfg_sim : config :=
  config_of 4 2 1 false true true false false (1 # 4) 0.

(** Burn-in 1: the only case in which line 450 can hold. *)
Definition cfg_sim_burnin1 : config :=
  config_of 2 1 1 false true true false false (1 # 4) 0.

(** Three iterations, burn-in 2, thinning 2: [CL = 0]. *)
Definition cfg_trace : config :=
  config_of 3 2 2 false true true false false (1 # 4) 0.

(** Every series opens a cluster of its own, and the two clusters are
    redrawn with the same second coordinate. *)
Definition apart : draws :=
  draws_of rows_default (9 # 10) (fun _ => 5) (3 # 4) (1 # 2) (Fin 0) (Fin (-(1))).

Definition cfg_rows : config :=
  config_of 2 1 1 false true true false false (1 # 4) 0.

(** The [a] step is enabled, from [a = 1/4] and [b = 0]. *)
Definition cfg_a : config :=
  config_of 2 1 1 false true true true false (1 # 4) 0.

(** Two clusters remain after the acceleration step ([m = 2]); [unif2] is
    below 1/2, so the proposal is the atom [amh = 0]; then
    [np.log(b + (j+1)*amh)] is [np.log(0) = -inf], so [quot1 = -inf]; the
    uniform [unif3] is 0, so [np.log(unif3) = -inf]. *)
Definition accept_zero : draws :=
  draws_of rows_default (9 # 10) (fun j => Qnat (j + 6)) (1 # 4) (1 # 2)
           NegInf NegInf.

(** The [a] step is enabled, from [a = 3/4] and [b = 0]. *)
Definition cfg_a_high : config :=
  config_of 2 1 1 false true true true false (3 # 4) 0.

(** Every series joins the cluster of the other one, and one cluster of
    two series remains ([m = 1], [nstar = [2]]); [unif2] is
    above 1/2 and the proposal is [amh = 1/2], for which [quot1 = log 2],
    written 6931/10000; the uniform [unif3] is 1/2, of logarithm [-log 2]. *)
Definition below_ratio : draws :=
  draws_of rows_default (1 # 10) (fun _ => 5) (3 # 4) (1 # 2)
           (Fin (6931 # 10000)) (Fin (-(6931 # 10000))).

(** What the theorems read off a final state. *)
Definition saved_and_sim (o : option state) : option (Z * list (list Z)) :=
  option_map (fun st => (iter1 st, sim st)) o.

Definition counters (o : option state) : option (Z * Z * nat) :=
  option_map (fun st => (iter0 st, iter1 st, length (trace st))) o.

End Scenario.

(** ** tseriescm.py: the arguments and their checks *)

Module Validation.
Import Sampler.

(** [burnin=sentinel], the argument left out, stands for
    [math.floor(0.1*maxiter)]: the double [0.1] exceeds 1/10 by less than
    [6e-18], so for a positive integer [maxiter] (below [2**52]) the floor
    is that of [maxiter/10]; a [maxiter] that is not positive is refused
    before the burn-in is looked at. *)
Definition default_burnin (maxiter : Z) : Z := (maxiter / 10)%Z.

(** The configuration after lines 93-94; [None] is the burn-in left out. *)
Definition with_burnin (bn : option Z) (cfg : config) : config :=
  mkConfig (maxiter cfg)
           (match bn with
            | None => default_burnin (maxiter cfg)
            | Some x => x
            end)
           (thinning cfg) (level cfg) (trend cfg) (seasonality cfg) (deg cfg)
           (c0eps cfg) (c1eps cfg) (c0beta cfg) (c1beta cfg)
           (c0alpha cfg) (c1alpha cfg)
           (priora cfg) (pia cfg) (q0a cfg) (q1a cfg)
           (priorb cfg) (q0b cfg) (q1b cfg) (a0 cfg) (b0 cfg) (indlpml cfg).

(** The [ValueError]s of lines 96-127, named by the argument their message
    is about. *)
Inductive rejection : Type :=
| BadDeg          (* deg must be a positive integer number. *)
| BadMaxiter      (* maxiter must be a positive (large) integer number. *)
| BadBurnin       (* burnin must be a non-negative integer number. *)
| BadThinning     (* thinning must be a non-negative integer number. *)
| ChainTooShort   (* maxiter cannot be less than or equal to burnin. *)
| BadRates        (* c0eps,c1eps,c0beta,c1beta,c0alpha and c1alpha must be positive numbers. *)
| BadPia          (* The mixing proportion pia must be a number in (0,1). *)
| BadShapesA      (* q0a and q1a must be positive numbers. *)
| BadA            (* 'a' must be a number in [0,1). *)
| BadShapesB      (* q0b and q1b must be positive numbers. *)
| BadB.           (* 'b' must be greater than '-a'. *)

(** The checks in the order of the code: the first one that raises. *)
Definition first_rejection (cfg : config) : option rejection :=
  if (deg cfg <=? 0)%Z then Some BadDeg
  else if (maxiter cfg <=? 0)%Z then Some BadMaxiter
  else if (burnin cfg <=? 0)%Z then Some BadBurnin
  else if (thinning cfg <=? 0)%Z then Some BadThinning
  else if (maxiter cfg <=? burnin cfg)%Z then Some ChainTooShort
  else if Qle_bool (c0eps cfg) 0 || Qle_bool (c1eps cfg) 0
          || Qle_bool (c0beta cfg) 0 || Qle_bool (c1beta cfg) 0
          || Qle_bool (c0alpha cfg) 0 || Qle_bool (c1alpha cfg) 0
       then Some BadRates
  else if Qle_bool (pia cfg) 0 || Qle_bool 1 (pia cfg) then Some BadPia
  else if Qle_bool (q0a cfg) 0 || Qle_bool (q1a cfg) 0 then Some BadShapesA
  else if Qltb (a0 cfg) 0 || Qle_bool 1 (a0 cfg) then Some BadA
  else if Qle_bool (q0b cfg) 0 || Qle_bool (q1b cfg) 0 then Some BadShapesB
  else if Qle_bool (b0 cfg) (- a0 cfg) then Some BadB
  else None.

End Validation.

(** ** tseriescm.py: the draws of the variances and the correlation matrix *)

Module Posterior.

(** Lines 498-512: [sig2beta] from the draws of [invgamma.rvs], each an
    array with one entry per cluster ([m = betastar.shape[1]]); [rvs k] is
    the array returned by the call of rank [k].  The test
    [diff_in_shape <= betastar.shape[1]/2] compares with a float. *)
Definition sig2beta_draw (d m : nat) (rvs : nat -> list Q) : list Q :=
  let diff_in_shape := (Z.of_nat d - Z.of_nat m)%Z in
  if (diff_in_shape <? 0)%Z then
    map (fun x => 1 / x) (firstn d (rvs 0%nat))
  else if (2 * diff_in_shape <=? Z.of_nat m)%Z then
    map (fun x => 1 / x)
        (rvs 0%nat ++ firstn (Z.to_nat diff_in_shape) (rvs 1%nat))
  else
    let beta_vector :=
      fold_left (fun acc v => acc ++ rvs v) (seq 0 (d / m)) [] in
    map (fun x => 1 / x) (beta_vector ++ firstn (d mod m) (rvs (d / m)%nat)).

(** Lines 517-523: the sum [s1] of the quadratic forms
    [thetastar[:,j]' Pinv thetastar[:,j]], whose sign is flipped when it
    gets negative. *)
Definition s1_loop (forms : list Q) : Q :=
  fold_left
    (fun s1 form =>
       let s := s1 + form in
       if Sampler.Qltb s 0 then s * -(1) else s)
    forms 0.

(** Lines 143-145 and 557-559: [P[j-1,k-1] = rho**(abs(j-k))] for
    [j, k = 1..T]. *)
Definition P_matrix (rho : Q) (T : nat) : list (list Q) :=
  map (fun j =>
         map (fun k => Qpower rho (Z.abs (Z.of_nat j - Z.of_nat k)))
             (seq 1 T))
      (seq 1 T).

(** [np.eye(T)]. *)
Definition eye (T : nat) : list (list Q) :=
  map (fun i => map (fun j => if Nat.eqb i j then 1 else 0) (seq 0 T))
      (seq 0 T).

End Posterior.

(** ** tseriescm.py: after the loop *)

Module Summary.
Import Sampler.

(** Lines 720-722: the acceptance rates of the three Metropolis-Hastings
    steps. *)
Definition acceptance_rates (st : state) : Q * Q * Q :=
  (inject_Z (arrho st) / inject_Z (iter0 st),
   inject_Z (ara st) / inject_Z (iter0 st),
   inject_Z (arb st) / inject_Z (iter0 st)).

(** [np.argmin]: the index of the first occurrence of the minimum; the
    empty array raises [ValueError]. *)
Fixpoint argmin_from (best : Q) (ibest i : nat) (l : list Q) : nat :=
  match l with
  | [] => ibest
  | x :: l' =>
      if Qltb x best then argmin_from x i (S i) l'
      else argmin_from best ibest (S i) l'
  end.

Definition argmin (l : list Q) : option nat :=
  match l with
  | [] => None
  | x :: l' => Some (argmin_from x 0 1 l')
  end.

(** Lines 725-734: [dist] has [CL] entries, [norm i] being the value of
    [np.linalg.norm] for the saved configuration [i] (a number: after a
    loop that has saved [CL >= 1] iterations the division by [iter1]
    gives no [nan]); the rows of [msample] and [memorygn] that were not
    written hold zeros. *)
Definition chosen (cfg : config) (n : nat) (norm : nat -> Q) (st : state)
  : option (nat * list Z) :=
  let dist := map norm (seq 0 (Z.to_nat (CL cfg))) in
  k <- argmin dist ;;
  Some (nth k (map (fun s => (s_m s, s_gn s)) (trace st))
            (0%nat, repeat 0%Z n)).

(** Lines 751-753: the members printed for each group. *)
Definition groups (mstar : nat) (gnstar : list Z) : list (list nat) :=
  map (fun j => HM.where_eq gnstar (Z.of_nat j)) (seq 0 mstar).

(** What [tseriescm] prints at the end. *)
Record report : Type := mkReport {
  r_mstar : nat;
  r_groups : list (list nat);
  r_HM : Q
}.

(** [mydata] by rows, from the scaled columns. *)
Definition rows_of (T : nat) (columns : list (list Q)) : list (list Q) :=
  map (fun t => map (fun c => nth t c 0) columns) (seq 0 T).

(** Lines 719-755, from the state at the end of the loop. *)
Definition finish (cfg : config) (n : nat) (mydata : list (list Q))
           (norm : nat -> Q) (st : state) : option report :=
  mg <- chosen cfg n norm st ;;
  let mstar := fst mg in
  let gnstar := snd mg in
  Some (mkReport mstar (groups mstar gnstar) (HM.HM mydata mstar gnstar)).

(** The whole call: the loop, then the choice of the configuration and
    the heterogeneity measure, on the data scaled at line 129 (computed
    here again, the state of the loop does not hold them). *)
Definition tseriescm {L : Type} (cfg : config) (index : list L)
           (columns : list (list Q)) (gamma0 : matrix)
           (oracle : nat -> draws) (norm : nat -> Q) : option report :=
  st <- run cfg index columns gamma0 oracle ;;
  sc <- Scale.scaleandperiods index columns ;;
  finish cfg (length columns) (rows_of (length index) (snd (fst sc))) norm st.

(** The iterations at which a row of [auxlpml] is due (line 661). *)
Definition lpml_due (cfg : config) (it : Z) : bool :=
  (it mod 10 =? 0)%Z && (burnin cfg <=? it)%Z.

Definition lpml_iterations (cfg : config) : list Z :=
  filter (lpml_due cfg) (map Z.of_nat (seq 0 (Z.to_nat (maxiter cfg)))).

(** The counters of the loop and the rows written so far. *)
Definition bookkeeping (st : state)
  : Z * Z * Z * list snapshot * Z * Z * Z :=
  (iter0 st, iter1 st, iter2 st, trace st, arrho st, ara st, arb st).

(** The number of iterations before [it] at which a snapshot, or a row of
    [auxlpml], was due. *)
Definition due_before (cfg : config) (it : Z) : Z :=
  Z.of_nat (length (filter (save_due cfg)
                           (map Z.of_nat (seq 0 (Z.to_nat it))))).

Definition lpml_due_before (cfg : config) (it : Z) : Z :=
  Z.of_nat (length (filter (lpml_due cfg)
                           (map Z.of_nat (seq 0 (Z.to_nat it))))).

(** What the counters of a state at the top of the loop satisfy. *)
Definition counted (cfg : config) (n : nat) (st : state) : Prop :=
  (0 <= iter0 st)%Z
  /\ iter1 st = due_before cfg (iter0 st)
  /\ Z.of_nat (length (trace st)) = iter1 st
  /\ (iter1 st <= CL cfg)%Z
  /\ iter2 st = (if indlpml cfg then lpml_due_before cfg (iter0 st) else 0%Z)
  /\ (indlpml cfg = true -> (0 < n)%nat -> (iter2 st <= lpml_rows cfg)%Z)
  /\ (0 <= arrho st <= iter0 st)%Z
  /\ (0 <= ara st <= iter0 st)%Z
  /\ (0 <= arb st <= iter0 st)%Z.

End Summary.

(** ** scaleandperiods.py: the scaled columns, one by one *)

Module Scaled.
Import Scale.

(** [maxima[i,0]] and [minima[i,0]] of a column with at least one entry. *)
Definition column_extrema (col : list Q) : Q * Q :=
  match col with
  | [] => (0, 0)
  | x :: rest => (py_max x rest, py_min x rest)
  end.

(** The column after the loops of lines 48-52. *)
Definition scaled_column (col : list Q) : list Q :=
  scale_column (fst (column_extrema col)) (snd (column_extrema col)) col.

(** The order of the values of a series is kept by its scaled values. *)
Definition same_order (col out : list Q) : Prop :=
  length out = length col
  /\ forall i j, (i < length col)%nat -> (j < length col)%nat ->
       nth i col 0 <= nth j col 0 -> nth i out 0 <= nth j out 0.

End Scaled.

(** ** Positions behind a boolean mask *)

Module Mask.

(** The position in the array of the entry of rank [j] of [array[mask]]. *)
Fixpoint nth_true (mask : list bool) (j : nat) : option nat :=
  match mask with
  | [] => None
  | true :: mask' =>
      match j with
      | O => Some 0%nat
      | S j' => option_map S (nth_true mask' j')
      end
  | false :: mask' => option_map S (nth_true mask' j)
  end.

(** The position before [np.delete(array, i)] of the entry at position
    [k] after it. *)
Definition undelete (i k : nat) : nat := if (k <? i)%nat then k else S k.

(** All the rows of a matrix have [n] entries. *)
Definition width_is {B : Type} (n : nat) (M : list (list B)) : Prop :=
  Forall (fun row => length row = n) M.

End Mask.

(** ** What one cluster adds to the similarity matrix *)

Module Similarity.

(** The amount added to [sim[u,v]] for a cluster of members [cc]. *)
Definition cluster_increment (cc : list nat) (u v : nat) : Z :=
  if existsb (Nat.eqb u) cc && existsb (Nat.eqb v) cc
  then (if Nat.eqb u v then 2%Z else 1%Z)
  else 0%Z.

End Similarity.

(** ** Further concrete cases *)

Module Cases.
Import Sampler.

(** A chain with the LPML rows requested: eleven iterations, burn-in 10. *)
Definition cfg_lpml : config :=
  mkConfig 11 10 1 false true true 2 2 1 2 1 2 1 false (1 # 2) 1 1
           false 1 1 (1 # 4) 0 true.

(** No component is clustered: [level + trend + seasonality == 0]. *)
Definition cfg_unclustered : config :=
  Scenario.config_of 2 1 1 false false false false false (1 # 4) 0.

(** The state before the loop for two series over twelve months; without
    clustered component [gamma] is [theta], of 12 rows. *)
Definition gamma_theta : matrix := Scenario.gamma_of 12 [1; 2] [7; 8].

Definition start_unclustered : state :=
  init_state cfg_unclustered 2 14 0 gamma_theta.

(** The [b] step is enabled, from [a = 1/4] and [b = 0]. *)
Definition cfg_b : config :=
  Scenario.config_of 2 1 1 false true true false true (1 # 4) 0.

(** Draws as [Scenario.calm], with fresh vectors of 12 entries. *)
Definition calm12 : draws :=
  Scenario.draws_of 12 (1 # 2) (fun _ => 5) (3 # 4) (1 # 2) (Fin 0) (Fin (-(1))).

End Cases.

(** * Properties *)

(** ** The partition utility *)

Module CompFacts.
Import Comp.
Section Facts.

Variable A : Type.
Variable eqb : A -> A -> bool.
Hypothesis eqb_refl : forall x, eqb x x = true.
Hypothesis eqb_sym : forall x y, eqb x y = eqb y x.
Hypothesis eqb_trans :
forall x y z, eqb x y = true -> eqb y z = true -> eqb x z = true.

Lemma mark_led_map (x : A) (seen vs : list A) :
mark_led eqb x vs (map (led_of eqb seen) vs) = map (led_of eqb (x :: seen)) vs.
Proof.
induction vs as [|y vs IH]; simpl; [reflexivity|].
rewrite IH. f_equal. unfold led_of. simpl. apply orb_comm.
Qed.

Lemma all_led_no_first (seen vs : list A) :
forallb (fun b => b) (map (led_of eqb seen) vs) = true ->
firsts_mask eqb seen vs = repeat false (length vs).
Proof.
induction vs as [|y vs IH]; simpl; [reflexivity|].
intros H. apply andb_true_iff in H. destruct H as [Hy Hvs].
rewrite Hy. f_equal. auto.
Qed.

Lemma comp_loop_firsts (seen vs : list A) :
comp_loop eqb vs (map (led_of eqb seen) vs) = firsts_mask eqb seen vs.
Proof.
revert seen. induction vs as [|x vs IH]; intros seen; simpl; [reflexivity|].
destruct (led_of eqb seen x) eqn:Hx; simpl.
- destruct (forallb (fun b => b) (map (led_of eqb seen) vs)) eqn:Hall.
  + now rewrite all_led_no_first.
  + now rewrite IH.
- destruct vs as [|y vs']; [reflexivity|].
  rewrite mark_led_map.
  destruct (forallb (fun b => b) (map (led_of eqb (x :: seen)) (y :: vs'))) eqn:Hall.
  + now rewrite all_led_no_first.
  + now rewrite IH.
Qed.

Lemma repeat_false_led (vs : list A) :
repeat false (length vs) = map (led_of eqb []) vs.
Proof. induction vs; simpl; congruence. Qed.

Lemma select_firsts (seen vs : list A) :
select (firsts_mask eqb seen vs) vs = reps eqb seen vs.
Proof.
revert seen. induction vs as [|x vs IH]; intros seen; simpl; [reflexivity|].
destruct (led_of eqb seen x); simpl; now rewrite IH.
Qed.

Lemma firsts_mask_length (seen vs : list A) :
length (firsts_mask eqb seen vs) = length vs.
Proof.
revert seen. induction vs as [|x vs IH]; intros seen; simpl; [reflexivity|].
destruct (led_of eqb seen x); simpl; now rewrite IH.
Qed.

(** The loop of [comp] computes the mask of the first occurrences. *)
Lemma comp_jstar (v : list A) :
comp_loop eqb v (repeat false (length v)) = firsts_mask eqb [] v.
Proof. rewrite repeat_false_led. apply comp_loop_firsts. Qed.

Lemma reps_not_led (seen vs : list A) :
Forall (fun r => led_of eqb seen r = false) (reps eqb seen vs).
Proof.
revert seen. induction vs as [|x vs IH]; intros seen; simpl; [constructor|].
destruct (led_of eqb seen x) eqn:Hx; [apply IH|].
constructor; [assumption|].
eapply Forall_impl; [|apply (IH (x :: seen))].
intros r Hr. unfold led_of in *. simpl in Hr.
now apply orb_false_iff in Hr.
Qed.

Lemma reps_distinct (seen vs : list A) :
pairwise_distinct eqb (reps eqb seen vs).
Proof.
revert seen. induction vs as [|x vs IH]; intros seen; simpl; [constructor|].
destruct (led_of eqb seen x) eqn:Hx; [apply IH|].
constructor; [|apply IH].
eapply Forall_impl; [|apply (reps_not_led (x :: seen) vs)].
intros r Hr. unfold led_of in Hr. simpl in Hr.
apply orb_false_iff in Hr. rewrite eqb_sym. tauto.
Qed.

(** Every entry is led by [seen] or equals one of the representatives. *)
Lemma reps_cover (seen vs : list A) (y : A) :
In y vs ->
led_of eqb seen y = true \/
exists r, In r (reps eqb seen vs) /\ eqb y r = true.
Proof.
revert seen. induction vs as [|x vs IH]; intros seen Hin; simpl in *; [tauto|].
destruct Hin as [->|Hin].
- destruct (led_of eqb seen y) eqn:Hy; [now left|].
  right. exists y. split; [now left|apply eqb_refl].
- destruct (led_of eqb seen x) eqn:Hx; [now apply IH|].
  destruct (IH (x :: seen) Hin) as [Hl|(r & Hr & Hyr)].
  + unfold led_of in Hl. simpl in Hl. apply orb_true_iff in Hl.
    destruct Hl as [Hl|Hl]; [|now left].
    right. exists x. split; [now left|assumption].
  + right. exists r. split; [now right|assumption].
Qed.

Lemma match_from_found (x : A) (ys : list A) (i : nat) :
(exists r, In r ys /\ eqb x r = true) ->
exists c r, match_from eqb (Z.of_nat i) x ys = Z.of_nat (i + c)
            /\ nth_error ys c = Some r /\ eqb x r = true.
Proof.
revert i. induction ys as [|y ys IH]; intros i (r & Hin & Hr); simpl in *; [tauto|].
destruct (eqb x y) eqn:Hxy.
- exists 0%nat, y. rewrite Nat.add_0_r. auto.
- destruct Hin as [->|Hin]; [congruence|].
  destruct (IH (S i) (ex_intro _ r (conj Hin Hr))) as (c & r' & Hm & Hn & He).
  exists (S c), r'. simpl. split; [|auto].
  replace (Z.of_nat i + 1)%Z with (Z.of_nat (S i)) by lia.
  rewrite Hm. f_equal. lia.
Qed.

Lemma sum_nat_map_add {B : Type} (f g : B -> nat) (l : list B) :
sum_nat (map (fun x => (f x + g x)%nat) l)
= (sum_nat (map f l) + sum_nat (map g l))%nat.
Proof. induction l as [|x l IH]; simpl; [reflexivity|]. rewrite IH. lia. Qed.

Lemma sum_nat_indicator {B : Type} (f : B -> bool) (l : list B) :
sum_nat (map (fun x => if f x then 1%nat else 0%nat) l) = length (filter f l).
Proof.
induction l as [|x l IH]; simpl; [reflexivity|].
rewrite IH. now destruct (f x).
Qed.

(** Summing the column counts or counting the matches of each row. *)
Lemma sum_counts_swap (ys v : list A) :
sum_nat (map (fun r => count_eq eqb r v) ys)
= sum_nat (map (fun y => length (filter (fun r => eqb y r) ys)) v).
Proof.
induction v as [|y v IH]; simpl.
- unfold count_eq. simpl. induction ys; simpl; auto.
- rewrite <- IH. rewrite <- sum_nat_indicator, <- sum_nat_map_add.
  f_equal. apply map_ext. intros r. unfold count_eq. simpl.
  now destruct (eqb y r).
Qed.

Lemma filter_none {B : Type} (f : B -> bool) (l : list B) :
(forall x, In x l -> f x = false) -> filter f l = [].
Proof.
induction l as [|x l IH]; intros H; simpl; [reflexivity|].
rewrite (H x (or_introl eq_refl)). apply IH. intros; apply H; now right.
Qed.

Lemma distinct_match_once (ys : list A) (y : A) :
pairwise_distinct eqb ys ->
(exists r, In r ys /\ eqb y r = true) ->
length (filter (fun r => eqb y r) ys) = 1%nat.
Proof.
induction 1 as [|r0 ys Hr0 Hys IH]; intros (r & Hin & Hr); simpl in *; [tauto|].
destruct (eqb y r0) eqn:Hy0; simpl.
- f_equal. rewrite filter_none; [reflexivity|]. intros r' Hr'.
  rewrite Forall_forall in Hr0. specialize (Hr0 r' Hr').
  destruct (eqb y r') eqn:Hyr'; [|reflexivity].
  rewrite eqb_sym in Hy0. rewrite (eqb_trans Hy0 Hyr') in Hr0. discriminate.
- destruct Hin as [->|Hin]; [congruence|]. apply IH. eauto.
Qed.

Lemma distinct_firsts_all (seen ys : list A) :
Forall (fun r => led_of eqb seen r = false) ys ->
pairwise_distinct eqb ys ->
firsts_mask eqb seen ys = repeat true (length ys).
Proof.
intros Hled Hd. revert seen Hled.
induction Hd as [|x ys Hx Hys IH]; intros seen Hled; simpl; [reflexivity|].
inversion Hled as [|? ? Hx0 Hrest]; subst. rewrite Hx0. f_equal.
apply IH. rewrite Forall_forall in *. intros r Hr.
unfold led_of in *. simpl. rewrite eqb_sym, (Hx r Hr). now apply Hrest.
Qed.

Lemma select_all {B : Type} (l : list B) :
select (repeat true (length l)) l = l.
Proof. induction l; simpl; congruence. Qed.

Lemma distinct_app_l (l1 l2 : list A) :
pairwise_distinct eqb (l1 ++ l2) -> pairwise_distinct eqb l2.
Proof.
induction l1 as [|x l1 IH]; simpl; [auto|].
intros H. inversion H; subst. auto.
Qed.

Lemma distinct_app_head (l1 l2 : list A) (x : A) :
pairwise_distinct eqb (l1 ++ x :: l2) ->
Forall (fun y => eqb x y = false) l1.
Proof.
induction l1 as [|y l1 IH]; simpl; intros H; [constructor|].
inversion H as [|? ? Hy Hrest]; subst. constructor; [|auto].
rewrite Forall_forall in Hy. rewrite eqb_sym. apply Hy.
apply in_or_app. right. now left.
Qed.

Lemma match_from_skip (x : A) (l1 l2 : list A) (i : Z) :
Forall (fun y => eqb x y = false) l1 ->
match_from eqb i x (l1 ++ x :: l2) = (i + Z.of_nat (length l1))%Z.
Proof.
intros H. revert i. induction H as [|y l1 Hy Hl1 IH]; intros i; simpl.
- rewrite eqb_refl. lia.
- rewrite Hy, IH. lia.
Qed.

Lemma pd_match_distinct (pre ys : list A) :
pairwise_distinct eqb (pre ++ ys) ->
map (fun x => match_from eqb 0 x (pre ++ ys)) ys
= map Z.of_nat (seq (length pre) (length ys)).
Proof.
revert pre. induction ys as [|x ys IH]; intros pre Hd; simpl; [reflexivity|].
f_equal.
- rewrite match_from_skip; [reflexivity|]. eapply distinct_app_head; eauto.
- specialize (IH (pre ++ [x])). rewrite <- app_assoc in IH. simpl in IH.
  rewrite IH by assumption. rewrite length_app. simpl.
  now rewrite Nat.add_1_r.
Qed.

Lemma map_const_in {B C : Type} (f : B -> C) (c : C) (l : list B) :
(forall x, In x l -> f x = c) -> map f l = repeat c (length l).
Proof.
induction l as [|x l IH]; intros H; simpl; [reflexivity|].
rewrite (H x (or_introl eq_refl)). f_equal. apply IH.
intros; apply H; now right.
Qed.

Lemma distinct_counts_one (ys : list A) :
pairwise_distinct eqb ys ->
map (fun x => count_eq eqb x ys) ys = repeat 1%nat (length ys).
Proof.
intros Hd. apply map_const_in. intros x Hx. unfold count_eq.
rewrite (filter_ext _ (fun r => eqb x r)) by (intros; apply eqb_sym).
apply distinct_match_once; [assumption|]. exists x. auto.
Qed.

(** On a non-empty vector [comp] returns, and its result is the partition
  into classes of equal values: the representatives are pairwise
  distinct, the counts sum to the length, every entry is labelled with a
  representative equal to it, and [rstar] is the number of counts. *)
Theorem comp_nonempty_partition (x0 : A) (v0 : list A) :
let v := x0 :: v0 in
exists r,
  comp eqb v = Some r
  /\ length (jstar r) = length v
  /\ pairwise_distinct eqb (ystar_of v r)
  /\ length (nstar r) = length (ystar_of v r)
  /\ rstar r = length (nstar r)
  /\ sum_nat (nstar r) = length v
  /\ Forall2 (labels_own_value eqb (ystar_of v r)) v (gn r).
Proof.
intros v. assert (Hv : v = x0 :: v0) by reflexivity. clearbody v.
unfold comp. rewrite comp_jstar, select_firsts.
destruct (reps eqb [] v) as [|y ys] eqn:Hreps.
{ subst v. simpl in Hreps. discriminate. }
eexists. split; [reflexivity|]. unfold ystar_of.
cbn [jstar nstar rstar gn]. rewrite select_firsts, Hreps.
assert (Hd : pairwise_distinct eqb (y :: ys))
  by (rewrite <- Hreps; apply reps_distinct).
assert (Hc : forall z, In z v -> exists r, In r (y :: ys) /\ eqb z r = true).
{ intros z Hz. rewrite <- Hreps.
  destruct (reps_cover [] v z Hz) as [Hl|Hr]; [discriminate|assumption]. }
split; [apply firsts_mask_length|]. split; [assumption|].
split; [apply length_map|]. split; [reflexivity|]. split.
- rewrite sum_counts_swap.
  rewrite (map_ext_in _ (fun _ => 1%nat)).
  + clear. induction v; simpl; auto.
  + intros z Hz. apply distinct_match_once; auto.
- unfold pd_match. clear Hreps. revert Hc. generalize v. intros w Hc.
  induction w as [|z w IH]; simpl; constructor.
  + destruct (@match_from_found z (y :: ys) 0 (Hc z (or_introl eq_refl)))
      as (c & r & Hm & Hn & He).
    exists c, r. simpl in Hm. auto.
  + apply IH. intros; apply Hc; now right.
Qed.

(** X17 (representatives of a partition): re-applying [comp] to the
  representatives gives the identity partition: every entry is a
  representative, of count 1, labelled with its own position. *)
Theorem comp_representatives_identity (x0 : A) (v0 : list A) (r : result) :
comp eqb (x0 :: v0) = Some r ->
let ystar := ystar_of (x0 :: v0) r in
let k := length ystar in
comp eqb ystar
= Some (mkResult (repeat true k) (repeat 1%nat k) k (map Z.of_nat (seq 0 k))).
Proof.
intros Hr.
destruct (comp_nonempty_partition x0 v0)
  as (r' & Hr' & _ & Hd & Hlen & _ & Hsum & _).
rewrite Hr in Hr'. inversion Hr'; subst r'. clear Hr'.
assert (Hne : ystar_of (x0 :: v0) r <> []).
{ intros He. rewrite He in Hlen. simpl in Hlen.
  apply length_zero_iff_nil in Hlen. rewrite Hlen in Hsum. discriminate. }
simpl. set (ys := ystar_of (x0 :: v0) r) in *.
unfold comp. rewrite comp_jstar.
rewrite distinct_firsts_all; [|apply Forall_forall; reflexivity|assumption].
rewrite select_all.
destruct ys as [|y ys'] eqn:Hys; [congruence|]. rewrite <- Hys in *.
rewrite distinct_counts_one by assumption.
rewrite repeat_length. unfold pd_match.
pose proof (pd_match_distinct [] ys Hd) as Hm. simpl in Hm.
now rewrite Hm.
Qed.

End Facts.

(** C4 (the code's behaviour on the vector of length 0): [comp] raises
  instead of returning the empty partition; the counts of an empty set of
  representatives cannot be taken by [np.apply_along_axis]. *)
Theorem comp_empty_raises (A : Type) (eqb : A -> A -> bool) :
comp eqb (@nil A) = None.
Proof. reflexivity. Qed.

End CompFacts.

(** ** The heterogeneity measure *)

Module HMFacts.
Import HM.

Lemma Qsum_app (l1 l2 : list Q) : Qsum (l1 ++ l2) == Qsum l1 + Qsum l2.
Proof.
  induction l1 as [|x l1 IH]; cbn [Qsum app]; [lra|]. rewrite IH. lra.
Qed.

Lemma Qsum_map_ext {B : Type} (f g : B -> Q) (l : list B) :
  (forall x, In x l -> f x == g x) -> Qsum (map f l) == Qsum (map g l).
Proof.
  induction l as [|x l IH]; intros H; cbn [Qsum map]; [lra|].
  rewrite (H x (or_introl eq_refl)), IH; [lra|].
  intros; apply H; now right.
Qed.

Lemma Qsum_map_add {B : Type} (f g : B -> Q) (l : list B) :
  Qsum (map (fun x => f x + g x) l) == Qsum (map f l) + Qsum (map g l).
Proof.
  induction l as [|x l IH]; cbn [Qsum map]; [lra|]. rewrite IH. lra.
Qed.

Lemma Qsum_nonneg (l : list Q) : Forall (fun x => 0 <= x) l -> 0 <= Qsum l.
Proof.
  induction 1 as [|x l Hx Hl IH]; cbn [Qsum]; lra.
Qed.

Lemma Qsum_map_zero {B : Type} (f : B -> Q) (l : list B) :
  (forall x, In x l -> f x == 0) -> Qsum (map f l) == 0.
Proof.
  intros H. rewrite (Qsum_map_ext f (fun _ => 0) l H).
  clear H. induction l as [|x l IH]; cbn [Qsum map]; lra.
Qed.

(** An accumulation loop adds up the terms it is given. *)
Lemma fold_left_sum {B : Type} (h : Q -> B -> Q) (F : B -> Q) :
  (forall acc x, h acc x == acc + F x) ->
  forall l acc, fold_left h l acc == acc + Qsum (map F l).
Proof.
  intros H l. induction l as [|x l IH]; intros acc; cbn [fold_left Qsum map]; [lra|].
  rewrite IH, H. lra.
Qed.

Lemma fold_left_Qplus (l : list Q) (acc : Q) :
  fold_left Qplus l acc == acc + Qsum l.
Proof.
  rewrite (fold_left_sum Qplus (fun x => x)); [|intros; lra].
  now rewrite map_id.
Qed.

Lemma Qsquare_nonneg (z : Q) : 0 <= z * z.
Proof.
  destruct (Qlt_le_dec z 0) as [Hneg|Hpos].
  - setoid_replace (z * z) with ((- z) * (- z)) by ring.
    apply Qmult_le_0_compat; lra.
  - now apply Qmult_le_0_compat.
Qed.

Lemma sq_diffs_nonneg (u v : list Q) : Forall (fun x => 0 <= x) (sq_diffs u v).
Proof.
  revert v. induction u as [|x u IH]; intros [|y v]; cbn [sq_diffs];
    constructor; auto.
  apply Qsquare_nonneg.
Qed.

Lemma sqdist_nonneg (u v : list Q) : 0 <= sqdist u v.
Proof.
  unfold sqdist. rewrite fold_left_Qplus.
  pose proof (Qsum_nonneg (sq_diffs_nonneg u v)). lra.
Qed.

Lemma map_nth_seq {B C : Type} (F : B -> C) (d : B) (l : list B) :
  map (fun k => F (nth k l d)) (seq 0 (length l)) = map F l.
Proof.
  induction l as [|x l IH]; simpl; [reflexivity|].
  f_equal. rewrite <- seq_shift, map_map. exact IH.
Qed.

Section Cluster.
Variable mydata : list (list Q).

Lemma HM1_loop_triangle (cc : list nat) :
  HM1_loop mydata cc == triangle mydata cc.
Proof.
  unfold HM1_loop, triangle.
  rewrite (fold_left_sum _
             (fun i1 => Qsum (map (fun i2 => pair_dist mydata (nth i2 cc 0%nat)
                                                       (nth i1 cc 0%nat))
                                  (seq 0 i1)))); [lra|].
  intros acc i1.
  now rewrite (fold_left_sum _ (fun i2 => pair_dist mydata (nth i2 cc 0%nat)
                                                    (nth i1 cc 0%nat)))
    by (intros; unfold pair_dist; lra).
Qed.

Lemma triangle_cons (u : nat) (cc : list nat) :
  triangle mydata (u :: cc)
  == Qsum (map (pair_dist mydata u) cc) + triangle mydata cc.
Proof.
  unfold triangle. simpl length. rewrite <- cons_seq, <- seq_shift.
  simpl map at 1. cbn [Qsum]. rewrite map_map.
  rewrite (Qsum_map_ext _
             (fun k => pair_dist mydata u (nth k cc 0%nat)
                       + Qsum (map (fun i2 => pair_dist mydata (nth i2 cc 0%nat)
                                                        (nth k cc 0%nat))
                                   (seq 0 k)))).
  - rewrite Qsum_map_add. rewrite (map_nth_seq (pair_dist mydata u) 0%nat cc).
    cbn [seq map Qsum]. lra.
  - intros k _. rewrite <- cons_seq, <- seq_shift. cbn [map Qsum nth].
    rewrite map_map. cbn [nth]. lra.
Qed.

Lemma triangle_pairs (cc : list nat) :
  triangle mydata cc == cluster_dissimilarity mydata cc.
Proof.
  unfold cluster_dissimilarity.
  induction cc as [|u cc IH]; [reflexivity|].
  rewrite triangle_cons, IH. cbn [pairs]. rewrite map_app, Qsum_app, map_map.
  cbn [fst snd]. reflexivity.
Qed.

Lemma cluster_dissimilarity_nonneg (cc : list nat) :
  0 <= cluster_dissimilarity mydata cc.
Proof.
  unfold cluster_dissimilarity. apply Qsum_nonneg.
  apply Forall_forall. intros x Hx. apply in_map_iff in Hx.
  destruct Hx as (uv & <- & _). apply sqdist_nonneg.
Qed.

Lemma HM_as_pairs (mstar : nat) (gnstar : list Z) :
  HM mydata mstar gnstar == HM_pairs mydata mstar gnstar.
Proof.
  unfold HM, HM_pairs.
  rewrite (fold_left_sum _
    (fun j => let cc := where_eq gnstar (Z.of_nat j) in
              if (1 <? length cc)%nat
              then (2 / (inject_Z (Z.of_nat (length cc)) - 1)) * HM1_loop mydata cc
              else 0)).
  - rewrite Qplus_0_l. apply Qsum_map_ext. intros j _. cbv zeta.
    destruct (1 <? length (where_eq gnstar (Z.of_nat j)))%nat; [|lra].
    now rewrite HM1_loop_triangle, triangle_pairs.
  - intros acc j. cbv zeta.
    destruct (1 <? length (where_eq gnstar (Z.of_nat j)))%nat; lra.
Qed.

Lemma HM_pairs_nonneg (mstar : nat) (gnstar : list Z) :
  0 <= HM_pairs mydata mstar gnstar.
Proof.
  unfold HM_pairs. apply Qsum_nonneg. apply Forall_forall.
  intros x Hx. apply in_map_iff in Hx. destruct Hx as (j & <- & _). cbv zeta.
  destruct (1 <? length (where_eq gnstar (Z.of_nat j)))%nat eqn:Hlen; [|lra].
  apply Nat.ltb_lt in Hlen.
  apply Qmult_le_0_compat; [|apply cluster_dissimilarity_nonneg].
  apply Qlt_le_weak, Qlt_shift_div_l.
  - assert (1 < inject_Z (Z.of_nat (length (where_eq gnstar (Z.of_nat j))))).
    { change 1 with (inject_Z 1). rewrite <- Zlt_Qlt. lia. }
    lra.
  - lra.
Qed.

End Cluster.

Lemma singletons_above (j s n : nat) :
  (j < s)%nat ->
  filter (fun ig : nat * Z => Z.eqb (snd ig) (Z.of_nat j))
         (combine (seq s n) (map Z.of_nat (seq s n))) = [].
Proof.
  revert s. induction n as [|n IH]; intros s Hs; simpl; [reflexivity|].
  destruct (Z.eqb_spec (Z.of_nat s) (Z.of_nat j)); [lia|].
  apply IH. lia.
Qed.

Lemma singletons_once (j s n : nat) :
  (length (filter (fun ig : nat * Z => Z.eqb (snd ig) (Z.of_nat j))
                  (combine (seq s n) (map Z.of_nat (seq s n)))) <= 1)%nat.
Proof.
  revert s. induction n as [|n IH]; intros s; simpl; [lia|].
  destruct (Z.eqb_spec (Z.of_nat s) (Z.of_nat j)); [|apply IH].
  simpl. rewrite singletons_above by lia. simpl. lia.
Qed.

Lemma singletons_where (n j : nat) :
  (length (where_eq (singletons n) (Z.of_nat j)) <= 1)%nat.
Proof.
  unfold where_eq, singletons. rewrite length_map, length_map, length_seq.
  apply singletons_once.
Qed.

(** C8: the measure computed by the loops is the sum, over the clusters of
    more than one member, of [2/(size-1)] times the sum of the squared
    distances of the unordered pairs of members; it is nonnegative, and it
    is 0 for the partition into singletons. *)
Theorem HM_pairwise_measure (mydata : list (list Q)) (mstar : nat)
        (gnstar : list Z) (n : nat) :
  HM mydata mstar gnstar == HM_pairs mydata mstar gnstar
  /\ 0 <= HM mydata mstar gnstar
  /\ HM mydata n (singletons n) == 0.
Proof.
  split; [apply HM_as_pairs|]. split.
  - rewrite HM_as_pairs. apply HM_pairs_nonneg.
  - rewrite HM_as_pairs. unfold HM_pairs. apply Qsum_map_zero.
    intros j _. cbv zeta.
    destruct (1 <? length (where_eq (singletons n) (Z.of_nat j)))%nat eqn:H;
      [|reflexivity].
    apply Nat.ltb_lt in H. pose proof (singletons_where n j). lia.
Qed.

End HMFacts.

(** ** The design-matrix builder *)

Module DesignFacts.
Import Design.

Lemma X21_shape : length X21 = 12%nat /\ Forall (fun row => length row = 11%nat) X21.
Proof. split; [reflexivity|]. repeat constructor. Qed.

Lemma stack_X21_shape (k : nat) :
  length (stack_X21 k) = (12 * (k + 1))%nat
  /\ Forall (fun row => length row = 11%nat) (stack_X21 k).
Proof.
  induction k as [|k [IHl IHf]]; simpl stack_X21.
  - exact X21_shape.
  - rewrite length_app, IHl. split; [simpl; lia|].
    apply Forall_app. split; [assumption|apply X21_shape].
Qed.

Lemma fill_rows_shape (deg : nat) (ts : list nat) (season : matrix) :
  length ts = length season ->
  Forall (fun row => length row = 11%nat) season ->
  length (fill_rows deg ts season) = length ts
  /\ Forall (fun row => length row = width deg) (fill_rows deg ts season).
Proof.
  revert season. induction ts as [|t ts IH]; intros [|srow season] Hlen Hf;
    simpl in *; try discriminate; [split; [reflexivity|constructor]|].
  inversion Hf as [|? ? Hs Hf']; subst.
  destruct (IH season) as [IHl IHf]; [lia|assumption|].
  split; [now rewrite IHl|].
  constructor; [|assumption].
  simpl. rewrite length_app, length_map, length_seq, Hs. unfold width. lia.
Qed.

(** For [T >= 12] the matrix [M] has [T] rows of [1 + deg + 11] entries. *)
Lemma full_matrix_shape (deg T : nat) :
  (12 <= T)%nat ->
  length (full_matrix deg T) = T
  /\ Forall (fun row => length row = width deg) (full_matrix deg T).
Proof.
  intros HT. unfold full_matrix.
  destruct (stack_X21_shape (T / 12 - 1)) as [Hl Hf].
  destruct X21_shape as [Hl21 Hf21].
  assert (Hnum : (1 <= T / 12)%nat) by (apply Nat.div_le_lower_bound; lia).
  pose proof (Nat.div_mod_eq T 12) as Hdm.
  pose proof (Nat.mod_upper_bound T 12) as Hmod.
  destruct (@fill_rows_shape deg (seq 1 T)
              (stack_X21 (T / 12 - 1) ++ firstn (T mod 12) X21)) as [Rl Rf].
  - rewrite length_seq, length_app, Hl, length_firstn, Hl21. lia.
  - apply Forall_app. split; [assumption|].
    apply Forall_forall. intros row Hrow.
    rewrite Forall_forall in Hf21. apply Hf21.
    rewrite <- (firstn_skipn (T mod 12) X21). apply in_or_app. now left.
  - rewrite length_seq in Rl. split; assumption.
Qed.

Lemma firstn_pick (row : list BinNums.Z) (k : nat) :
  (k <= length row)%nat ->
  firstn k row = map (fun c => nth c row 0%Z) (seq 0 k).
Proof.
  revert row. induction k as [|k IH]; intros row H; [reflexivity|].
  destruct row as [|x row]; simpl in H; [lia|].
  cbn [firstn seq map nth]. f_equal.
  rewrite <- seq_shift, map_map. cbn [nth]. apply IH. lia.
Qed.

Lemma slice_pick (row : list BinNums.Z) (lo k : nat) :
  (lo + k <= length row)%nat ->
  firstn k (skipn lo row) = map (fun c => nth c row 0%Z) (seq lo k).
Proof.
  revert row. induction lo as [|lo IH]; intros row H.
  - apply firstn_pick. simpl in H. lia.
  - destruct row as [|x row]; simpl in H.
    + assert (k = 0%nat) by lia. subst. reflexivity.
    + cbn [skipn]. rewrite IH by lia.
      rewrite <- (seq_shift k lo), map_map. reflexivity.
Qed.

Lemma cols_pick (M : matrix) (w lo hi : nat) :
  Forall (fun row => length row = w) M -> (lo <= hi <= w)%nat ->
  cols lo hi M = pick_cols (seq lo (hi - lo)) M.
Proof.
  intros Hf Hb. unfold cols, pick_cols. apply map_ext_in.
  intros row Hrow. rewrite Forall_forall in Hf.
  apply slice_pick. rewrite (Hf row Hrow). lia.
Qed.

Lemma hcat_pick (M : matrix) (i1 i2 : list nat) :
  hcat (pick_cols i1 M) (pick_cols i2 M) = pick_cols (i1 ++ i2) M.
Proof.
  unfold pick_cols. induction M as [|row M IH]; simpl; [reflexivity|].
  now rewrite IH, map_app.
Qed.

Lemma pick_all (M : matrix) (w : nat) :
  Forall (fun row => length row = w) M -> M = pick_cols (seq 0 w) M.
Proof.
  intros Hf. unfold pick_cols. induction Hf as [|row M Hrow Hf IH]; simpl;
    [reflexivity|].
  rewrite <- IH. f_equal.
  rewrite <- (@slice_pick row 0 w) by lia. simpl.
  now rewrite <- Hrow, firstn_all.
Qed.

Lemma pick_cols_shape (idx : list nat) (M : matrix) :
  length (pick_cols idx M) = length M
  /\ Forall (fun row => length row = length idx) (pick_cols idx M).
Proof.
  unfold pick_cols. split; [apply length_map|].
  apply Forall_forall. intros row Hrow. apply in_map_iff in Hrow.
  destruct Hrow as (r & <- & _). apply length_map.
Qed.

(** The three groups of columns of [M]: level, trend, seasonal block. *)
Lemma columns_split (deg : nat) :
  seq 0 (width deg) = [0%nat] ++ seq 1 deg ++ seq (deg + 1) 11.
Proof.
  unfold width. replace (1 + deg + 11)%nat with (1 + (deg + 11))%nat by lia.
  rewrite seq_app, (seq_app deg 11 (0 + 1)).
  replace (0 + 1 + deg)%nat with (deg + 1)%nat by lia. reflexivity.
Qed.

(** X18 (series of at least one year): for [T >= 12] [designmatrices]
    returns: the counts add up to [1 + deg + 11], a present block has [T]
    rows and as many columns as its count, and [Z] and [X] are made of
    columns of [M] that together are all the columns of [M], each taken
    once. *)
Theorem designmatrices_monthly (level trend seasonality : bool) (deg T : nat) :
  (12 <= T)%nat ->
  exists dm cz cx,
    designmatrices level trend seasonality deg T = Some dm
    /\ (p dm + d dm = 1 + deg + 11)%nat
    /\ length cz = p dm /\ length cx = d dm
    /\ from_cols cz (full_matrix deg T) (Z dm)
    /\ from_cols cx (full_matrix deg T) (X dm)
    /\ Permutation (cz ++ cx) (seq 0 (1 + deg + 11))
    /\ ((0 < p dm)%nat -> has_shape T (p dm) (Z dm))
    /\ ((0 < d dm)%nat -> has_shape T (d dm) (X dm)).
Proof.
  intros HT. destruct (@full_matrix_shape deg T HT) as [Hrows Hwidth].
  assert (Hnum : (T / 12 <? 1)%nat = false).
  { apply Nat.ltb_ge. apply Nat.div_le_lower_bound; lia. }
  unfold designmatrices. rewrite Hnum.
  set (M := full_matrix deg T) in *.
  assert (Hshape : forall idx, has_shape T (length idx) (Mat (pick_cols idx M))).
  { intros idx. destruct (pick_cols_shape idx M) as [Hl Hf].
    split; [now rewrite Hl|assumption]. }
  pose proof (columns_split deg) as Hsplit. unfold width in *.
  assert (E1 : cols 0 (deg + 1) M = pick_cols ([0%nat] ++ seq 1 deg) M).
  { rewrite (@cols_pick M (1 + deg + 11) 0 (deg + 1) Hwidth) by lia.
    replace (deg + 1 - 0)%nat with (1 + deg)%nat by lia.
    now rewrite seq_app. }
  assert (E2 : cols (deg + 1) (1 + deg + 11) M = pick_cols (seq (deg + 1) 11) M).
  { rewrite (@cols_pick M (1 + deg + 11) (deg + 1) (1 + deg + 11) Hwidth) by lia.
    now replace (1 + deg + 11 - (deg + 1))%nat with 11%nat by lia. }
  assert (E3 : cols 1 (deg + 1) M = pick_cols (seq 1 deg) M).
  { rewrite (@cols_pick M (1 + deg + 11) 1 (deg + 1) Hwidth) by lia.
    now replace (deg + 1 - 1)%nat with deg by lia. }
  assert (E4 : cols 0 1 M = pick_cols [0%nat] M).
  { now rewrite (@cols_pick M (1 + deg + 11) 0 1 Hwidth) by lia. }
  assert (E5 : cols 1 (1 + deg + 11) M = pick_cols (seq 1 deg ++ seq (deg + 1) 11) M).
  { rewrite (@cols_pick M (1 + deg + 11) 1 (1 + deg + 11) Hwidth) by lia.
    replace (1 + deg + 11 - 1)%nat with (deg + 11)%nat by lia.
    rewrite seq_app. do 3 f_equal. lia. }
  assert (E6 : M = pick_cols ([0%nat] ++ seq 1 deg ++ seq (deg + 1) 11) M).
  { rewrite <- Hsplit. now apply (@pick_all M (1 + deg + 11)). }
  assert (Hblock : forall idx k, length idx = k ->
                                 has_shape T k (Mat (pick_cols idx M))).
  { intros idx k <-. apply Hshape. }
  assert (Hfull : has_shape T (1 + deg + 11) (Mat M)) by (split; assumption).
  pose (A := [0%nat]). pose (B := seq 1 deg). pose (C := seq (deg + 1) 11).
  fold A B C in Hsplit, E1, E2, E3, E4, E5, E6.
  assert (HA : length A = 1%nat) by reflexivity.
  assert (HB : length B = deg) by apply length_seq.
  assert (HC : length C = 11%nat) by apply length_seq.
  rewrite Hsplit. clearbody A B C. clear Hsplit Hshape.
  destruct level, trend, seasonality; eexists;
    [ exists [], (A ++ B ++ C) | exists C, (A ++ B) | exists B, (A ++ C)
    | exists (B ++ C), A | exists A, (B ++ C) | exists (A ++ C), B
    | exists (A ++ B), C | exists (A ++ B ++ C), [] ];
    (split; [reflexivity|]); cbn [p d X Z];
    rewrite ?E1, ?E2, ?E3, ?E4, ?E5, ?hcat_pick;
    (split; [lia|]);
    (split; [rewrite ?length_app; simpl; lia|]);
    (split; [rewrite ?length_app; simpl; lia|]);
    (split; [first [reflexivity | exact E6]|]);
    (split; [first [reflexivity | exact E6]|]);
    (split; [|split; intros Hpos;
                first [ exfalso; lia
                      | exact Hfull
                      | apply Hblock; rewrite ?length_app; simpl; lia ]]).
  - apply Permutation_refl.
  - rewrite Permutation_app_comm, <- app_assoc. apply Permutation_refl.
  - apply Permutation_app_swap_app.
  - apply Permutation_app_comm.
  - apply Permutation_refl.
  - rewrite <- app_assoc. apply Permutation_app_head, Permutation_app_comm.
  - rewrite <- app_assoc. apply Permutation_refl.
  - rewrite app_nil_r. apply Permutation_refl.
Qed.

(** C10 (series shorter than a year): for every [T < 12], written
    [T mod 12], [designmatrices] raises instead of returning the counts
    and the matrices; five periods are one instance. *)
Theorem designmatrices_short_series_raises
        (level trend seasonality : bool) (deg T : nat) :
  designmatrices level trend seasonality deg (T mod 12) = None
  /\ designmatrices false true true 2 5 = None.
Proof.
  split; [|reflexivity]. unfold designmatrices.
  assert (H : (T mod 12 < 12)%nat) by (apply Nat.mod_upper_bound; lia).
  rewrite (Nat.div_small _ _ H). reflexivity.
Qed.

End DesignFacts.

(** ** The scaler *)

Module ScaleFacts.
Import Scale.

Lemma py_max_upper (x : Q) (l : list Q) :
  x <= py_max x l /\ Forall (fun y => y <= py_max x l) l.
Proof.
  revert x. induction l as [|y l IH]; intros x; cbn [py_max].
  - split; [lra|constructor].
  - destruct (Qle_bool y x) eqn:E.
    + apply Qle_bool_iff in E. destruct (IH x) as [H1 H2].
      split; [assumption|]. constructor; [lra|assumption].
    + destruct (IH y) as [H1 H2].
      assert (x < y).
      { apply Qnot_le_lt. intros H. apply Qle_bool_iff in H. congruence. }
      split; [lra|]. constructor; assumption.
Qed.

Lemma py_min_lower (x : Q) (l : list Q) :
  py_min x l <= x /\ Forall (fun y => py_min x l <= y) l.
Proof.
  revert x. induction l as [|y l IH]; intros x; cbn [py_min].
  - split; [lra|constructor].
  - destruct (Qle_bool x y) eqn:E.
    + apply Qle_bool_iff in E. destruct (IH x) as [H1 H2].
      split; [assumption|]. constructor; [lra|assumption].
    + destruct (IH y) as [H1 H2].
      assert (y < x).
      { apply Qnot_le_lt. intros H. apply Qle_bool_iff in H. congruence. }
      split; [lra|]. constructor; assumption.
Qed.






Lemma no_constant_columns (mm : list (Q * Q)) (s : nat) :
  Forall (fun m => Qeq_bool (fst m) (snd m) = false) mm ->
  filter (fun im : nat * (Q * Q) => Qeq_bool (fst (snd im)) (snd (snd im)))
         (combine (seq s (length mm)) mm) = [].
Proof.
  intros H. revert s. induction H as [|m mm Hm Hmm IH]; intros s; simpl;
    [reflexivity|].
  rewrite Hm. apply IH.
Qed.


(** C9 (a constant column): the frame of [Scenario.frame_constant], whose
    second series is constantly 3, makes [scaleandperiods] raise; no
    matrix and no list of removed columns is returned. *)
Theorem scaleandperiods_constant_column_raises :
  constant_columns [(12, 1); (3, 3)] = [1%nat]
  /\ scaleandperiods Scenario.months Scenario.frame_constant = None.
Proof. split; reflexivity. Qed.

End ScaleFacts.

(** ** The sampler *)

Module SamplerFacts.
Import Sampler Scenario.

(** *** Weights of the membership step *)

(** C1 (no clustered covariate): when [level + trend + seasonality == 0]
    the weights do not depend on the densities of the existing clusters;
    with one cluster of one series, [a = 1/4], [b = 0] and all densities
    1, the weight of joining is 0 and the categorical distribution is
    (0, 1), where the two other configurations give (3/4, 1/4). *)
Theorem weights_unclustered_ignore_clusters
        (a b : Q) (nstar : list nat) (mi : nat) (pdf0 : Q) (pdfj : nat -> Q) :
  weights 0 a b nstar mi pdf0 pdfj = weights 0 a b nstar mi pdf0 (fun _ => 0)
  /\ weights 0 (1 # 4) 0 [1%nat] 1 1 (fun _ => 1) = Some [0; 4 # 4]
  /\ weights 3 (1 # 4) 0 [1%nat] 1 1 (fun _ => 1) = Some [48 # 64; 16 # 64]
  /\ weights 2 (1 # 4) 0 [1%nat] 1 1 (fun _ => 1) = Some [48 # 64; 16 # 64].
Proof. repeat split; reflexivity. Qed.

(** Whenever the weights are returned, they add up to 1. *)
Lemma Qsum_div (den : Q) (l : list Q) :
  ~ den == 0 -> HM.Qsum (map (fun x => x / den) l) == HM.Qsum l / den.
Proof.
  intros Hden. induction l as [|x l IH]; cbn [map HM.Qsum].
  - field. assumption.
  - rewrite IH. field. assumption.
Qed.

Lemma weights_sum_one (sh : nat) (a b : Q) (nstar : list nat) (mi : nat)
      (pdf0 : Q) (pdfj : nat -> Q) (q : list Q) :
  weights sh a b nstar mi pdf0 pdfj = Some q -> py_sum q == 1.
Proof.
  unfold weights. cbv zeta.
  set (d0 := (b + a * Qnat mi) * pdf0).
  set (dj := match sh with
             | 0%nat => repeat 0 mi
             | _ => _
             end).
  assert (Hden : d0 + py_sum dj == d0 + HM.Qsum dj).
  { unfold py_sum. rewrite HMFacts.fold_left_Qplus. lra. }
  set (den := d0 + py_sum dj) in *.
  destruct (Qeq_bool den 0) eqn:E; [discriminate|].
  apply Qeq_bool_neq in E. intros H. inversion H; subst. clear H.
  unfold py_sum. rewrite HMFacts.fold_left_Qplus.
  rewrite HMFacts.Qsum_app, Qsum_div by assumption.
  cbn [HM.Qsum].
  setoid_replace (HM.Qsum dj) with (den - d0) by lra.
  field. assumption.
Qed.

(** *** Similarity matrix *)

(** C2 (increments of the similarity matrix): with burn-in 2, thinning 1
    and 4 iterations, two iterations are saved and the matrix is never
    incremented; with burn-in 1 and 2 iterations, one iteration is saved
    and the diagonal entries are 2. *)
Theorem sim_increments_misplaced :
  saved_and_sim (run cfg_sim months frame gamma_start (fun _ => calm))
  = Some (2%Z, [[0%Z; 0%Z]; [0%Z; 0%Z]])
  /\ saved_and_sim (run cfg_sim_burnin1 months frame gamma_start (fun _ => calm))
     = Some (1%Z, [[2%Z; 1%Z]; [1%Z; 2%Z]])
  /\ map (sim_due cfg_sim) [0; 1; 2; 3]%Z = [false; false; false; false]
  /\ map (save_due cfg_sim) [0; 1; 2; 3]%Z = [false; false; true; true].
Proof. repeat split; vm_compute; reflexivity. Qed.

(** X21 (test of line 450): for a positive burn-in, the test that guards
    the increments of the similarity matrix holds exactly when the
    burn-in is 1, at the odd iterations that are multiples of the
    thinning. *)
Lemma sim_due_burnin1 (cfg : config) (it : Z) :
  (1 <= burnin cfg)%Z -> (0 <= it)%Z ->
  sim_due cfg it = true <->
  burnin cfg = 1%Z /\ (it mod thinning cfg)%Z = 0%Z /\ (it mod 2)%Z = 1%Z.
Proof.
  intros Hb Hit. unfold sim_due. rewrite Z.leb_le.
  destruct (Z.eqb_spec (it mod thinning cfg) 0) as [E|E]; cbn [Z.b2z].
  - rewrite Z.land_comm. change 1%Z with (Z.ones 1) at 1.
    rewrite Z.land_ones by lia. change (2 ^ 1)%Z with 2%Z.
    pose proof (Z.mod_pos_bound it 2). lia.
  - rewrite Z.land_0_l. lia.
Qed.

Lemma set_at_length {B : Type} (i : nat) (x : B) (l : list B) :
  length (set_at i x l) = length l.
Proof.
  revert i. induction l as [|y l IH]; intros [|i]; simpl; auto.
Qed.

Lemma nth_set_at {B : Type} (i k : nat) (x d : B) (l : list B) :
  nth k (set_at i x l) d
  = if (i =? k)%nat && (i <? length l)%nat then x else nth k l d.
Proof.
  revert i k. induction l as [|y l IH]; intros [|i] [|k]; simpl; auto;
    try (now rewrite andb_false_r); try (now rewrite IH).
Qed.

Lemma square_row (n : nat) (S : list (list Z)) (r : nat) :
  square n S -> (r < n)%nat -> length (nth r S []) = n.
Proof.
  intros [Hl Hf] Hr. rewrite Forall_forall in Hf. apply Hf.
  apply nth_In. lia.
Qed.

Lemma incr_square (n r c : nat) (S : list (list Z)) :
  square n S -> square n (incr r c S).
Proof.
  intros [Hl Hf]. unfold incr. split; [now rewrite set_at_length|].
  apply Forall_forall. intros row Hrow.
  apply In_nth with (d := []) in Hrow. destruct Hrow as (k & Hk & <-).
  rewrite set_at_length in Hk. rewrite nth_set_at.
  rewrite Forall_forall in Hf.
  destruct ((r =? k)%nat && (r <? length S)%nat) eqn:E.
  - rewrite set_at_length. apply Hf, nth_In.
    apply andb_true_iff in E. destruct E as [_ E]. now apply Nat.ltb_lt in E.
  - apply Hf, nth_In. assumption.
Qed.

Lemma entry_incr (n r c i j : nat) (S : list (list Z)) :
  square n S ->
  entry (incr r c S) i j
  = (entry S i j
     + if (r <? n)%nat && (c <? n)%nat && (i =? r)%nat && (j =? c)%nat
       then 1 else 0)%Z.
Proof.
  intros HS. pose proof HS as [Hl Hf]. unfold entry, incr.
  rewrite nth_set_at, Hl.
  destruct (Nat.ltb_spec r n) as [Hr|Hr]; cbn [andb].
  - destruct (Nat.eqb_spec r i) as [->|Hri]; cbn [andb].
    + rewrite nth_set_at, (square_row HS Hr), Nat.eqb_refl.
      destruct (Nat.ltb_spec c n) as [Hc|Hc]; cbn [andb].
      * destruct (Nat.eqb_spec c j) as [->|Hcj].
        -- rewrite Nat.eqb_refl. reflexivity.
        -- rewrite (proj2 (Nat.eqb_neq j c)) by congruence. cbn [andb]. lia.
      * rewrite andb_false_r. lia.
    + rewrite (proj2 (Nat.eqb_neq i r)) by congruence.
      rewrite andb_false_r. cbn [andb]. lia.
  - rewrite andb_false_r. cbn [andb]. lia.
Qed.




Lemma nth_repeat_cases {B : Type} (x d : B) (n i : nat) :
  nth i (repeat x n) d = if (i <? n)%nat then x else d.
Proof.
  revert i. induction n as [|n IH]; intros [|i]; simpl; auto.
Qed.

Lemma zeros_symmetric (n : nat) :
  square n (repeat (repeat 0%Z n) n) /\ symmetric (repeat (repeat 0%Z n) n).
Proof.
  split; [split|].
  - apply repeat_length.
  - apply Forall_forall. intros r Hr. apply repeat_spec in Hr. subst.
    apply repeat_length.
  - intros i j. unfold entry. rewrite !nth_repeat_cases.
    destruct (i <? n)%nat, (j <? n)%nat; rewrite ?nth_repeat_cases;
      repeat match goal with
             | |- context [if ?c then _ else _] => destruct c
             end; try reflexivity; now destruct i, j.
Qed.

(** *** Trace *)

(** A pass appends a snapshot exactly when line 642 holds, and then it
    needs a free row of the trace. *)
Lemma checkpoint_appends (cfg : config) (r : Comp.result) (st st' : state) :
  checkpoint cfg r st = Some st' ->
  (save_due cfg (iter0 st) = true
   /\ (iter1 st < CL cfg)%Z
   /\ trace st' = trace st ++ [take_snapshot cfg r st]
   /\ iter1 st' = (iter1 st + 1)%Z)
  \/ (save_due cfg (iter0 st) = false /\ st' = st).
Proof.
  unfold checkpoint. intros Hs. destruct (save_due cfg (iter0 st)); [left|right].
  - cbv zeta in Hs.
    destruct (Z.leb_spec (CL cfg) (iter1 st + 1 - 1)) as [Hfull|Hfree];
      [discriminate|].
    inversion Hs; subst. cbn [trace iter1 with_counters].
    repeat split; lia.
  - inversion Hs. auto.
Qed.

(** The ceiling of [x/t]. *)
Lemma ceil_div (x t : Z) :
  (0 < t)%Z ->
  ((x + t - 1) / t = x / t + (if (x mod t =? 0)%Z then 0 else 1))%Z.
Proof.
  intros Ht. pose proof (Z.div_mod x t) as Hx.
  pose proof (Z.mod_pos_bound x t Ht) as Hr.
  symmetry. destruct (Z.eqb_spec (x mod t) 0) as [E|E].
  - apply Z.div_unique with (r := (t - 1)%Z); lia.
  - apply Z.div_unique with (r := (x mod t - 1)%Z); lia.
Qed.

(** The number of iterations below [k] at which a snapshot is due. *)
Lemma due_count (cfg : config) (k : nat) :
  (0 < thinning cfg)%Z -> (0 <= burnin cfg)%Z ->
  Z.of_nat (length (filter (save_due cfg) (map Z.of_nat (seq 0 k))))
  = (if (Z.of_nat k <=? burnin cfg)%Z then 0
     else (Z.of_nat k + thinning cfg - 1) / thinning cfg
          - (burnin cfg + thinning cfg - 1) / thinning cfg)%Z.
Proof.
  intros Ht Hb. induction k as [|k IH].
  - simpl. destruct (Z.leb_spec 0 (burnin cfg)); lia.
  - rewrite seq_S, map_app, filter_app, length_app, Nat2Z.inj_add, IH.
    cbn [map filter Nat.add]. unfold save_due at 1.
    rewrite !ceil_div by lia.
    replace (Z.of_nat (S k)) with (Z.of_nat k + 1)%Z by lia.
    pose proof (Z.div_mod (Z.of_nat k) (thinning cfg)) as Hk.
    pose proof (Z.mod_pos_bound (Z.of_nat k) (thinning cfg) Ht) as Hkr.
    pose proof (Z.div_mod (Z.of_nat k + 1) (thinning cfg)) as Hk1.
    pose proof (Z.mod_pos_bound (Z.of_nat k + 1) (thinning cfg) Ht) as Hk1r.
    assert (Hstep : ((Z.of_nat k + 1) / thinning cfg
                     + (if ((Z.of_nat k + 1) mod thinning cfg =? 0)%Z then 0 else 1)
                     = Z.of_nat k / thinning cfg + 1)%Z).
    { rewrite <- ceil_div by lia.
      replace (Z.of_nat k + 1 + thinning cfg - 1)%Z
        with (Z.of_nat k + 1 * thinning cfg)%Z by lia.
      rewrite Z.div_add by lia. reflexivity. }
    destruct (Z.leb_spec (Z.of_nat k) (burnin cfg)) as [Hle|Hgt];
      destruct (Z.leb_spec (Z.of_nat k + 1) (burnin cfg)) as [Hle1|Hgt1];
      destruct (Z.leb_spec (burnin cfg) (Z.of_nat k)) as [Hbk|Hbk];
      try lia.
    + rewrite andb_false_r. cbn [length]. lia.
    + assert (Hkb : burnin cfg = Z.of_nat k) by lia. rewrite Hkb.
      destruct (Z.eqb_spec (Z.of_nat k mod thinning cfg) 0) as [E|E];
        cbn [andb length]; lia.
    + destruct (Z.eqb_spec (Z.of_nat k mod thinning cfg) 0) as [E|E];
        cbn [andb length]; lia.
Qed.

(** The snapshots due over the run are as many as the allocated rows, or
    one more. *)
Theorem due_iterations_count (cfg : config) :
  valid_config cfg = true ->
  Z.of_nat (length (due_iterations cfg)) = CL cfg
  \/ Z.of_nat (length (due_iterations cfg)) = (CL cfg + 1)%Z.
Proof.
  unfold valid_config. rewrite !andb_true_iff, !negb_true_iff, !Z.leb_gt.
  intros ((((((((((_ & Hm) & Hb) & Ht) & Hmb) & _) & _) & _) & _) & _) & _).
  unfold due_iterations. rewrite due_count by lia.
  rewrite Z2Nat.id by lia.
  destruct (Z.leb_spec (maxiter cfg) (burnin cfg)) as [H|_]; [lia|].
  unfold CL. destruct (Z.eqb_spec (thinning cfg) 0) as [E|_]; [lia|].
  rewrite !ceil_div by lia.
  set (t := thinning cfg) in *. set (M := maxiter cfg) in *.
  set (b := burnin cfg) in *.
  pose proof (Z.div_mod M t) as HM. pose proof (Z.mod_pos_bound M t Ht) as HMr.
  pose proof (Z.div_mod b t) as Hb'. pose proof (Z.mod_pos_bound b t Ht) as Hbr.
  destruct (Z_lt_le_dec (M mod t) (b mod t)) as [Hlt|Hge].
  - assert (HCL : ((M - b) / t = M / t - b / t - 1)%Z).
    { symmetry. apply Z.div_unique with (r := (M mod t - b mod t + t)%Z); lia. }
    rewrite HCL.
    destruct (Z.eqb_spec (M mod t) 0), (Z.eqb_spec (b mod t) 0); lia.
  - assert (HCL : ((M - b) / t = M / t - b / t)%Z).
    { symmetry. apply Z.div_unique with (r := (M mod t - b mod t)%Z); lia. }
    rewrite HCL.
    destruct (Z.eqb_spec (M mod t) 0), (Z.eqb_spec (b mod t) 0); lia.
Qed.

(** C3 (number of snapshots): [maxiter = 3], [burnin = 2], [thinning = 2]
    pass the validation and allocate [CL = 0] rows, but a snapshot is due
    at iteration 2: the first two iterations run, and the third raises on
    the row of index 0. *)
Theorem snapshots_exceed_trace_length :
  valid_config cfg_trace = true
  /\ CL cfg_trace = 0%Z
  /\ due_iterations cfg_trace = [2%Z]
  /\ counters (run_upto cfg_trace months frame gamma_start (fun _ => calm) 2)
     = Some (2%Z, 0%Z, 0%nat)
  /\ run cfg_trace months frame gamma_start (fun _ => calm) = None.
Proof. repeat split; vm_compute; reflexivity. Qed.

(** *** Partitions *)

(** C7 (partition after the acceleration step): when the two clusters are
    redrawn as the columns (1, 5, 0, ...) and (2, 5, 0, ...), the first
    row of [gamma] has two distinct values, and the partition saved in
    the trace has one cluster: it is read from the row of index 1. *)
Theorem later_partition_reads_second_row :
  option_map (fun st => (firstn 2 (gamma st), map s_m (trace st), map s_gn (trace st)))
             (run cfg_rows months frame gamma_start (fun _ => apart))
  = Some ([[1; 2]; [5; 5]], [1%nat], [[0%Z; 0%Z]])
  /\ option_map (fun r => (Comp.rstar r, Comp.gn r)) (Comp.comp Qeq_bool [1; 2])
     = Some (2%nat, [0%Z; 1%Z])
  /\ option_map (fun r => (Comp.rstar r, Comp.gn r)) (Comp.comp Qeq_bool [5; 5])
     = Some (1%nat, [0%Z; 0%Z]).
Proof. repeat split; vm_compute; reflexivity. Qed.

(** *** Metropolis-Hastings step on [a] *)

(** C5 (acceptance test of the [a] step): with [a = 3/4], [b = 0], the
    proposal [1/2], the log-acceptance ratio [quot1 = log 2] and the
    uniform 1/2, the test [np.log(unif3) <= min(quot1, 0)] holds, but the
    test of the code does not: the step keeps [a] and counts no
    acceptance. *)
Theorem a_step_uses_equality :
  let st := init_state cfg_a_high 2 1 13 gamma_start in
  proposal_a below_ratio st == 1 # 2
  /\ lv_le (logunif3 below_ratio) (lv_min0 (quot1 below_ratio)) = true
  /\ lv_eq (logunif3 below_ratio) (lv_min0 (quot1 below_ratio)) = false
  /\ a_step cfg_a_high below_ratio st = st
  /\ option_map (fun s => (a s, ara s))
                (run cfg_a_high months frame gamma_start (fun _ => below_ratio))
     = Some (3 # 4, 0%Z).
Proof. repeat split; vm_compute; reflexivity. Qed.

(** Away from [a + b <= 0], the [a] step replaces [a] exactly when the
    two logarithms are equal. *)
Lemma a_step_test (cfg : config) (dr : draws) (st : state) :
  priora cfg = true -> Qle_bool (a st + b st) 0 = false ->
  a_step cfg dr st
  = if lv_eq (logunif3 dr) (lv_min0 (quot1 dr))
    then with_a (proposal_a dr st) (ara st + 1) st
    else st.
Proof. intros Hp Hab. unfold a_step. now rewrite Hp, Hab. Qed.

(** *** Hyperparameter invariants *)

Lemma Qltb_lt (x y : Q) : Qltb x y = true <-> x < y.
Proof.
  unfold Qltb. rewrite negb_true_iff. split.
  - intros H. apply Qnot_le_lt. intros Hle.
    apply Qle_bool_iff in Hle. congruence.
  - intros H. destruct (Qle_bool y x) eqn:E; [|reflexivity].
    apply Qle_bool_iff in E. lra.
Qed.

Lemma Qle_bool_false (x y : Q) : Qle_bool x y = false <-> y < x.
Proof.
  split.
  - intros H. apply Qnot_le_lt. intros Hle.
    apply Qle_bool_iff in Hle. congruence.
  - intros H. destruct (Qle_bool x y) eqn:E; [|reflexivity].
    apply Qle_bool_iff in E. lra.
Qed.

Lemma draws_ok_bounds (dr : draws) :
  draws_ok dr = true ->
  0 <= u_rho dr /\ u_rho dr < 1 /\ 0 <= unif2 dr /\ unif2 dr < 1
  /\ 0 <= u_amh dr /\ u_amh dr < 1 /\ 0 <= g_b dr.
Proof.
  unfold draws_ok. rewrite !andb_true_iff, !Qltb_lt, !Qle_bool_iff. tauto.
Qed.

Lemma valid_config_start (cfg : config) :
  valid_config cfg = true -> 0 <= a0 cfg /\ a0 cfg < 1 /\ - a0 cfg < b0 cfg.
Proof.
  unfold valid_config. rewrite !andb_true_iff, !negb_true_iff, !orb_false_iff.
  intros (((_ & (Ha0 & Ha1)) & _) & Hb).
  apply negb_false_iff, Qltb_lt in Ha0 || idtac.
  rewrite Qle_bool_false in Ha1, Hb.
  unfold Qltb in Ha0. rewrite negb_false_iff, Qle_bool_iff in Ha0. lra.
Qed.

Lemma strict_invariant_weak (st : state) : strict_invariant st -> invariant st.
Proof. unfold strict_invariant, invariant. intros; lra. Qed.

Lemma init_strict (cfg : config) (n p d : nat) (gamma0 : matrix) :
  valid_config cfg = true -> strict_invariant (init_state cfg n p d gamma0).
Proof.
  intros H. apply valid_config_start in H.
  unfold strict_invariant, init_state. cbn [a b rho]. lra.
Qed.

(** A loop of fallible steps keeps what each step keeps. *)
Lemma fold_bind_none {B : Type} (f : state -> B -> option state) (l : list B) :
  fold_left (fun acc i => s <- acc ;; f s i) l None = None.
Proof. induction l as [|x l IH]; simpl; auto. Qed.

Lemma fold_bind_keeps {B : Type} (f : state -> B -> option state)
      (P : state -> Prop) :
  (forall s i s', f s i = Some s' -> P s -> P s') ->
  forall l st st',
    fold_left (fun acc i => s <- acc ;; f s i) l (Some st) = Some st' ->
    P st -> P st'.
Proof.
  intros Hf l. induction l as [|x l IH]; simpl; intros st st' H HP.
  - now inversion H; subst.
  - destruct (f st x) as [s1|] eqn:E.
    + eapply IH; eauto.
    + rewrite fold_bind_none in H. discriminate.
Qed.

Lemma update_series_keeps (cfg : config) (dr : draws) (st st' : state) (i : nat) :
  update_series cfg dr st i = Some st' -> invariant st -> invariant st'.
Proof.
  unfold update_series, bind. intros H.
  repeat match type of H with
         | match ?x with _ => _ end = _ => destruct x; try discriminate
         end.
  inversion H; subst. auto.
Qed.

Lemma accel_cluster_keeps (cfg : config) (dr : draws) (r : Comp.result)
      (st st' : state) (j : nat) :
  accel_cluster cfg dr r st j = Some st' -> invariant st -> invariant st'.
Proof.
  unfold accel_cluster, bind. intros H.
  repeat match type of H with
         | match ?x with _ => _ end = _ => destruct x; try discriminate
         | (if ?x then _ else _) = _ => destruct x; try discriminate
         end; inversion H; subst; auto.
Qed.

Lemma rho_step_keeps (dr : draws) (st st' : state) :
  draws_ok dr = true -> rho_step dr st = Some st' ->
  invariant st -> invariant st'.
Proof.
  intros Hok H Hinv. apply draws_ok_bounds in Hok.
  unfold rho_step in H.
  destruct (Qeq_bool _ _) eqn:Heq; [discriminate|].
  apply Qeq_bool_neq in Heq.
  destruct (lv_le _ _); inversion H; subst; [|assumption].
  unfold invariant in *. cbn [a b rho with_rho]. lra.
Qed.

Lemma proposal_a_bounds (dr : draws) (st : state) :
  draws_ok dr = true -> invariant st ->
  0 <= proposal_a dr st /\ proposal_a dr st < 1
  /\ - proposal_a dr st <= b st.
Proof.
  intros Hok Hinv. apply draws_ok_bounds in Hok. unfold invariant in Hinv.
  unfold proposal_a.
  destruct (Qltb (b st) 0) eqn:Hb.
  - apply Qltb_lt in Hb.
    assert (0 <= (1 - - b st) * u_amh dr)
      by (apply Qmult_le_0_compat; lra).
    assert ((1 - - b st) * u_amh dr < (1 - - b st) * 1)
      by (apply Qmult_lt_l; lra).
    lra.
  - unfold Qltb in Hb. rewrite negb_false_iff, Qle_bool_iff in Hb.
    destruct (Qle_bool (unif2 dr) (1 # 2)); lra.
Qed.

Lemma a_step_keeps (cfg : config) (dr : draws) (st : state) :
  draws_ok dr = true -> invariant st -> invariant (a_step cfg dr st).
Proof.
  intros Hok Hinv. pose proof (@proposal_a_bounds dr st Hok Hinv) as Hp.
  unfold a_step.
  destruct (priora cfg); [|assumption].
  destruct (Qle_bool (a st + b st) 0);
    [|destruct (lv_eq _ _); [|assumption]];
    unfold invariant in *; cbn [a b rho with_a]; lra.
Qed.

Lemma b_step_keeps (cfg : config) (dr : draws) (st : state) :
  draws_ok dr = true -> invariant st -> invariant (b_step cfg dr st).
Proof.
  intros Hok Hinv. apply draws_ok_bounds in Hok.
  unfold b_step.
  destruct (priorb cfg); [|assumption].
  destruct (Qle_bool (a st + b st) 0);
    [|destruct (lv_le _ _); [|assumption]];
    unfold invariant in *; cbn [a b rho with_b]; lra.
Qed.

(** X23 (the [b] step): the step leaves the state unchanged, or it
    replaces [b] by a proposal with [a + b >= 1], the proposal
    [y1 - a] being drawn with [y1 >= 1]. *)
Lemma b_step_strict (cfg : config) (dr : draws) (st : state) :
  draws_ok dr = true ->
  b_step cfg dr st = st
  \/ 1 <= a (b_step cfg dr st) + b (b_step cfg dr st).
Proof.
  intros Hok. apply draws_ok_bounds in Hok. unfold b_step.
  destruct (priorb cfg); [|now left].
  destruct (Qle_bool (a st + b st) 0);
    [|destruct (lv_le _ _); [|now left]];
    right; cbn [a b with_b]; lra.
Qed.

Lemma checkpoint_keeps (cfg : config) (r : Comp.result) (st st' : state) :
  checkpoint cfg r st = Some st' -> invariant st -> invariant st'.
Proof.
  unfold checkpoint. intros H.
  repeat match type of H with
         | (if ?x then _ else _) = _ => destruct x; try discriminate
         end; inversion H; subst; auto.
Qed.

Lemma lpml_keeps (cfg : config) (n : nat) (st st' : state) :
  lpml cfg n st = Some st' -> invariant st -> invariant st'.
Proof.
  unfold lpml. intros H.
  repeat match type of H with
         | (if ?x then _ else _) = _ => destruct x; try discriminate
         end; inversion H; subst; auto.
Qed.

Lemma reachable_keeps (cfg : config) (n : nat) (st : state) :
  reachable cfg n st -> invariant st.
Proof.
  induction 1 as [p d g0 Hv | dr st st' _ IH H | dr st st' _ IH H
                  | dr st _ IH | dr st st' Hok _ IH H | dr st Hok _ IH
                  | dr st Hok _ IH | r st st' _ IH H | st st' _ IH H
                  | st _ IH].
  - apply strict_invariant_weak, init_strict, Hv.
  - unfold membership in H.
    eapply (fold_bind_keeps (update_series cfg dr)); eauto.
    intros; eapply update_series_keeps; eauto.
  - unfold acceleration, bind in H.
    destruct (nth_error (gamma st) 0); [|discriminate].
    destruct (Comp.comp Qeq_bool l) as [r|]; [|discriminate].
    eapply (fold_bind_keeps (accel_cluster cfg dr r)); eauto.
    intros; eapply accel_cluster_keeps; eauto.
  - exact IH.
  - eapply rho_step_keeps; eauto.
  - now apply a_step_keeps.
  - now apply b_step_keeps.
  - eapply checkpoint_keeps; eauto.
  - eapply lpml_keeps; eauto.
  - exact IH.
Qed.

Lemma iteration_reachable (cfg : config) (n : nat) (dr : draws) (st st' : state) :
  draws_ok dr = true -> reachable cfg n st ->
  iteration cfg n dr st = Some st' -> reachable cfg n st'.
Proof.
  intros Hok Hr H. unfold iteration, bind in H.
  destruct (membership cfg dr n st) as [st1|] eqn:H1; [|discriminate].
  destruct (acceleration cfg dr st1) as [st2|] eqn:H2; [|discriminate].
  destruct (later_partition st2) as [r|]; [|discriminate].
  destruct (rho_step dr (variances cfg dr st2)) as [st3|] eqn:H3; [|discriminate].
  destruct (checkpoint cfg r _) as [st5|] eqn:H5; [|discriminate].
  destruct (lpml cfg n st5) as [st6|] eqn:H6; [|discriminate].
  inversion H; subst. apply reach_count.
  eapply reach_lpml; [|exact H6].
  eapply reach_checkpoint; [|exact H5].
  apply reach_b; [assumption|]. apply reach_a; [assumption|].
  apply reach_rho with (dr := dr) (st := variances cfg dr st2);
    [assumption| |exact H3].
  apply reach_variances.
  eapply reach_acceleration; [|exact H2].
  eapply reach_membership; [|exact H1]. assumption.
Qed.

Lemma passes_reachable (cfg : config) (n : nat) (oracle : nat -> draws)
      (k : nat) (st st' : state) :
  (forall it, draws_ok (oracle it) = true) -> reachable cfg n st ->
  passes cfg n oracle k st = Some st' -> reachable cfg n st'.
Proof.
  intros Hok. revert st. induction k as [|k IH]; simpl; intros st Hr H.
  - now inversion H; subst.
  - destruct (iter0 st <? maxiter cfg)%Z; [|now inversion H; subst].
    unfold bind in H.
    destruct (iteration cfg n _ st) as [st1|] eqn:H1; [|discriminate].
    eapply IH; [|exact H]. eapply iteration_reachable; eauto.
Qed.

(** The states of [tseriescm] after any number of passes of the loop are
    states of a run, so they satisfy the invariant. *)
Theorem run_upto_invariant {L : Type} (cfg : config) (index : list L)
        (columns : list (list Q)) (gamma0 : matrix) (oracle : nat -> draws)
        (k : nat) (st : state) :
  (forall it, draws_ok (oracle it) = true) ->
  run_upto cfg index columns gamma0 oracle k = Some st ->
  reachable cfg (length columns) st /\ invariant st.
Proof.
  intros Hok H. unfold run_upto, bind in H.
  destruct (valid_config cfg) eqn:Hv; [|discriminate].
  destruct (Scale.scaleandperiods index columns); [|discriminate].
  destruct (Design.designmatrices _ _ _ _ _) as [dm|]; [|discriminate].
  assert (Hr : reachable cfg (length columns) st).
  { eapply passes_reachable; [exact Hok| |exact H]. now apply reach_init. }
  split; [assumption|]. eapply reachable_keeps; eauto.
Qed.

(** *** Similarity matrix along a run *)







End SamplerFacts.

(** ** The checks of the arguments *)

Module ValidationFacts.
Import Sampler Validation.

(** The sampling starts exactly when no check raises. *)
Lemma first_rejection_none (cfg : config) :
  first_rejection cfg = None <-> valid_config cfg = true.
Proof.
  unfold first_rejection, valid_config.
  destruct (deg cfg <=? 0)%Z; cbn [negb andb]; [split; discriminate|].
  destruct (maxiter cfg <=? 0)%Z; cbn [negb andb]; [split; discriminate|].
  destruct (burnin cfg <=? 0)%Z; cbn [negb andb]; [split; discriminate|].
  destruct (thinning cfg <=? 0)%Z; cbn [negb andb]; [split; discriminate|].
  destruct (maxiter cfg <=? burnin cfg)%Z; cbn [negb andb]; [split; discriminate|].
  destruct (_ || _ || _ || _ || _ || _); cbn [negb andb]; [split; discriminate|].
  destruct (Qle_bool (pia cfg) 0 || _); cbn [negb andb]; [split; discriminate|].
  destruct (Qle_bool (q0a cfg) 0 || _); cbn [negb andb]; [split; discriminate|].
  destruct (Qltb (a0 cfg) 0 || _); cbn [negb andb]; [split; discriminate|].
  destruct (Qle_bool (q0b cfg) 0 || _); cbn [negb andb]; [split; discriminate|].
  destruct (Qle_bool (b0 cfg) _); cbn [negb]; split; congruence.
Qed.

(** X1 (burn-in left out): with a positive degree and a positive
    [maxiter], the call without [burnin] is refused with the message
    about the burn-in exactly when [maxiter < 10], since the default
    burn-in is then 0; it is never refused for a chain not longer than
    its burn-in. *)
Theorem default_burnin_needs_ten_iterations (cfg : config) :
  (0 < deg cfg)%Z -> (0 < maxiter cfg)%Z ->
  (first_rejection (with_burnin None cfg) = Some BadBurnin
   <-> (maxiter cfg < 10)%Z)
  /\ first_rejection (with_burnin None cfg) <> Some ChainTooShort.
Proof.
  intros Hd Hm. unfold first_rejection, with_burnin, default_burnin.
  cbn [deg maxiter burnin thinning].
  destruct (Z.leb_spec (deg cfg) 0) as [H|_]; [lia|].
  destruct (Z.leb_spec (maxiter cfg) 0) as [H|_]; [lia|].
  assert (Hdiv : (maxiter cfg / 10 <= 0 <-> maxiter cfg < 10)%Z).
  { split; intros H.
    - destruct (Z_lt_le_dec (maxiter cfg) 10) as [|Hge]; [assumption|].
      pose proof (Z.div_le_lower_bound (maxiter cfg) 10 1). lia.
    - rewrite Z.div_small by lia. lia. }
  assert (Hlt : (maxiter cfg / 10 < maxiter cfg)%Z)
    by (apply Z.div_lt; lia).
  destruct (Z.leb_spec (maxiter cfg / 10) 0) as [H0|H0].
  - split; [|discriminate]. split; [intros _; now apply Hdiv|reflexivity].
  - assert (Hge : ~ (maxiter cfg < 10)%Z) by (intros H; apply Hdiv in H; lia).
    destruct (thinning cfg <=? 0)%Z;
      [split; [split; [discriminate|intros; contradiction]|discriminate]|].
    destruct (Z.leb_spec (maxiter cfg) (maxiter cfg / 10)) as [H1|_]; [lia|].
    repeat match goal with
           | |- context [if ?c then _ else _] => destruct c
           end;
      (split; [split; [discriminate|intros; contradiction]|discriminate]).
Qed.

Lemma default_burnin_needs_ten_iterations_witness :
  (first_rejection (with_burnin None Scenario.cfg_sim) = Some BadBurnin
   <-> (maxiter Scenario.cfg_sim < 10)%Z)
  /\ first_rejection (with_burnin None Scenario.cfg_sim) <> Some ChainTooShort.
Proof.
  apply (@default_burnin_needs_ten_iterations Scenario.cfg_sim); reflexivity.
Defined.

End ValidationFacts.

(** ** The draws of the variances and the correlation matrix *)

Module PosteriorFacts.
Import Posterior.

Lemma concat_draws_length (m : nat) (rvs : nat -> list Q) (l : list nat)
      (acc : list Q) :
  (forall k, length (rvs k) = m) ->
  length (fold_left (fun acc v => acc ++ rvs v) l acc)
  = (length acc + length l * m)%nat.
Proof.
  intros Hm. revert acc. induction l as [|v l IH]; intros acc; simpl.
  - lia.
  - rewrite IH, length_app, Hm. lia.
Qed.

(** X2 (length of [sig2beta]): whichever of the three branches of lines
    500-509 is taken, the redrawn [sig2beta] has [d] entries, provided
    there is at least one cluster and every call of [invgamma.rvs]
    returns one value per cluster. *)
Theorem sig2beta_draw_length (d m : nat) (rvs : nat -> list Q) :
  (1 <= m)%nat -> (forall k, length (rvs k) = m) ->
  length (sig2beta_draw d m rvs) = d.
Proof.
  intros Hm Hrvs. unfold sig2beta_draw. cbv zeta.
  destruct (Z.ltb_spec (Z.of_nat d - Z.of_nat m) 0) as [Hlt|Hge].
  - rewrite length_map, length_firstn, Hrvs. lia.
  - destruct (Z.leb_spec (2 * (Z.of_nat d - Z.of_nat m)) (Z.of_nat m))
      as [Hhalf|Hmore].
    + rewrite length_map, length_app, length_firstn, !Hrvs. lia.
    + rewrite length_map, length_app, length_firstn, Hrvs.
      rewrite (concat_draws_length _ _ _ Hrvs), length_seq. simpl length.
      pose proof (Nat.div_mod_eq d m) as Hdm.
      pose proof (Nat.mod_upper_bound d m). lia.
Qed.

Lemma sig2beta_draw_length_witness :
  length (sig2beta_draw 13 2 (fun k => [Sampler.Qnat k + 1; 2])) = 13%nat.
Proof.
  apply (@sig2beta_draw_length 13 2 (fun k => [Sampler.Qnat k + 1; 2]));
    [lia | reflexivity].
Defined.

Lemma s1_step_nonneg (s1 form : Q) :
  0 <= (let s := s1 + form in if Sampler.Qltb s 0 then s * -(1) else s).
Proof.
  cbv zeta. destruct (Sampler.Qltb (s1 + form) 0) eqn:E.
  - unfold Sampler.Qltb in E. rewrite negb_true_iff in E.
    destruct (Qlt_le_dec (s1 + form) 0) as [H|H]; [lra|].
    apply Qle_bool_iff in H. congruence.
  - unfold Sampler.Qltb in E. rewrite negb_false_iff in E.
    now apply Qle_bool_iff in E.
Qed.

Lemma s1_loop_from (forms : list Q) (acc : Q) :
  0 <= acc ->
  0 <= fold_left
         (fun s1 form =>
            let s := s1 + form in
            if Sampler.Qltb s 0 then s * -(1) else s)
         forms acc.
Proof.
  revert acc. induction forms as [|f forms IH]; intros acc Hacc; simpl.
  - assumption.
  - apply IH. apply s1_step_nonneg.
Qed.

Lemma s1_loop_sum_from (forms : list Q) (acc : Q) :
  0 <= acc -> Forall (fun f => 0 <= f) forms ->
  fold_left
    (fun s1 form =>
       let s := s1 + form in
       if Sampler.Qltb s 0 then s * -(1) else s)
    forms acc == acc + HM.Qsum forms.
Proof.
  intros Hacc H. revert acc Hacc.
  induction H as [|f forms Hf Hforms IH]; intros acc Hacc;
    cbn [fold_left HM.Qsum].
  - lra.
  - destruct (Sampler.Qltb (acc + f) 0) eqn:E.
    + unfold Sampler.Qltb in E. rewrite negb_true_iff in E.
      assert (Hle : 0 <= acc + f) by lra.
      apply Qle_bool_iff in Hle. congruence.
    + rewrite IH by lra. lra.
Qed.

(** X3 (scale of the draw of [sig2the]): after the loop of lines 520-523
    the sum [s1] is never negative, whatever the signs of the quadratic
    forms; when no quadratic form is negative it is their sum. *)
Theorem s1_loop_nonneg (forms : list Q) :
  0 <= s1_loop forms
  /\ (Forall (fun f => 0 <= f) forms -> s1_loop forms == HM.Qsum forms).
Proof.
  split.
  - apply s1_loop_from. lra.
  - intros H. unfold s1_loop. rewrite s1_loop_sum_from by (assumption || lra).
    lra.
Qed.

Lemma P_matrix_shape (rho : Q) (T : nat) :
  length (P_matrix rho T) = T
  /\ Forall (fun row => length row = T) (P_matrix rho T).
Proof.
  unfold P_matrix. split.
  - now rewrite length_map, length_seq.
  - apply Forall_forall. intros row Hrow. apply in_map_iff in Hrow.
    destruct Hrow as (j & <- & _). now rewrite length_map, length_seq.
Qed.

Lemma P_matrix_entry (rho : Q) (T j k : nat) :
  (j < T)%nat -> (k < T)%nat ->
  nth k (nth j (P_matrix rho T) []) 0
  = Qpower rho (Z.abs (Z.of_nat (1 + j) - Z.of_nat (1 + k))).
Proof.
  intros Hj Hk. unfold P_matrix.
  rewrite (nth_indep _ [] (map (fun k0 => Qpower rho (Z.abs (Z.of_nat 0 - Z.of_nat k0))) (seq 1 T)))
    by now rewrite length_map, length_seq.
  rewrite (map_nth (fun j0 => map (fun k0 => Qpower rho (Z.abs (Z.of_nat j0 - Z.of_nat k0))) (seq 1 T))).
  rewrite seq_nth by assumption.
  rewrite (nth_indep _ 0 (Qpower rho (Z.abs (Z.of_nat (1 + j) - Z.of_nat 0))))
    by now rewrite length_map, length_seq.
  rewrite (map_nth (fun k0 => Qpower rho (Z.abs (Z.of_nat (1 + j) - Z.of_nat k0)))).
  now rewrite seq_nth by assumption.
Qed.

Lemma eye_entry (T j k : nat) :
  (j < T)%nat -> (k < T)%nat ->
  nth k (nth j (eye T) []) 0 = if Nat.eqb j k then 1 else 0.
Proof.
  intros Hj Hk. unfold eye.
  rewrite (nth_indep _ [] (map (fun j0 => if Nat.eqb 0 j0 then 1 else 0) (seq 0 T)))
    by now rewrite length_map, length_seq.
  rewrite (map_nth (fun i => map (fun j0 => if Nat.eqb i j0 then 1 else 0) (seq 0 T))).
  rewrite seq_nth by assumption.
  rewrite (nth_indep _ 0 (if Nat.eqb (0 + j) 0 then 1 else 0))
    by now rewrite length_map, length_seq.
  rewrite (map_nth (fun j0 => if Nat.eqb (0 + j) j0 then 1 else 0)).
  now rewrite seq_nth by assumption.
Qed.

Lemma Qpower_positive_zero (e : positive) : Qpower_positive 0 e == 0.
Proof.
  unfold Qpower_positive.
  induction e as [e IH|e IH|]; cbn [pow_pos].
  - apply Qmult_0_l.
  - rewrite IH. apply Qmult_0_l.
  - reflexivity.
Qed.

(** X4 (the matrix [P]): for every [rho] the matrix filled at lines
    143-145 and 557-559 is [T] by [T], symmetric, with ones on the
    diagonal; for the initial value [rho = 0] it is the identity. *)
Theorem P_matrix_symmetric_unit_diagonal (rho : Q) (T : nat) :
  length (P_matrix rho T) = T
  /\ Forall (fun row => length row = T) (P_matrix rho T)
  /\ (forall j k, (j < T)%nat -> (k < T)%nat ->
        nth k (nth j (P_matrix rho T) []) 0
        = nth j (nth k (P_matrix rho T) []) 0)
  /\ (forall j, (j < T)%nat -> nth j (nth j (P_matrix rho T) []) 0 = 1)
  /\ (forall j k, (j < T)%nat -> (k < T)%nat ->
        nth k (nth j (P_matrix 0 T) []) 0 == nth k (nth j (eye T) []) 0).
Proof.
  split; [apply P_matrix_shape|]. split; [apply P_matrix_shape|].
  split; [|split].
  - intros j k Hj Hk. rewrite !P_matrix_entry by assumption.
    f_equal. lia.
  - intros j Hj. rewrite P_matrix_entry by assumption.
    now rewrite Z.sub_diag.
  - intros j k Hj Hk. rewrite P_matrix_entry, eye_entry by assumption.
    destruct (Nat.eqb_spec j k) as [->|Hjk].
    + rewrite Z.sub_diag. reflexivity.
    + destruct (Z.abs (Z.of_nat (1 + j) - Z.of_nat (1 + k))) as [|e|e] eqn:E;
        [lia| |lia].
      cbn [Qpower]. apply Qpower_positive_zero.
Qed.

End PosteriorFacts.

(** ** The counters of the loop *)

Module RunFacts.
Import Sampler Summary.

Lemma update_series_book (cfg : config) (dr : draws) (st st' : state) (i : nat) :
  update_series cfg dr st i = Some st' -> bookkeeping st' = bookkeeping st.
Proof.
  unfold update_series, bind. intros H.
  repeat match type of H with
         | match ?x with _ => _ end = _ => destruct x; try discriminate
         end.
  inversion H; subst. reflexivity.
Qed.

Lemma accel_cluster_book (cfg : config) (dr : draws) (r : Comp.result)
      (st st' : state) (j : nat) :
  accel_cluster cfg dr r st j = Some st' -> bookkeeping st' = bookkeeping st.
Proof.
  unfold accel_cluster, bind. intros H.
  repeat match type of H with
         | match ?x with _ => _ end = _ => destruct x; try discriminate
         | (if ?x then _ else _) = _ => destruct x; try discriminate
         end; inversion H; subst; reflexivity.
Qed.

Lemma membership_book (cfg : config) (dr : draws) (n : nat) (st st' : state) :
  membership cfg dr n st = Some st' -> bookkeeping st' = bookkeeping st.
Proof.
  unfold membership. intros H.
  apply (@SamplerFacts.fold_bind_keeps _ (update_series cfg dr)
           (fun s => bookkeeping s = bookkeeping st) ) with (l := seq 0 n) (st := st);
    [|assumption|reflexivity].
  intros s i s' Hs Hb. rewrite <- Hb. eapply update_series_book; eauto.
Qed.

Lemma acceleration_book (cfg : config) (dr : draws) (st st' : state) :
  acceleration cfg dr st = Some st' -> bookkeeping st' = bookkeeping st.
Proof.
  unfold acceleration, bind. intros H.
  destruct (nth_error (gamma st) 0); [|discriminate].
  destruct (Comp.comp Qeq_bool l) as [r|]; [|discriminate].
  apply (@SamplerFacts.fold_bind_keeps _ (accel_cluster cfg dr r)
           (fun s => bookkeeping s = bookkeeping st))
    with (l := seq 0 (Comp.rstar r)) (st := st);
    [|assumption|reflexivity].
  intros s i s' Hs Hb. rewrite <- Hb. eapply accel_cluster_book; eauto.
Qed.

Lemma due_before_succ (cfg : config) (it : Z) :
  (0 <= it)%Z ->
  due_before cfg (it + 1)
  = (due_before cfg it + if save_due cfg it then 1 else 0)%Z.
Proof.
  intros Hit. unfold due_before.
  replace (Z.to_nat (it + 1)) with (S (Z.to_nat it)) by lia.
  rewrite seq_S, map_app, filter_app, length_app. cbn [map filter Nat.add].
  rewrite Z2Nat.id by lia. destruct (save_due cfg it); cbn [length]; lia.
Qed.

Lemma lpml_due_before_succ (cfg : config) (it : Z) :
  (0 <= it)%Z ->
  lpml_due_before cfg (it + 1)
  = (lpml_due_before cfg it + if lpml_due cfg it then 1 else 0)%Z.
Proof.
  intros Hit. unfold lpml_due_before.
  replace (Z.to_nat (it + 1)) with (S (Z.to_nat it)) by lia.
  rewrite seq_S, map_app, filter_app, length_app. cbn [map filter Nat.add].
  rewrite Z2Nat.id by lia. destruct (lpml_due cfg it); cbn [length]; lia.
Qed.

(** One pass of the loop keeps the counters in step with the iterations. *)
Lemma iteration_counted (cfg : config) (n : nat) (dr : draws) (st st' : state) :
  iteration cfg n dr st = Some st' ->
  counted cfg n st ->
  counted cfg n st' /\ iter0 st' = (iter0 st + 1)%Z.
Proof.
  intros H Hc. unfold iteration, bind in H.
  destruct (membership cfg dr n st) as [st1|] eqn:H1; [|discriminate].
  destruct (acceleration cfg dr st1) as [st2|] eqn:H2; [|discriminate].
  destruct (later_partition st2) as [r|]; [|discriminate].
  destruct (rho_step dr (variances cfg dr st2)) as [st3|] eqn:H3; [|discriminate].
  destruct (checkpoint cfg r _) as [st5|] eqn:H5; [|discriminate].
  destruct (lpml cfg n st5) as [st6|] eqn:H6; [|discriminate].
  inversion H; subst st'. clear H.
  apply membership_book in H1. apply acceleration_book in H2.
  assert (B2 : bookkeeping st2 = bookkeeping st) by congruence.
  clear H1 H2 st1.
  assert (B3 : iter0 st3 = iter0 st /\ iter1 st3 = iter1 st
               /\ iter2 st3 = iter2 st /\ trace st3 = trace st
               /\ (arrho st <= arrho st3 <= arrho st + 1)%Z
               /\ ara st3 = ara st /\ arb st3 = arb st).
  { unfold bookkeeping in B2. inversion B2 as [[E0 E1 E2 E3 E4 E5 E6]].
    unfold rho_step in H3.
    destruct (Qeq_bool _ _); [discriminate|].
    destruct (lv_le _ _); inversion H3; subst st3;
      cbn [iter0 iter1 iter2 trace arrho ara arb with_rho variances
           with_variances]; repeat split; try congruence; lia. }
  clear B2 H3 st2.
  set (st4 := b_step cfg dr (a_step cfg dr st3)) in *.
  assert (B4 : iter0 st4 = iter0 st /\ iter1 st4 = iter1 st
               /\ iter2 st4 = iter2 st /\ trace st4 = trace st
               /\ (arrho st <= arrho st4 <= arrho st + 1)%Z
               /\ (ara st <= ara st4 <= ara st + 1)%Z
               /\ (arb st <= arb st4 <= arb st + 1)%Z).
  { destruct B3 as (E0 & E1 & E2 & E3 & E4 & E5 & E6).
    subst st4. unfold b_step, a_step.
    repeat match goal with
           | |- context [if ?c then _ else _] => destruct c
           end;
      cbn [iter0 iter1 iter2 trace arrho ara arb with_a with_b];
      repeat split; try congruence; lia. }
  clearbody st4. clear B3 st3.
  destruct B4 as (E0 & E1 & E2 & E3 & E4 & E5 & E6).
  destruct Hc as (C0 & C1 & C2 & C3 & C4 & C5 & C6 & C7 & C8).
  assert (B5 : iter0 st5 = iter0 st
               /\ iter1 st5 = (iter1 st + if save_due cfg (iter0 st) then 1 else 0)%Z
               /\ Z.of_nat (length (trace st5)) = iter1 st5
               /\ (iter1 st5 <= CL cfg)%Z
               /\ iter2 st5 = iter2 st
               /\ arrho st5 = arrho st4 /\ ara st5 = ara st4 /\ arb st5 = arb st4).
  { destruct (@SamplerFacts.checkpoint_appends _ _ _ _ H5)
      as [(Hd & Hfree & Ht & Hi)|(Hd & ->)]; rewrite E0 in Hd; rewrite Hd.
    - unfold checkpoint in H5. rewrite E0, Hd in H5. cbv zeta in H5.
      destruct (CL cfg <=? _)%Z; [discriminate|]. inversion H5; subst st5.
      cbn [iter0 iter1 iter2 trace arrho ara arb with_counters].
      rewrite length_app, E3. cbn [length].
      repeat split; try congruence; lia.
    - rewrite E3. repeat split; try congruence; lia. }
  clear H5.
  destruct B5 as (F0 & F1 & F2 & F3 & F4 & F5 & F6 & F7).
  assert (B6 : iter0 st6 = iter0 st /\ iter1 st6 = iter1 st5
               /\ trace st6 = trace st5
               /\ iter2 st6
                  = (iter2 st + if indlpml cfg && lpml_due cfg (iter0 st)
                                then 1 else 0)%Z
               /\ (indlpml cfg = true -> (0 < n)%nat ->
                   (iter2 st6 <= lpml_rows cfg)%Z)
               /\ arrho st6 = arrho st4 /\ ara st6 = ara st4 /\ arb st6 = arb st4).
  { unfold lpml in H6. rewrite F0 in H6. unfold lpml_due.
    destruct (indlpml cfg && _) eqn:Hl.
    - cbv zeta in H6.
      destruct ((0 <? n)%nat && (lpml_rows cfg <=? iter2 st5 + 1 - 1)%Z) eqn:Hfull;
        [discriminate|].
      inversion H6; subst st6.
      cbn [iter0 iter1 iter2 trace arrho ara arb with_counters].
      repeat split; try congruence; try lia.
      intros _ Hn. apply andb_false_iff in Hfull.
      destruct Hfull as [Hf|Hf].
      + apply Nat.ltb_ge in Hf. lia.
      + apply Z.leb_gt in Hf. lia.
    - inversion H6; subst st6.
      repeat split; try congruence; try lia.
      intros Hi Hn. rewrite F4. now apply C5. }
  clear H6.
  destruct B6 as (G0 & G1 & G2 & G3 & G4 & G5 & G6 & G7).
  cbn [iter0 iter1 iter2 trace arrho ara arb with_counters].
  split; [|lia]. unfold counted.
  cbn [iter0 iter1 iter2 trace arrho ara arb with_counters].
  rewrite G0, due_before_succ, lpml_due_before_succ by assumption.
  repeat split; try lia; try congruence.
  - destruct (indlpml cfg); cbn [andb] in G3; lia.
  - assumption.
Qed.

(** The passes of the loop keep the counters in step, and stop at
    [maxiter]. *)
Lemma passes_counted (cfg : config) (n : nat) (oracle : nat -> draws) (k : nat)
      (st st' : state) :
  passes cfg n oracle k st = Some st' ->
  counted cfg n st -> (iter0 st <= maxiter cfg)%Z ->
  counted cfg n st'
  /\ iter0 st' = Z.min (maxiter cfg) (iter0 st + Z.of_nat k).
Proof.
  revert st. induction k as [|k IH]; intros st H Hc Hle.
  - simpl in H. inversion H; subst. split; [assumption|lia].
  - cbn [passes] in H.
    destruct (Z.ltb_spec (iter0 st) (maxiter cfg)) as [Hlt|Hge].
    + unfold bind in H.
      destruct (iteration cfg n _ st) as [st1|] eqn:H1; [|discriminate].
      destruct (@iteration_counted _ _ _ _ _ H1 Hc) as [Hc1 Hi1].
      destruct (IH st1 H Hc1) as [Hc' Hi']; [lia|].
      split; [assumption|lia].
    + inversion H; subst. split; [assumption|lia].
Qed.

Lemma init_counted (cfg : config) (n p d : nat) (gamma0 : matrix) :
  valid_config cfg = true -> counted cfg n (init_state cfg n p d gamma0).
Proof.
  intros Hv. unfold valid_config in Hv.
  rewrite !andb_true_iff, !negb_true_iff, !Z.leb_gt in Hv.
  destruct Hv as ((((((((((_ & Hm) & Hb) & Ht) & Hmb) & _) & _) & _) & _) & _) & _).
  unfold counted, init_state, due_before, lpml_due_before, lpml_rows.
  cbn [iter0 iter1 iter2 trace arrho ara arb].
  assert (0 <= CL cfg)%Z.
  { unfold CL. destruct (thinning cfg =? 0)%Z; [lia|].
    apply Z.div_pos; lia. }
  assert (0 <= (maxiter cfg - burnin cfg) / 10)%Z by (apply Z.div_pos; lia).
  simpl. destruct (indlpml cfg); repeat split; try lia; intros; lia.
Qed.

(** A run that reaches the end of the loop has made [maxiter] passes with
    the counters in step. *)
Lemma run_counted {L : Type} (cfg : config) (index : list L)
      (columns : list (list Q)) (gamma0 : matrix) (oracle : nat -> draws)
      (st : state) :
  run cfg index columns gamma0 oracle = Some st ->
  valid_config cfg = true
  /\ counted cfg (length columns) st /\ iter0 st = maxiter cfg.
Proof.
  unfold run, run_upto, bind. intros H.
  destruct (valid_config cfg) eqn:Hv; [|discriminate].
  destruct (Scale.scaleandperiods index columns); [|discriminate].
  destruct (Design.designmatrices _ _ _ _ _) as [dm|]; [|discriminate].
  pose proof (@init_counted cfg (length columns) (Design.p dm) (Design.d dm)
                             gamma0 Hv) as Hc0.
  assert (Hm : (0 < maxiter cfg)%Z).
  { unfold valid_config in Hv.
    rewrite !andb_true_iff, !negb_true_iff, !Z.leb_gt in Hv. tauto. }
  destruct (@passes_counted _ _ _ _ _ _ H Hc0) as [Hc Hi].
  { cbn [init_state iter0]. lia. }
  split; [reflexivity|]. split; [assumption|].
  rewrite Hi. cbn [init_state iter0]. lia.
Qed.

Lemma unit_ratio (x y : Z) :
  (0 <= x <= y)%Z -> (0 < y)%Z ->
  0 <= inject_Z x / inject_Z y /\ inject_Z x / inject_Z y <= 1.
Proof.
  intros Hx Hy.
  assert (H0 : 0 < inject_Z y) by (change 0 with (inject_Z 0); now rewrite <- Zlt_Qlt).
  split.
  - apply Qle_shift_div_l; [assumption|]. rewrite Qmult_0_l.
    change 0 with (inject_Z 0). rewrite <- Zle_Qle. lia.
  - apply Qle_shift_div_r; [assumption|]. rewrite Qmult_1_l.
    rewrite <- Zle_Qle. lia.
Qed.

(** X5 (a run that completes): when the loop ends without an exception,
    it has made [maxiter] passes, the number of saved iterations is the
    number [CL] of allocated rows, every row of the trace is written, and
    the iterations at which a snapshot is due are [CL]; this needs
    [maxiter] to be a multiple of [thinning], or the remainder of
    [burnin] by [thinning] to be positive and at most that of
    [maxiter]. *)
Theorem completed_run_fills_trace {L : Type} (cfg : config) (index : list L)
        (columns : list (list Q)) (gamma0 : matrix) (oracle : nat -> draws)
        (st : state) :
  run cfg index columns gamma0 oracle = Some st ->
  iter0 st = maxiter cfg
  /\ iter1 st = CL cfg
  /\ Z.of_nat (length (trace st)) = CL cfg
  /\ Z.of_nat (length (due_iterations cfg)) = CL cfg
  /\ ((maxiter cfg mod thinning cfg = 0)%Z
      \/ (0 < burnin cfg mod thinning cfg <= maxiter cfg mod thinning cfg)%Z).
Proof.
  intros H. destruct (run_counted _ _ _ _ _ H) as (Hv & Hc & Hi).
  destruct Hc as (C0 & C1 & C2 & C3 & _).
  assert (Hdue : iter1 st = Z.of_nat (length (due_iterations cfg))).
  { rewrite C1, Hi. reflexivity. }
  assert (Hcount : Z.of_nat (length (due_iterations cfg)) = CL cfg).
  { destruct (SamplerFacts.due_iterations_count cfg Hv) as [E|E]; lia. }
  split; [assumption|]. split; [lia|]. split; [lia|]. split; [assumption|].
  revert Hcount. unfold valid_config in Hv.
  rewrite !andb_true_iff, !negb_true_iff, !Z.leb_gt in Hv.
  destruct Hv as ((((((((((_ & Hm) & Hb) & Ht) & Hmb) & _) & _) & _) & _) & _) & _).
  unfold due_iterations. rewrite SamplerFacts.due_count by lia.
  rewrite Z2Nat.id by lia.
  destruct (Z.leb_spec (maxiter cfg) (burnin cfg)) as [Hle|_]; [lia|].
  unfold CL. destruct (Z.eqb_spec (thinning cfg) 0) as [E|_]; [lia|].
  rewrite !SamplerFacts.ceil_div by lia.
  set (t := thinning cfg) in *. set (M := maxiter cfg) in *.
  set (b := burnin cfg) in *.
  pose proof (Z.div_mod M t) as HM. pose proof (Z.mod_pos_bound M t Ht) as HMr.
  pose proof (Z.div_mod b t) as Hb'. pose proof (Z.mod_pos_bound b t Ht) as Hbr.
  destruct (Z_lt_le_dec (M mod t) (b mod t)) as [Hlt|Hge].
  - assert (HCL : ((M - b) / t = M / t - b / t - 1)%Z).
    { symmetry. apply Z.div_unique with (r := (M mod t - b mod t + t)%Z); lia. }
    rewrite HCL.
    destruct (Z.eqb_spec (M mod t) 0), (Z.eqb_spec (b mod t) 0); lia.
  - assert (HCL : ((M - b) / t = M / t - b / t)%Z).
    { symmetry. apply Z.div_unique with (r := (M mod t - b mod t)%Z); lia. }
    rewrite HCL.
    destruct (Z.eqb_spec (M mod t) 0), (Z.eqb_spec (b mod t) 0); lia.
Qed.

Lemma completed_run_fills_trace_witness :
  exists st,
    run Scenario.cfg_sim_burnin1 Scenario.months Scenario.frame
        Scenario.gamma_start (fun _ => Scenario.calm) = Some st
    /\ iter0 st = 2%Z /\ iter1 st = 1%Z
    /\ Z.of_nat (length (trace st)) = 1%Z.
Proof.
  destruct (run Scenario.cfg_sim_burnin1 Scenario.months Scenario.frame
                Scenario.gamma_start (fun _ => Scenario.calm)) as [st|] eqn:E.
  - exists st. split; [reflexivity|].
    destruct (completed_run_fills_trace _ _ _ _ _ E) as (H0 & H1 & H2 & _).
    split; [exact H0|]. split; [exact H1|exact H2].
  - exfalso. vm_compute in E. discriminate E.
Defined.

(** X6 (acceptance rates): after a run that completes, the three
    acceptance rates computed at lines 720-722 lie between 0 and 1: each
    pass counts at most one acceptance per step. *)
Theorem acceptance_rates_in_unit_interval {L : Type} (cfg : config)
        (index : list L) (columns : list (list Q)) (gamma0 : matrix)
        (oracle : nat -> draws) (st : state) :
  run cfg index columns gamma0 oracle = Some st ->
  let r := acceptance_rates st in
  (0 <= fst (fst r) /\ fst (fst r) <= 1)
  /\ (0 <= snd (fst r) /\ snd (fst r) <= 1)
  /\ (0 <= snd r /\ snd r <= 1).
Proof.
  intros H. destruct (run_counted _ _ _ _ _ H) as (Hv & Hc & Hi).
  destruct Hc as (_ & _ & _ & _ & _ & _ & C6 & C7 & C8).
  assert (Hm : (0 < iter0 st)%Z).
  { rewrite Hi. unfold valid_config in Hv.
    rewrite !andb_true_iff, !negb_true_iff, !Z.leb_gt in Hv. tauto. }
  unfold acceptance_rates. cbn [fst snd].
  repeat split; apply unit_ratio; assumption.
Qed.

Lemma acceptance_rates_in_unit_interval_witness :
  exists st,
    run Scenario.cfg_a Scenario.months Scenario.frame
        Scenario.gamma_start (fun _ => Scenario.accept_zero) = Some st
    /\ 0 <= snd (fst (acceptance_rates st))
    /\ snd (fst (acceptance_rates st)) <= 1.
Proof.
  destruct (run Scenario.cfg_a Scenario.months Scenario.frame
                Scenario.gamma_start (fun _ => Scenario.accept_zero))
    as [st|] eqn:E.
  - exists st. split; [reflexivity|].
    destruct (acceptance_rates_in_unit_interval _ _ _ _ _ E) as (_ & H & _).
    exact H.
  - exfalso. vm_compute in E. discriminate E.
Defined.

(** The iterations at which a row of [auxlpml] is due, counted. *)
Lemma lpml_due_count (cfg : config) (k : nat) :
  (0 <= burnin cfg)%Z ->
  lpml_due_before cfg (Z.of_nat k)
  = (if (Z.of_nat k <=? burnin cfg)%Z then 0
     else (Z.of_nat k + 10 - 1) / 10 - (burnin cfg + 10 - 1) / 10)%Z.
Proof.
  intros Hb.
  pose (cfg10 := mkConfig (maxiter cfg) (burnin cfg) 10 (level cfg) (trend cfg)
                          (seasonality cfg) (deg cfg)
                          (c0eps cfg) (c1eps cfg) (c0beta cfg) (c1beta cfg)
                          (c0alpha cfg) (c1alpha cfg)
                          (priora cfg) (pia cfg) (q0a cfg) (q1a cfg)
                          (priorb cfg) (q0b cfg) (q1b cfg) (a0 cfg) (b0 cfg)
                          (indlpml cfg)).
  pose proof (@SamplerFacts.due_count cfg10 k) as H.
  cbn [thinning burnin cfg10] in H. unfold lpml_due_before.
  rewrite Nat2Z.id. apply H; lia.
Qed.

(** X7 (rows of [auxlpml]): with [indlpml], at least one series, a
    burn-in that is a multiple of 10 and a [maxiter] that is not, the run
    always raises: one more row of [auxlpml] is due than the
    [floor((maxiter-burnin)/10)] rows allocated at line 211. *)
Theorem lpml_rows_exceeded {L : Type} (cfg : config) (index : list L)
        (columns : list (list Q)) (gamma0 : matrix) (oracle : nat -> draws) :
  indlpml cfg = true -> (0 < length columns)%nat ->
  (burnin cfg mod 10 = 0)%Z -> (maxiter cfg mod 10 <> 0)%Z ->
  run cfg index columns gamma0 oracle = None.
Proof.
  intros Hl Hn Hb10 Hm10.
  destruct (run cfg index columns gamma0 oracle) as [st|] eqn:E; [|reflexivity].
  exfalso. destruct (run_counted _ _ _ _ _ E) as (Hv & Hc & Hi).
  destruct Hc as (_ & _ & _ & _ & C4 & C5 & _).
  specialize (C5 Hl Hn). rewrite Hl in C4. rewrite C4, Hi in C5.
  unfold valid_config in Hv.
  rewrite !andb_true_iff, !negb_true_iff, !Z.leb_gt in Hv.
  destruct Hv as ((((((((((_ & Hm) & Hb) & Ht) & Hmb) & _) & _) & _) & _) & _) & _).
  rewrite <- (Z2Nat.id (maxiter cfg)) in C5 at 1 by lia.
  rewrite lpml_due_count in C5 by lia. rewrite Z2Nat.id in C5 by lia.
  destruct (Z.leb_spec (maxiter cfg) (burnin cfg)) as [Hle|_]; [lia|].
  unfold lpml_rows in C5. rewrite !SamplerFacts.ceil_div in C5 by lia.
  rewrite Hb10 in C5. cbn [Z.eqb] in C5.
  destruct (Z.eqb_spec (maxiter cfg mod 10) 0) as [E0|_]; [contradiction|].
  pose proof (Z.div_mod (maxiter cfg) 10) as HM.
  pose proof (Z.mod_pos_bound (maxiter cfg) 10) as HMr.
  pose proof (Z.div_mod (burnin cfg) 10) as HB.
  assert (HCL : ((maxiter cfg - burnin cfg) / 10
                 = maxiter cfg / 10 - burnin cfg / 10)%Z).
  { symmetry. apply Z.div_unique with (r := (maxiter cfg mod 10)%Z); lia. }
  lia.
Qed.

Lemma lpml_rows_exceeded_witness :
  run Cases.cfg_lpml Scenario.months Scenario.frame Scenario.gamma_start
      (fun _ => Scenario.calm) = None.
Proof.
  apply lpml_rows_exceeded; [reflexivity|simpl; lia|reflexivity|discriminate].
Defined.

End RunFacts.

(** ** The partition and the groups read from its labels *)

Module GroupFacts.
Import Comp.

Lemma Qeqb_refl (x : Q) : Qeq_bool x x = true.
Proof. apply Qeq_bool_iff. reflexivity. Qed.

Lemma Qeqb_sym (x y : Q) : Qeq_bool x y = Qeq_bool y x.
Proof.
  destruct (Qeq_bool x y) eqn:E1, (Qeq_bool y x) eqn:E2; try reflexivity.
  - apply Qeq_bool_iff in E1. symmetry in E1. apply Qeq_bool_iff in E1.
    congruence.
  - apply Qeq_bool_iff in E2. symmetry in E2. apply Qeq_bool_iff in E2.
    congruence.
Qed.

Lemma Qeqb_trans (x y z : Q) :
  Qeq_bool x y = true -> Qeq_bool y z = true -> Qeq_bool x z = true.
Proof.
  rewrite !Qeq_bool_iff. intros H1 H2. now rewrite H1.
Qed.

(** The members of a group, counted on the labelled entries. *)
Lemma where_eq_length {B : Type} (f : B -> Z) (v : list B) (j : Z) :
  length (HM.where_eq (map f v) j)
  = length (filter (fun x => Z.eqb (f x) j) v).
Proof.
  unfold HM.where_eq. rewrite length_map, length_map.
  generalize 0%nat. induction v as [|x v IH]; intros s; simpl; [reflexivity|].
  destruct (Z.eqb (f x) j); simpl; now rewrite IH.
Qed.

Lemma groups_split (ps : list (nat * Z)) (m : nat) :
  Permutation
    (map fst (filter (fun ig => (0 <=? snd ig)%Z && (snd ig <? Z.of_nat m)%Z) ps)
     ++ map fst (filter (fun ig => Z.eqb (snd ig) (Z.of_nat m)) ps))
    (map fst (filter (fun ig => (0 <=? snd ig)%Z && (snd ig <? Z.of_nat (S m))%Z) ps)).
Proof.
  induction ps as [|[i g] ps IH]; cbn [filter map snd fst app]; [constructor|].
  destruct (Z.leb_spec 0 g) as [H0|H0]; cbn [andb].
  - destruct (Z.ltb_spec g (Z.of_nat m)) as [Hm|Hm];
      destruct (Z.eqb_spec g (Z.of_nat m)) as [He|He];
      destruct (Z.ltb_spec g (Z.of_nat (S m))) as [Hs|Hs]; try lia;
        cbn [map fst app].
    + now constructor.
    + apply Permutation_sym, Permutation_cons_app, Permutation_sym, IH.
    + exact IH.
  - destruct (Z.eqb_spec g (Z.of_nat m)) as [He|He]; [lia|]. exact IH.
Qed.

Lemma groups_concat (ps : list (nat * Z)) (m : nat) :
  Permutation
    (concat (map (fun j => map fst (filter (fun ig => Z.eqb (snd ig) (Z.of_nat j)) ps))
                 (seq 0 m)))
    (map fst (filter (fun ig => (0 <=? snd ig)%Z && (snd ig <? Z.of_nat m)%Z) ps)).
Proof.
  induction m as [|m IH].
  - simpl. rewrite CompFacts.filter_none; [constructor|].
    intros [i g] _. cbn [snd]. destruct (Z.leb_spec 0 g); cbn [andb]; [|reflexivity].
    apply Z.ltb_ge. lia.
  - rewrite seq_S, map_app, concat_app. cbn [map concat Nat.add].
    rewrite app_nil_r. eapply Permutation_trans; [|apply groups_split].
    now apply Permutation_app_tail.
Qed.

Lemma filter_all {B : Type} (f : B -> bool) (l : list B) :
  (forall x, In x l -> f x = true) -> filter f l = l.
Proof.
  induction l as [|x l IH]; intros H; simpl; [reflexivity|].
  rewrite (H x (or_introl eq_refl)). f_equal. apply IH.
  intros; apply H; now right.
Qed.

Lemma map_fst_combine_seq {B : Type} (l : list B) (s : nat) :
  map fst (combine (seq s (length l)) l) = seq s (length l).
Proof.
  revert s. induction l as [|x l IH]; intros s; simpl; [reflexivity|].
  now rewrite IH.
Qed.

(** Labels that all lie in [0, m) split the positions into [m] groups. *)
Lemma groups_partition (gn : list Z) (m : nat) :
  Forall (fun g => (0 <= g < Z.of_nat m)%Z) gn ->
  Permutation (concat (Summary.groups m gn)) (seq 0 (length gn)).
Proof.
  intros H. unfold Summary.groups, HM.where_eq.
  eapply Permutation_trans; [apply groups_concat|].
  rewrite filter_all.
  - rewrite map_fst_combine_seq. apply Permutation_refl.
  - intros [i g] Hin. apply in_combine_r in Hin. cbn [snd].
    rewrite Forall_forall in H. specialize (H g Hin).
    apply andb_true_iff. split; [apply Z.leb_le|apply Z.ltb_lt]; lia.
Qed.

Section Labels.

Variable A : Type.
Variable eqb : A -> A -> bool.
Hypothesis eqb_refl : forall x, eqb x x = true.
Hypothesis eqb_sym : forall x y, eqb x y = eqb y x.
Hypothesis eqb_trans :
  forall x y z, eqb x y = true -> eqb y z = true -> eqb x z = true.

Lemma match_from_range (x : A) (ys : list A) (i : Z) :
  match_from eqb i x ys = (-1)%Z
  \/ (i <= match_from eqb i x ys < i + Z.of_nat (length ys))%Z.
Proof.
  revert i. induction ys as [|y ys IH]; intros i; simpl; [now left|].
  destruct (eqb x y); [right; lia|].
  destruct (IH (i + 1)%Z) as [H|H]; [now left|right; lia].
Qed.

(** The label of an entry is the position of the representative equal to
    it. *)
Lemma match_from_label (x : A) (ys : list A) (i : Z) (c : nat) (d : A) :
  (0 <= i)%Z -> (c < length ys)%nat -> pairwise_distinct eqb ys ->
  match_from eqb i x ys = (i + Z.of_nat c)%Z <-> eqb x (nth c ys d) = true.
Proof.
  intros Hi Hc Hd. revert i c Hi Hc.
  induction Hd as [|y ys Hy Hys IH]; intros i c Hi Hc; simpl in *; [lia|].
  destruct c as [|c].
  - destruct (eqb x y) eqn:Hxy.
    + split; [reflexivity|intros _; lia].
    + split; [|intros; discriminate].
      intros H. destruct (match_from_range x ys (i + 1)) as [E|E]; lia.
  - destruct (eqb x y) eqn:Hxy.
    + split; [intros H; lia|].
      intros Hx. exfalso. rewrite Forall_forall in Hy.
      assert (Hin : In (nth c ys d) ys) by (apply nth_In; lia).
      specialize (Hy _ Hin). rewrite eqb_sym in Hxy.
      rewrite (eqb_trans Hxy Hx) in Hy. discriminate.
    + rewrite <- (IH (i + 1)%Z c) by lia. split; intros H; lia.
Qed.

Lemma reps_in (seen vs : list A) (r : A) :
  In r (reps eqb seen vs) -> In r vs.
Proof.
  revert seen. induction vs as [|x vs IH]; intros seen; simpl; [tauto|].
  destruct (led_of eqb seen x); simpl.
  - intros H. right. eapply IH; eauto.
  - intros [H|H]; [now left|right; eapply IH; eauto].
Qed.

(** The groups read with [np.where(gn == j)] from the labels of [comp]
    have the sizes [nstar], none is empty, and together they hold every
    position once. *)
Lemma comp_groups (x0 : A) (v0 : list A) :
  let v := x0 :: v0 in
  exists r,
    comp eqb v = Some r
    /\ map (@length nat) (Summary.groups (rstar r) (gn r)) = nstar r
    /\ Forall (fun k => (1 <= k)%nat) (nstar r)
    /\ Permutation (concat (Summary.groups (rstar r) (gn r)))
                   (seq 0 (length v)).
Proof.
  intros v. assert (Hv : v = x0 :: v0) by reflexivity. clearbody v.
  unfold comp. rewrite CompFacts.comp_jstar, CompFacts.select_firsts.
  destruct (reps eqb [] v) as [|y ys] eqn:Hreps.
  { subst v. simpl in Hreps. discriminate. }
  rewrite <- Hreps. set (ystar := reps eqb [] v) in *.
  assert (Hd : pairwise_distinct eqb ystar)
    by (apply CompFacts.reps_distinct; assumption).
  assert (Hc : forall z, In z v -> exists r, In r ystar /\ eqb z r = true).
  { intros z Hz.
    destruct (@CompFacts.reps_cover A eqb eqb_refl [] v z Hz) as [Hl|Hr];
      [discriminate|assumption]. }
  eexists. split; [reflexivity|]. cbn [jstar nstar rstar gn].
  rewrite length_map. split; [|split].
  - unfold Summary.groups. rewrite map_map.
    rewrite <- (HMFacts.map_nth_seq (fun r => count_eq eqb r v) x0 ystar).
    apply map_ext_in. intros j Hj. apply in_seq in Hj.
    unfold pd_match. rewrite where_eq_length. unfold count_eq.
    f_equal. apply filter_ext. intros x.
    destruct (eqb x (nth j ystar x0)) eqn:E.
    + apply Z.eqb_eq.
      apply (@match_from_label x ystar 0%Z j x0); try lia; assumption.
    + apply Z.eqb_neq. intros Hm.
      apply (@match_from_label x ystar 0%Z j x0) in Hm;
        try lia; try assumption. congruence.
  - apply Forall_forall. intros k Hk. apply in_map_iff in Hk.
    destruct Hk as (r & <- & Hr). unfold count_eq.
    assert (Hin : In r (filter (fun y0 => eqb y0 r) v)).
    { apply filter_In. split; [eapply reps_in; exact Hr|apply eqb_refl]. }
    destruct (filter (fun y0 => eqb y0 r) v); [contradiction|simpl; lia].
  - replace (length v) with (length (pd_match eqb v ystar))
      by (unfold pd_match; apply length_map).
    apply groups_partition. unfold pd_match. apply Forall_forall.
    intros g Hg. apply in_map_iff in Hg. destruct Hg as (x & <- & Hx).
    destruct (@CompFacts.match_from_found A eqb x ystar 0 (Hc x Hx))
      as (c & r & Hm & Hn & _).
    simpl in Hm. rewrite Hm.
    assert (c < length ystar)%nat by (apply nth_error_Some; congruence).
    lia.
Qed.

End Labels.

(** X8 (groups of a partition): for a non-empty vector, the groups that
    [tseriescm] reads with [np.where(gn == j)] from the labels returned by
    [comp] have exactly the sizes [nstar[j]], so that [cc[0][i]] for
    [i < nstar[j]] is always inside the group; no group is empty, and the
    groups together hold every position of the vector exactly once. *)
Theorem comp_groups_partition (x0 : Q) (v0 : list Q) :
  exists r,
    comp Qeq_bool (x0 :: v0) = Some r
    /\ map (@length nat) (Summary.groups (rstar r) (gn r)) = nstar r
    /\ Forall (fun k => (1 <= k)%nat) (nstar r)
    /\ Permutation (concat (Summary.groups (rstar r) (gn r)))
                   (seq 0 (length (x0 :: v0))).
Proof.
  exact (@comp_groups Q Qeq_bool Qeqb_refl Qeqb_sym Qeqb_trans x0 v0).
Qed.

End GroupFacts.

(** ** The end of the call *)

Module SummaryFacts.
Import Sampler Summary.

(** [argmin_from] over the entries that follow [pre]. *)
Lemma argmin_from_spec (l pre : list Q) (ibest : nat) :
  (ibest < length pre)%nat ->
  (forall j, (j < length pre)%nat -> nth ibest pre 0 <= nth j pre 0) ->
  (forall j, (j < ibest)%nat -> nth ibest pre 0 < nth j pre 0) ->
  let k := argmin_from (nth ibest pre 0) ibest (length pre) l in
  (k < length (pre ++ l))%nat
  /\ (forall j, (j < length (pre ++ l))%nat ->
        nth k (pre ++ l) 0 <= nth j (pre ++ l) 0)
  /\ (forall j, (j < k)%nat -> nth k (pre ++ l) 0 < nth j (pre ++ l) 0).
Proof.
  revert pre ibest. induction l as [|x l IH]; intros pre ibest Hi Hmin Hfirst.
  - cbn [argmin_from]. rewrite app_nil_r. auto.
  - cbn [argmin_from].
    assert (Hlen : length (pre ++ [x]) = S (length pre))
      by (rewrite length_app; simpl; lia).
    assert (Hx : nth (length pre) (pre ++ [x]) 0 = x)
      by (rewrite app_nth2, Nat.sub_diag by lia; reflexivity).
    assert (Hpre : forall j, (j < length pre)%nat ->
                             nth j (pre ++ [x]) 0 = nth j pre 0)
      by (intros j Hj; now rewrite app_nth1).
    replace (pre ++ x :: l) with ((pre ++ [x]) ++ l)
      by (rewrite <- app_assoc; reflexivity).
    destruct (Qltb x (nth ibest pre 0)) eqn:E.
    + apply SamplerFacts.Qltb_lt in E.
      pose proof (IH (pre ++ [x]) (length pre)) as H.
      rewrite Hx, Hlen in H. apply H.
      * lia.
      * intros j Hj.
        destruct (Nat.eq_dec j (length pre)) as [->|Hne].
        -- rewrite Hx. lra.
        -- rewrite Hpre by lia. specialize (Hmin j ltac:(lia)). lra.
      * intros j Hj. rewrite Hpre by lia.
        specialize (Hmin j Hj). lra.
    + unfold Qltb in E. rewrite negb_false_iff in E. apply Qle_bool_iff in E.
      pose proof (IH (pre ++ [x]) ibest) as H.
      rewrite (Hpre ibest Hi), Hlen in H. apply H.
      * lia.
      * intros j Hj.
        destruct (Nat.eq_dec j (length pre)) as [->|Hne].
        -- rewrite Hx. assumption.
        -- rewrite Hpre by lia. apply Hmin. lia.
      * intros j Hj. rewrite Hpre by lia. now apply Hfirst.
Qed.

(** [np.argmin] returns the first position of the least entry. *)
Lemma argmin_spec (l : list Q) (k : nat) :
  argmin l = Some k ->
  (k < length l)%nat
  /\ (forall j, (j < length l)%nat -> nth k l 0 <= nth j l 0)
  /\ (forall j, (j < k)%nat -> nth k l 0 < nth j l 0).
Proof.
  destruct l as [|x l]; [discriminate|]. cbn [argmin]. intros H.
  inversion H as [Hk]. clear H.
  pose proof (@argmin_from_spec l [x] 0) as Hs. cbn [nth length app] in Hs.
  apply Hs.
  - lia.
  - intros j Hj. assert (j = 0)%nat as -> by lia. cbn [nth]. lra.
  - intros j Hj. lia.
Qed.

(** A run that reaches the end of the loop has written every row of the
    trace. *)
Lemma run_trace_full {L : Type} (cfg : config) (index : list L)
      (columns : list (list Q)) (gamma0 : matrix) (oracle : nat -> draws)
      (st : state) :
  run cfg index columns gamma0 oracle = Some st ->
  Z.of_nat (length (trace st)) = CL cfg.
Proof.
  intros H. destruct (RunFacts.run_counted _ _ _ _ _ H) as (Hv & Hc & Hi).
  destruct Hc as (C0 & C1 & C2 & C3 & _).
  assert (Hdue : iter1 st = Z.of_nat (length (due_iterations cfg))).
  { rewrite C1, Hi. reflexivity. }
  destruct (SamplerFacts.due_iterations_count cfg Hv) as [E|E]; lia.
Qed.

Lemma norm_nth (norm : nat -> Q) (n j : nat) :
  (j < n)%nat -> nth j (map norm (seq 0 n)) 0 = norm j.
Proof.
  intros Hj. rewrite (nth_indep _ 0 (norm 0%nat)) by now rewrite length_map, length_seq.
  rewrite map_nth, seq_nth by assumption. reflexivity.
Qed.

(** X9 (the reported configuration): when the call completes, the number
    of groups and the groups printed are those of one of the saved
    iterations, the first one among those whose distance to the
    similarity matrix is least, and the heterogeneity measure printed is
    not negative. *)
Theorem tseriescm_reports_saved_configuration {L : Type} (cfg : config)
        (index : list L) (columns : list (list Q)) (gamma0 : matrix)
        (oracle : nat -> draws) (norm : nat -> Q) (rep : report) :
  tseriescm cfg index columns gamma0 oracle norm = Some rep ->
  exists st k s,
    run cfg index columns gamma0 oracle = Some st
    /\ nth_error (trace st) k = Some s
    /\ r_mstar rep = s_m s
    /\ r_groups rep = groups (s_m s) (s_gn s)
    /\ (forall j, (Z.of_nat j < CL cfg)%Z -> norm k <= norm j)
    /\ (forall j, (j < k)%nat -> norm k < norm j)
    /\ 0 <= r_HM rep.
Proof.
  unfold tseriescm, bind. intros H.
  destruct (run cfg index columns gamma0 oracle) as [st|] eqn:E; [|discriminate].
  destruct (Scale.scaleandperiods index columns) as [sc|]; [|discriminate].
  unfold finish, chosen, bind in H.
  destruct (argmin _) as [k|] eqn:Ek; [|discriminate].
  inversion H; subst rep. clear H. cbn [fst snd r_mstar r_groups r_HM].
  apply argmin_spec in Ek. rewrite length_map, length_seq in Ek.
  destruct Ek as (Hk & Hmin & Hfirst).
  pose proof (run_trace_full _ _ _ _ _ E) as Hfull.
  assert (Hkt : (k < length (trace st))%nat) by lia.
  destruct (nth_error (trace st) k) as [s|] eqn:Hs;
    [|apply nth_error_None in Hs; lia].
  exists st, k, s. split; [reflexivity|]. split; [assumption|].
  assert (Hrow : nth k (map (fun s0 => (s_m s0, s_gn s0)) (trace st))
                     (0%nat, repeat 0%Z (length columns))
                 = (s_m s, s_gn s)).
  { apply nth_error_nth. now rewrite nth_error_map, Hs. }
  rewrite Hrow. cbn [fst snd].
  split; [reflexivity|]. split; [reflexivity|]. split; [|split].
  - intros j Hj. rewrite <- (@norm_nth norm (Z.to_nat (CL cfg)) k) by assumption.
    rewrite <- (@norm_nth norm (Z.to_nat (CL cfg)) j) by lia.
    apply Hmin. lia.
  - intros j Hj. rewrite <- (@norm_nth norm (Z.to_nat (CL cfg)) k) by assumption.
    rewrite <- (@norm_nth norm (Z.to_nat (CL cfg)) j) by lia.
    now apply Hfirst.
  - rewrite HMFacts.HM_as_pairs. apply HMFacts.HM_pairs_nonneg.
Qed.

Lemma tseriescm_reports_saved_configuration_witness :
  exists rep,
    tseriescm Scenario.cfg_sim_burnin1 Scenario.months Scenario.frame
              Scenario.gamma_start (fun _ => Scenario.calm) (fun _ => 0)
    = Some rep
    /\ 0 <= r_HM rep.
Proof.
  destruct (tseriescm Scenario.cfg_sim_burnin1 Scenario.months Scenario.frame
                      Scenario.gamma_start (fun _ => Scenario.calm) (fun _ => 0))
    as [rep|] eqn:E.
  - exists rep. split; [reflexivity|].
    destruct (tseriescm_reports_saved_configuration _ _ _ _ _ _ E)
      as (st & k & s & _ & _ & _ & _ & _ & _ & H).
    exact H.
  - exfalso. vm_compute in E. discriminate E.
Defined.

(** X10 (chains without a saved row): when fewer than [thinning]
    iterations follow the burn-in, no row is allocated ([CL = 0]) and the
    call never completes: either the loop raises, or [np.argmin] is
    applied to the empty array of distances. *)
Theorem tseriescm_needs_a_saved_row {L : Type} (cfg : config)
        (index : list L) (columns : list (list Q)) (gamma0 : matrix)
        (oracle : nat -> draws) (norm : nat -> Q) :
  (maxiter cfg - burnin cfg < thinning cfg)%Z ->
  tseriescm cfg index columns gamma0 oracle norm = None.
Proof.
  intros Hshort. unfold tseriescm, bind.
  destruct (run cfg index columns gamma0 oracle) as [st|] eqn:E; [|reflexivity].
  destruct (Scale.scaleandperiods index columns) as [sc|]; [|reflexivity].
  destruct (RunFacts.run_counted _ _ _ _ _ E) as (Hv & _ & _).
  unfold valid_config in Hv.
  rewrite !andb_true_iff, !negb_true_iff, !Z.leb_gt in Hv.
  destruct Hv as ((((((((((_ & Hm) & Hb) & Ht) & Hmb) & _) & _) & _) & _) & _) & _).
  unfold finish, chosen, bind, CL.
  destruct (Z.eqb_spec (thinning cfg) 0) as [E0|_]; [lia|].
  rewrite Z.div_small by lia. reflexivity.
Qed.

Lemma tseriescm_needs_a_saved_row_witness :
  tseriescm Scenario.cfg_trace Scenario.months Scenario.frame
            Scenario.gamma_start (fun _ => Scenario.calm) (fun _ => 0) = None.
Proof.
  apply tseriescm_needs_a_saved_row. reflexivity.
Defined.

End SummaryFacts.

(** ** The categorical draw of the membership step *)

Module MembershipFacts.
Import Sampler.

Lemma cumsum_length (acc : Q) (q : list Q) :
  length (cumsum acc q) = length q.
Proof.
  revert acc. induction q as [|x q IH]; intros acc; simpl; auto.
Qed.

Lemma last_cons_default {B : Type} (x d : B) (l : list B) :
  last (x :: l) d = last l x.
Proof.
  revert x d. induction l as [|y l IH]; intros x d; [reflexivity|].
  change (last (x :: y :: l) d) with (last (y :: l) d).
  now rewrite !IH.
Qed.

Lemma cumsum_snoc (acc x : Q) (l : list Q) :
  cumsum acc (l ++ [x]) = cumsum acc l ++ [last (cumsum acc l) acc + x].
Proof.
  revert acc. induction l as [|y l IH]; intros acc; cbn [app cumsum].
  - reflexivity.
  - rewrite IH, last_cons_default. reflexivity.
Qed.

Lemma cumsum_last_sum (acc : Q) (q : list Q) :
  last (cumsum acc q) acc == acc + HM.Qsum q.
Proof.
  revert acc. induction q as [|x q IH]; intros acc; cbn [cumsum HM.Qsum].
  - cbn [last]. lra.
  - rewrite last_cons_default, IH. lra.
Qed.

(** The draw when the last entry closes the probabilities: the answer is
    1 plus the number of partial sums of the other entries that are at
    most [u]. *)
Lemma choice_count (q' : list Q) (z u : Q) (y : nat) :
  py_sum (q' ++ [z]) == 1 -> u < 1 ->
  choice (q' ++ [z]) u = Some y ->
  exists total,
    total == 1
    /\ y = S (length (filter (fun c => Qle_bool (c / total) u) (cumsum 0 q'))).
Proof.
  intros Hsum Hu. unfold choice.
  destruct (negb _); [discriminate|]. intros H. inversion H as [Hy]. clear H.
  rewrite cumsum_snoc, last_last, filter_app.
  set (total := last (cumsum 0 q') 0 + z).
  assert (Ht : total == 1).
  { unfold total. rewrite cumsum_last_sum.
    unfold py_sum in Hsum. rewrite HMFacts.fold_left_Qplus in Hsum.
    rewrite HMFacts.Qsum_app in Hsum. cbn [HM.Qsum] in Hsum. lra. }
  exists total. split; [assumption|].
  cbn [filter].
  assert (Hlast : Qle_bool (total / total) u = false).
  { apply SamplerFacts.Qle_bool_false.
    setoid_replace (total / total) with 1; [assumption|].
    rewrite Ht. reflexivity. }
  rewrite Hlast, app_nil_r. reflexivity.
Qed.

Lemma weights_shape (sh : nat) (a b : Q) (nstar : list nat) (mi : nat)
      (pdf0 : Q) (pdfj : nat -> Q) (q : list Q) :
  weights sh a b nstar mi pdf0 pdfj = Some q ->
  exists q' z, q = q' ++ [z] /\ length q' = mi.
Proof.
  unfold weights. cbv zeta. destruct (Qeq_bool _ 0); [discriminate|].
  intros H. inversion H. clear H. eexists. eexists. split; [reflexivity|].
  rewrite length_map. destruct sh as [|[|[|[|sh]]]];
    rewrite ?repeat_length, ?length_map, ?length_seq; reflexivity.
Qed.

Lemma categorical_range (sh : nat) (a b : Q) (nstar : list nat)
      (mi : nat) (pdf0 : Q) (pdfj : nat -> Q) (q : list Q) (u : Q) (y : nat) :
  u < 1 ->
  weights sh a b nstar mi pdf0 pdfj = Some q ->
  choice q u = Some y ->
  (1 <= y <= mi + 1)%nat.
Proof.
  intros Hu Hw Hc.
  pose proof (SamplerFacts.weights_sum_one _ _ _ _ _ _ _ Hw) as Hsum.
  destruct (weights_shape _ _ _ _ _ _ _ Hw) as (q' & z & -> & Hlen).
  destruct (choice_count _ _ Hsum Hu Hc) as (total & _ & ->).
  pose proof (filter_length_le (fun c => Qle_bool (c / total) u) (cumsum 0 q')) as Hle.
  rewrite cumsum_length in Hle. lia.
Qed.

Lemma Qnat_ge_1 (k : nat) : (1 <= k)%nat -> 1 <= Qnat k.
Proof.
  intros H. unfold Qnat. change 1 with (inject_Z 1). rewrite <- Zle_Qle. lia.
Qed.

Lemma forallb_nonneg_div (den : Q) (l : list Q) :
  0 < den -> Forall (fun x => 0 <= x) l ->
  forallb (Qle_bool 0) (map (fun x => x / den) l) = true.
Proof.
  intros Hden H. induction H as [|x l Hx Hl IH]; cbn [map forallb]; [reflexivity|].
  rewrite IH, andb_true_r. apply Qle_bool_iff.
  apply Qle_shift_div_l; [assumption|]. lra.
Qed.

(** The weights are probabilities: none is negative. *)
Lemma weights_nonneg (sh : nat) (a b : Q) (nstar : list nat) (mi : nat)
      (pdf0 : Q) (pdfj : nat -> Q) (q : list Q) :
  0 <= a -> a < 1 -> - a <= b -> (1 <= mi)%nat ->
  (forall j, (j < mi)%nat -> (1 <= nth j nstar 0)%nat) ->
  0 <= pdf0 -> (forall j, 0 <= pdfj j) ->
  weights sh a b nstar mi pdf0 pdfj = Some q ->
  forallb (Qle_bool 0) q = true.
Proof.
  intros Ha0 Ha1 Hb Hmi Hn Hp0 Hpj. unfold weights. cbv zeta.
  set (d0 := (b + a * Qnat mi) * pdf0).
  set (dj := match sh with
             | 0%nat => repeat 0 mi
             | _ => _
             end).
  assert (Hd0 : 0 <= d0).
  { unfold d0. apply Qmult_le_0_compat; [|assumption].
    pose proof (Qnat_ge_1 Hmi) as H1.
    assert (0 <= a * (Qnat mi - 1)) by (apply Qmult_le_0_compat; lra).
    lra. }
  assert (Hdj : Forall (fun x => 0 <= x) dj).
  { assert (Hjoin : Forall (fun x => 0 <= x)
                      (map (fun j => (Qnat (nth j nstar 0%nat) - a) * pdfj j)
                           (seq 0 mi))).
    { apply Forall_forall. intros x Hx. apply in_map_iff in Hx.
      destruct Hx as (j & <- & Hj). apply in_seq in Hj.
      apply Qmult_le_0_compat; [|apply Hpj].
      pose proof (Qnat_ge_1 (Hn j ltac:(lia))). lra. }
    subst dj. destruct sh as [|[|[|[|sh]]]]; try exact Hjoin.
    apply Forall_forall. intros x Hx. apply repeat_spec in Hx. subst. lra. }
  assert (Hsum : 0 <= py_sum dj).
  { unfold py_sum. rewrite HMFacts.fold_left_Qplus.
    pose proof (HMFacts.Qsum_nonneg Hdj). lra. }
  destruct (Qeq_bool (d0 + py_sum dj) 0) eqn:E; [discriminate|].
  apply Qeq_bool_neq in E. intros H. inversion H. clear H.
  assert (Hden : 0 < d0 + py_sum dj).
  { destruct (Qlt_le_dec 0 (d0 + py_sum dj)) as [Hlt|Hle]; [assumption|].
    exfalso. apply E. lra. }
  rewrite forallb_app, (forallb_nonneg_div Hden Hdj). cbn [forallb andb].
  rewrite andb_true_r. apply Qle_bool_iff.
  apply Qle_shift_div_l; [assumption|]. lra.
Qed.

(** X11 (the categorical draw): with [a] in [0,1), [b >= -a], at least
    one cluster, counts of at least 1 and densities that are not
    negative, the weights of lines 303-304 are accepted by
    [np.random.choice] at line 350, and for every uniform draw below 1 the
    value returned lies between 1 and [mi+1]: the column
    [gammastar[:,y-1]] read at line 374 exists, or a new vector is
    drawn. *)
Theorem categorical_draw_defined (sh : nat) (a b : Q) (nstar : list nat)
        (mi : nat) (pdf0 : Q) (pdfj : nat -> Q) (q : list Q) (u : Q) :
  0 <= a -> a < 1 -> - a <= b -> (1 <= mi)%nat ->
  (forall j, (j < mi)%nat -> (1 <= nth j nstar 0)%nat) ->
  0 <= pdf0 -> (forall j, 0 <= pdfj j) -> u < 1 ->
  weights sh a b nstar mi pdf0 pdfj = Some q ->
  exists y, choice q u = Some y /\ (1 <= y <= mi + 1)%nat.
Proof.
  intros Ha0 Ha1 Hb Hmi Hn Hp0 Hpj Hu Hw.
  pose proof (@weights_nonneg sh a b nstar mi pdf0 pdfj q
                             Ha0 Ha1 Hb Hmi Hn Hp0 Hpj Hw) as Hpos.
  destruct (choice q u) as [y|] eqn:Hc.
  - exists y. split; [reflexivity|]. eapply categorical_range; eauto.
  - unfold choice in Hc. rewrite Hpos in Hc. discriminate.
Qed.

Lemma categorical_draw_defined_witness :
  exists y, choice [48 # 64; 16 # 64] (1 # 2) = Some y /\ (1 <= y <= 1 + 1)%nat.
Proof.
  apply (@categorical_draw_defined 3 (1 # 4) 0 [1%nat] 1 1 (fun _ => 1)
           [48 # 64; 16 # 64] (1 # 2));
    try lra; try lia; try reflexivity;
    [intros [|j] Hj; [simpl; lia|lia] | intros j; lra].
Defined.

Lemma cumsum_zeros (den acc : Q) (mi : nat) :
  Forall (fun c => c == acc)
         (cumsum acc (map (fun x => x / den) (repeat 0 mi))).
Proof.
  revert acc. induction mi as [|mi IH]; intros acc; cbn [repeat map cumsum].
  - constructor.
  - assert (E : acc + 0 / den == acc) by (unfold Qdiv; rewrite Qmult_0_l; lra).
    constructor; [assumption|].
    eapply Forall_impl; [|apply IH]. cbv beta. intros c Hc. now rewrite Hc.
Qed.

(** X12 (no clustered component): when [level + trend + seasonality == 0]
    the weights of the existing clusters are zero (line 292 assigns
    nothing), so for every uniform draw in [0,1) the categorical draw is
    [mi+1]: whenever the update of a series succeeds, the series receives
    the freshly drawn vector and never joins an existing cluster. *)
Theorem unclustered_series_always_fresh (cfg : config) (dr : draws)
        (st st' : state) (i : nat) :
  shape cfg = 0%nat -> 0 <= u_pick dr i -> u_pick dr i < 1 ->
  update_series cfg dr st i = Some st' ->
  set_col i (fresh dr i) (gamma st) = Some (gamma st').
Proof.
  intros Hsh Hu0 Hu1. unfold update_series, bind. rewrite Hsh.
  destruct (nth_error (gamma st) 0) as [g0|]; [|discriminate].
  destruct (Comp.comp Qeq_bool (delete_at i g0)) as [r|]; [|discriminate].
  destruct (weights 0 _ _ _ _ _ _) as [q|] eqn:Hw; [|discriminate].
  destruct (choice q (u_pick dr i)) as [y|] eqn:Hc; [|discriminate].
  assert (Hy : y = (Comp.rstar r + 1)%nat).
  { pose proof (SamplerFacts.weights_sum_one _ _ _ _ _ _ _ Hw) as Hsum.
    unfold weights in Hw. cbv zeta in Hw.
    destruct (Qeq_bool _ 0); [discriminate|]. inversion Hw as [Hq]. clear Hw.
    rewrite <- Hq in Hc, Hsum.
    destruct (choice_count _ _ Hsum Hu1 Hc) as (total & Ht & ->).
    rewrite GroupFacts.filter_all.
    - rewrite cumsum_length, length_map, repeat_length. lia.
    - intros c Hin.
      pose proof (cumsum_zeros
                    ((b st + a st * Qnat (Comp.rstar r)) * dens_new dr i
                     + py_sum (repeat 0 (Comp.rstar r)))
                    0 (Comp.rstar r)) as Hz.
      rewrite Forall_forall in Hz. specialize (Hz c Hin).
      apply Qle_bool_iff. rewrite Hz, Ht. unfold Qdiv. rewrite Qmult_0_l.
      assumption. }
  rewrite Hy, Nat.eqb_refl.
  destruct (set_col i (fresh dr i) (gamma st)) as [g|]; [|discriminate].
  intros H. inversion H; subst. reflexivity.
Qed.

Lemma select_nth_true {B : Type} (mask : list bool) (row : list B) (j : nat)
      (d : B) :
  (j < length (select mask row))%nat ->
  exists k, Mask.nth_true mask j = Some k /\ (k < length row)%nat
            /\ nth j (select mask row) d = nth k row d.
Proof.
  revert row j. induction mask as [|m mask IH]; intros row j Hj.
  - simpl in Hj. lia.
  - destruct row as [|x row]; [simpl in Hj; lia|].
    destruct m.
    + destruct j as [|j].
      * exists 0%nat. simpl. repeat split; lia.
      * cbn [select length] in Hj.
        destruct (IH row j ltac:(lia)) as (k & Hk & Hlt & Hn).
        exists (S k). cbn [Mask.nth_true select nth length]. rewrite Hk.
        repeat split; [lia|assumption].
    + cbn [select] in Hj. destruct (IH row j Hj) as (k & Hk & Hlt & Hn).
      exists (S k). cbn [Mask.nth_true select nth length]. rewrite Hk.
      repeat split; [lia|assumption].
Qed.

Lemma select_length_eq {B C : Type} (mask : list bool) (r1 : list B)
      (r2 : list C) :
  length r1 = length r2 -> length (select mask r1) = length (select mask r2).
Proof.
  revert r1 r2. induction mask as [|m mask IH]; intros r1 r2 H; [reflexivity|].
  destruct r1, r2; try discriminate; [reflexivity|].
  simpl in H. destruct m; simpl; [f_equal|]; apply IH; lia.
Qed.

Lemma delete_at_length {B : Type} (i : nat) (l : list B) :
  (i < length l)%nat -> length (delete_at i l) = (length l - 1)%nat.
Proof.
  revert i. induction l as [|x l IH]; intros i Hi; [simpl in Hi; lia|].
  destruct i as [|i]; simpl; [lia|]. rewrite IH by (simpl in Hi; lia).
  simpl in Hi. lia.
Qed.

Lemma delete_at_beyond {B : Type} (i : nat) (l : list B) :
  (length l <= i)%nat -> delete_at i l = l.
Proof.
  revert i. induction l as [|x l IH]; intros i Hi; [now destruct i|].
  destruct i as [|i]; [simpl in Hi; lia|]. simpl. f_equal. apply IH.
  simpl in Hi. lia.
Qed.

Lemma delete_at_nth {B : Type} (i k : nat) (l : list B) (d : B) :
  nth k (delete_at i l) d = nth (Mask.undelete i k) l d.
Proof.
  unfold Mask.undelete. revert i k. induction l as [|x l IH]; intros i k.
  - destruct (k <? i)%nat; destruct i, k; reflexivity.
  - destruct i as [|i]; [reflexivity|]. destruct k as [|k]; [reflexivity|].
    cbn [delete_at nth]. rewrite IH.
    change (S k <? S i)%nat with (k <? i)%nat.
    destruct (k <? i)%nat; reflexivity.
Qed.

(** X24 (the move of one series): when the update of series [i] succeeds
    on a matrix [gamma] with one column per series, the new matrix is
    [gamma] with column [i] replaced either by the freshly drawn vector
    or by the column of another series [k]: the series then shares the
    first coordinate of series [k], that is, it joins its cluster. *)
Theorem update_series_fresh_or_copy (cfg : config) (dr : draws) (n : nat)
        (st st' : state) (i : nat) :
  Mask.width_is n (gamma st) -> u_pick dr i < 1 ->
  update_series cfg dr st i = Some st' ->
  set_col i (fresh dr i) (gamma st) = Some (gamma st')
  \/ exists k, k <> i /\ (k < n)%nat
               /\ set_col i (col k (gamma st)) (gamma st) = Some (gamma st').
Proof.
  intros Hw Hu. unfold update_series, bind.
  destruct (nth_error (gamma st) 0) as [g0|] eqn:Hg0; [|discriminate].
  destruct (Comp.comp Qeq_bool (delete_at i g0)) as [r|] eqn:Hr; [|discriminate].
  destruct (weights _ _ _ _ _ _ _) as [q|] eqn:Hq; [|discriminate].
  destruct (choice q (u_pick dr i)) as [y|] eqn:Hy; [|discriminate].
  pose proof (@categorical_range _ _ _ _ _ _ _ _ _ _ Hu Hq Hy) as Hrange.
  destruct (Nat.eqb_spec y (Comp.rstar r + 1)) as [->|Hne].
  - intros H. left.
    destruct (set_col i (fresh dr i) (gamma st)); [|discriminate].
    inversion H; subst. reflexivity.
  - intros H. right.
    assert (Hjs : Comp.rstar r
                  = length (select (Comp.jstar r) (delete_at i g0))).
    { unfold Comp.comp in Hr.
      destruct (select _ (delete_at i g0)) eqn:Hsel; [discriminate|].
      inversion Hr; subst r. cbn [Comp.rstar Comp.jstar].
      rewrite length_map. now rewrite Hsel. }
    assert (Hlen0 : length g0 = n).
    { unfold Mask.width_is in Hw. rewrite Forall_forall in Hw.
      apply Hw. eapply nth_error_In; eauto. }
    destruct (@select_nth_true Q (Comp.jstar r) (delete_at i g0) (y - 1) 0
                ltac:(lia)) as (k' & Hk' & Hlt & _).
    exists (Mask.undelete i k').
    assert (Hk : Mask.undelete i k' <> i /\ (Mask.undelete i k' < n)%nat).
    { unfold Mask.undelete. destruct (Nat.ltb_spec k' i) as [Hlo|Hhi].
      - split; [lia|].
        destruct (Nat.lt_ge_cases i (length g0)) as [Hi|Hi].
        + rewrite delete_at_length in Hlt by assumption. lia.
        + rewrite delete_at_beyond in Hlt by assumption. lia.
      - split; [lia|].
        destruct (Nat.lt_ge_cases i (length g0)) as [Hi|Hi].
        + rewrite delete_at_length in Hlt by assumption. lia.
        + rewrite delete_at_beyond in Hlt by assumption. lia. }
    split; [tauto|]. split; [tauto|].
    assert (Hcol : col (y - 1) (select_cols (Comp.jstar r) (delete_col i (gamma st)))
                   = col (Mask.undelete i k') (gamma st)).
    { unfold col, select_cols, delete_col. rewrite !map_map.
      apply map_ext_in. intros row Hrow.
      unfold Mask.width_is in Hw. rewrite Forall_forall in Hw.
      pose proof (Hw row Hrow) as Hrl.
      assert (Hsame : length (delete_at i row) = length (delete_at i g0)).
      { destruct (Nat.lt_ge_cases i n) as [Hi|Hi].
        - rewrite !delete_at_length by lia. lia.
        - rewrite !delete_at_beyond by lia. lia. }
      destruct (@select_nth_true Q (Comp.jstar r) (delete_at i row) (y - 1) 0)
        as (k2 & Hk2 & _ & Hn2).
      { rewrite (select_length_eq (Comp.jstar r) _ _ Hsame). lia. }
      rewrite Hn2. assert (k2 = k') by congruence. subst k2.
      apply delete_at_nth. }
    rewrite Hcol in H.
    destruct (set_col i (col (Mask.undelete i k') (gamma st)) (gamma st));
      [|discriminate].
    inversion H; subst. reflexivity.
Qed.

Lemma update_series_fresh_or_copy_witness :
  exists st',
    update_series Scenario.cfg_sim Scenario.calm
                  (init_state Scenario.cfg_sim 2 1 13 Scenario.gamma_start) 0
    = Some st'
    /\ (set_col 0 (fresh Scenario.calm 0) Scenario.gamma_start = Some (gamma st')
        \/ exists k, k <> 0%nat /\ (k < 2)%nat
                     /\ set_col 0 (col k Scenario.gamma_start) Scenario.gamma_start
                        = Some (gamma st')).
Proof.
  destruct (update_series Scenario.cfg_sim Scenario.calm
              (init_state Scenario.cfg_sim 2 1 13 Scenario.gamma_start) 0)
    as [st'|] eqn:E.
  - exists st'. split; [reflexivity|].
    apply (@update_series_fresh_or_copy Scenario.cfg_sim Scenario.calm 2
             (init_state Scenario.cfg_sim 2 1 13 Scenario.gamma_start) st' 0);
      [ | reflexivity | exact E].
    unfold Mask.width_is. cbn [gamma init_state].
    repeat constructor.
  - exfalso. vm_compute in E. discriminate E.
Defined.

Lemma unclustered_series_always_fresh_witness :
  exists st',
    update_series Cases.cfg_unclustered Cases.calm12 Cases.start_unclustered 0
    = Some st'
    /\ set_col 0 (fresh Cases.calm12 0) (gamma Cases.start_unclustered)
       = Some (gamma st').
Proof.
  destruct (update_series Cases.cfg_unclustered Cases.calm12
                          Cases.start_unclustered 0) as [st'|] eqn:E.
  - exists st'. split; [reflexivity|].
    apply (@unclustered_series_always_fresh Cases.cfg_unclustered Cases.calm12
             Cases.start_unclustered st' 0);
      [reflexivity | vm_compute; discriminate | reflexivity | exact E].
  - exfalso. vm_compute in E. discriminate E.
Defined.

End MembershipFacts.

(** ** The entries of the design matrix *)

Module DesignRows.
Import Design.










End DesignRows.

(** ** The scaler, column by column *)

Module ScaledFacts.
Import Scale Scaled.

Lemma extrema_columns (columns : list (list Q)) :
  Forall varying columns ->
  extrema columns = Some (map column_extrema columns).
Proof.
  induction 1 as [|col columns Hc Hcs IH]; [reflexivity|].
  destruct col as [|x rest]; [contradiction|].
  cbn [extrema map column_extrema]. now rewrite IH.
Qed.

Lemma no_constant_column (columns : list (list Q)) :
  Forall varying columns ->
  constant_columns (map column_extrema columns) = [].
Proof.
  intros H. unfold constant_columns.
  rewrite (@ScaleFacts.no_constant_columns (map column_extrema columns) 0);
    [reflexivity|].
  apply Forall_forall. intros m Hm. apply in_map_iff in Hm.
  destruct Hm as (col & <- & Hcol). rewrite Forall_forall in H.
  specialize (H col Hcol). destruct col as [|x rest]; [contradiction|].
  cbn [column_extrema fst snd]. destruct (Qeq_bool _ _) eqn:E; [|reflexivity].
  apply Qeq_bool_iff in E. contradiction.
Qed.

Lemma combine_map_self {B C D : Type} (f : B -> C) (g : B * C -> D) (l : list B) :
  map g (combine l (map f l)) = map (fun x => g (x, f x)) l.
Proof.
  induction l as [|x l IH]; simpl; [reflexivity|]. now rewrite IH.
Qed.

(** Without constant column the result is the frame scaled column by
    column. *)
Lemma scaleandperiods_columns {L : Type} (index : list L)
      (columns : list (list Q)) :
  Forall varying columns ->
  scaleandperiods index columns = Some (index, map scaled_column columns, []).
Proof.
  intros H. unfold scaleandperiods.
  rewrite (extrema_columns H), (no_constant_column H).
  cbn [length Nat.ltb Nat.leb]. rewrite combine_map_self. reflexivity.
Qed.

Lemma varying_extrema (x : Q) (rest : list Q) :
  varying (x :: rest) -> py_min x rest < py_max x rest.
Proof.
  cbn [varying]. intros Hne.
  destruct (ScaleFacts.py_max_upper x rest) as [Hx1 _].
  destruct (ScaleFacts.py_min_lower x rest) as [Hx2 _].
  destruct (Qlt_le_dec (py_min x rest) (py_max x rest)) as [Hlt|Hle];
    [assumption|].
  exfalso. apply Hne. lra.
Qed.

Lemma scaled_column_nth (col : list Q) (i : nat) :
  (i < length col)%nat ->
  nth i (scaled_column col) 0
  = 1 + (1 / (fst (column_extrema col) - snd (column_extrema col)))
        * (nth i col 0 - fst (column_extrema col)).
Proof.
  intros Hi. unfold scaled_column, scale_column. cbv zeta.
  set (f := fun x => 1 + (1 / (fst (column_extrema col) - snd (column_extrema col)))
                         * (x - fst (column_extrema col))).
  rewrite (nth_indep _ 0 (f 0)) by now rewrite length_map.
  now rewrite (map_nth f).
Qed.

(** X14 (order of the scaled values): when no column is constant,
    [scaleandperiods] returns the periods unchanged and no removed
    column, and every scaled column has the length of the original one
    and keeps the order of its values: a value that is not larger than
    another one is scaled to a value that is not larger. *)
Theorem scaling_preserves_order {L : Type} (index : list L)
        (columns : list (list Q)) :
  Forall varying columns ->
  exists scaled,
    scaleandperiods index columns = Some (index, scaled, [])
    /\ Forall2 same_order columns scaled.
Proof.
  intros H. exists (map scaled_column columns).
  split; [now apply scaleandperiods_columns|].
  induction H as [|col columns Hc Hcs IH]; cbn [map]; constructor; [|exact IH].
  split; [unfold scaled_column, scale_column; apply length_map|].
  intros i j Hi Hj Hle. rewrite !scaled_column_nth by assumption.
  destruct col as [|x rest]; [contradiction|].
  pose proof (varying_extrema Hc) as Hlt. cbn [column_extrema fst snd].
  set (mx := py_max x rest) in *. set (mn := py_min x rest) in *.
  assert (Hpos : 0 < 1 / (mx - mn)).
  { apply Qlt_shift_div_l; lra. }
  assert (Hmul : (1 / (mx - mn)) * (nth i (x :: rest) 0 - mx)
                 <= (1 / (mx - mn)) * (nth j (x :: rest) 0 - mx)).
  { rewrite !(Qmult_comm (1 / (mx - mn))). apply Qmult_le_compat_r; lra. }
  lra.
Qed.

Lemma frame_varying : Forall varying Scenario.frame.
Proof.
  repeat constructor; intros H; vm_compute in H; discriminate H.
Qed.

Lemma scaling_preserves_order_witness :
  exists scaled,
    scaleandperiods Scenario.months Scenario.frame
    = Some (Scenario.months, scaled, [])
    /\ Forall2 same_order Scenario.frame scaled.
Proof.
  apply (@scaling_preserves_order nat Scenario.months Scenario.frame).
  exact frame_varying.
Defined.






End ScaledFacts.

(** ** The partition of a vector of reals, and instances of the general
    statements *)

Module Instances.
Import Sampler.

(** X16 (partition of a non-empty vector): on every non-empty vector of
    reals [comp] returns, and its result is the partition into classes of
    equal values: the mask has the length of the vector, the
    representatives are pairwise different, there is one count per
    representative, the counts sum to the length of the vector, every
    entry is labelled with the position of the representative equal to
    it, and [rstar] is the number of counts. *)
Theorem comp_partition_of_reals (x0 : Q) (v0 : list Q) :
  let v := x0 :: v0 in
  exists r,
    Comp.comp Qeq_bool v = Some r
    /\ length (Comp.jstar r) = length v
    /\ Comp.pairwise_distinct Qeq_bool (Comp.ystar_of v r)
    /\ length (Comp.nstar r) = length (Comp.ystar_of v r)
    /\ Comp.rstar r = length (Comp.nstar r)
    /\ sum_nat (Comp.nstar r) = length v
    /\ Forall2 (Comp.labels_own_value Qeq_bool (Comp.ystar_of v r)) v (Comp.gn r).
Proof.
  exact (@CompFacts.comp_nonempty_partition Q Qeq_bool GroupFacts.Qeqb_refl
           GroupFacts.Qeqb_sym GroupFacts.Qeqb_trans x0 v0).
Qed.

Lemma comp_representatives_identity_witness :
  exists r,
    Comp.comp Qeq_bool [1; 2; 1] = Some r
    /\ Comp.comp Qeq_bool (Comp.ystar_of [1; 2; 1] r)
       = Some (Comp.mkResult [true; true] [1%nat; 1%nat] 2 [0%Z; 1%Z]).
Proof.
  destruct (Comp.comp Qeq_bool [1; 2; 1]) as [r|] eqn:E.
  - exists r. split; [reflexivity|].
    pose proof (@CompFacts.comp_representatives_identity Q Qeq_bool
                  GroupFacts.Qeqb_refl GroupFacts.Qeqb_sym GroupFacts.Qeqb_trans
                  1 [2; 1] r E) as H.
    cbv zeta in H. rewrite H.
    vm_compute in E. inversion E. reflexivity.
  - exfalso. vm_compute in E. discriminate E.
Defined.

Lemma designmatrices_monthly_witness :
  exists dm cz cx,
    Design.designmatrices false true true 2 12 = Some dm
    /\ (Design.p dm + Design.d dm = 1 + 2 + 11)%nat
    /\ length cz = Design.p dm /\ length cx = Design.d dm
    /\ Design.from_cols cz (Design.full_matrix 2 12) (Design.Z dm)
    /\ Design.from_cols cx (Design.full_matrix 2 12) (Design.X dm)
    /\ Permutation (cz ++ cx) (seq 0 (1 + 2 + 11))
    /\ ((0 < Design.p dm)%nat -> Design.has_shape 12 (Design.p dm) (Design.Z dm))
    /\ ((0 < Design.d dm)%nat -> Design.has_shape 12 (Design.d dm) (Design.X dm)).
Proof.
  apply (@DesignFacts.designmatrices_monthly false true true 2 12). lia.
Defined.


(** X20 (the weights are normalised): in the three configurations,
    whenever the weights of lines 303-304 are returned, that is whenever
    [den] is not 0, they add up to 1. *)
Theorem weights_are_normalised (sh : nat) (a b : Q) (nstar : list nat)
        (mi : nat) (pdf0 : Q) (pdfj : nat -> Q) (q : list Q) :
  weights sh a b nstar mi pdf0 pdfj = Some q ->
  py_sum q == 1 /\ length q = (mi + 1)%nat.
Proof.
  intros H. split; [eapply SamplerFacts.weights_sum_one; eauto|].
  destruct (MembershipFacts.weights_shape _ _ _ _ _ _ _ H) as (q' & z & -> & Hl).
  rewrite length_app. simpl. lia.
Qed.

Lemma weights_are_normalised_witness :
  py_sum [48 # 64; 16 # 64] == 1 /\ length [48 # 64; 16 # 64] = (1 + 1)%nat.
Proof.
  apply (@weights_are_normalised 3 (1 # 4) 0 [1%nat] 1 1 (fun _ => 1)).
  reflexivity.
Defined.

Lemma sim_due_burnin1_witness :
  sim_due Scenario.cfg_sim_burnin1 1 = true <->
  burnin Scenario.cfg_sim_burnin1 = 1%Z
  /\ (1 mod thinning Scenario.cfg_sim_burnin1)%Z = 0%Z /\ (1 mod 2)%Z = 1%Z.
Proof.
  apply (@SamplerFacts.sim_due_burnin1 Scenario.cfg_sim_burnin1 1);
    [simpl; lia | lia].
Defined.


Lemma b_step_strict_witness :
  b_step Cases.cfg_b Scenario.calm
         (init_state Cases.cfg_b 2 1 13 Scenario.gamma_start)
  = init_state Cases.cfg_b 2 1 13 Scenario.gamma_start
  \/ 1 <= a (b_step Cases.cfg_b Scenario.calm
                    (init_state Cases.cfg_b 2 1 13 Scenario.gamma_start))
          + b (b_step Cases.cfg_b Scenario.calm
                      (init_state Cases.cfg_b 2 1 13 Scenario.gamma_start)).
Proof.
  apply (@SamplerFacts.b_step_strict Cases.cfg_b Scenario.calm).
  reflexivity.
Defined.

End Instances.

(** ** The acceleration step *)

Module AccelerationFacts.
Import Sampler.

Lemma where_eq_label_from (gn : list Z) (j : Z) (s c : nat) :
  In c (map fst (filter (fun ig : nat * Z => Z.eqb (snd ig) j)
                        (combine (seq s (length gn)) gn))) ->
  (s <= c)%nat /\ nth_error gn (c - s) = Some j.
Proof.
  revert s. induction gn as [|g gn IH]; intros s; cbn [length seq combine filter map];
    [intros []|].
  cbn [snd]. destruct (Z.eqb_spec g j) as [->|Hne]; cbn [map fst In].
  - intros [<-|Hin].
    + rewrite Nat.sub_diag. split; [lia|reflexivity].
    + destruct (IH (S s) Hin) as [Hle Hn]. split; [lia|].
      replace (c - s)%nat with (S (c - S s)) by lia. exact Hn.
  - intros Hin. destruct (IH (S s) Hin) as [Hle Hn]. split; [lia|].
    replace (c - s)%nat with (S (c - S s)) by lia. exact Hn.
Qed.

(** A member of the group [j] carries the label [j]. *)
Lemma where_eq_label (gn : list Z) (j : Z) (c : nat) :
  In c (HM.where_eq gn j) -> nth_error gn c = Some j.
Proof.
  intros H. destruct (where_eq_label_from gn j 0 c H) as [_ Hn].
  now rewrite Nat.sub_0_r in Hn.
Qed.

Lemma set_col_spec (n c : nat) (v : list Q) (M M' : matrix) :
  Mask.width_is n M -> (c < n)%nat -> set_col c v M = Some M' ->
  Mask.width_is n M' /\ col c M' = v
  /\ forall c', c' <> c -> col c' M' = col c' M.
Proof.
  unfold set_col. destruct (Nat.eqb_spec (length v) (length M)) as [Hlen|];
    [|discriminate].
  intros Hw Hc [= <-].
  revert v Hlen. unfold Mask.width_is in *.
  induction Hw as [|row M Hrow HM IH]; intros v Hlen.
  - destruct v; [|discriminate]. repeat split; try constructor; reflexivity.
  - destruct v as [|x v]; [discriminate|]. cbn [set_col_rows].
    destruct (IH v ltac:(simpl in Hlen; lia)) as (Hw' & Hset & Hkeep).
    split; [|split].
    + constructor; [now rewrite SamplerFacts.set_at_length|assumption].
    + cbn [col map]. f_equal; [|exact Hset].
      rewrite SamplerFacts.nth_set_at, Nat.eqb_refl.
      rewrite (proj2 (Nat.ltb_lt c (length row))) by lia. reflexivity.
    + intros c' Hne. cbn [col map]. f_equal; [|now apply Hkeep].
      rewrite SamplerFacts.nth_set_at.
      rewrite (proj2 (Nat.eqb_neq c c')) by congruence. reflexivity.
Qed.

Lemma set_cols_none (cc : list nat) (v : list Q) :
  fold_left (fun acc c => M' <- acc ;; set_col c v M') cc None = None.
Proof. induction cc as [|c cc IH]; simpl; auto. Qed.

(** [M[:, cc] = v]: the columns of [cc] hold [v], the others are kept. *)
Lemma set_cols_spec (n : nat) (cc : list nat) (v : list Q) (M M' : matrix) :
  Mask.width_is n M -> (forall c, In c cc -> (c < n)%nat) ->
  set_cols cc v M = Some M' ->
  Mask.width_is n M'
  /\ (forall c, In c cc -> col c M' = v)
  /\ (forall c, ~ In c cc -> col c M' = col c M).
Proof.
  unfold set_cols. revert M. induction cc as [|c0 cc IH]; intros M Hw Hcc H.
  - simpl in H. inversion H; subst.
    split; [assumption|]. split; [intros c []|reflexivity].
  - cbn [fold_left bind] in H.
    destruct (set_col c0 v M) as [M1|] eqn:H1;
      [|rewrite set_cols_none in H; discriminate].
    destruct (@set_col_spec n c0 v M M1 Hw (Hcc c0 (or_introl eq_refl)) H1)
      as (Hw1 & Hset1 & Hkeep1).
    destruct (IH M1 Hw1 (fun c Hc => Hcc c (or_intror Hc)) H)
      as (Hw' & Hset & Hkeep).
    split; [assumption|]. split.
    + intros c [<-|Hin].
      * destruct (in_dec Nat.eq_dec c0 cc) as [Hin|Hout]; [now apply Hset|].
        now rewrite (Hkeep c0 Hout).
      * now apply Hset.
    + intros c Hout. rewrite Hkeep by (intros Hc; apply Hout; now right).
      apply Hkeep1. intros ->. apply Hout. now left.
Qed.

Lemma accel_cluster_gamma (cfg : config) (dr : draws) (r : Comp.result)
      (st st' : state) (j : nat) :
  accel_cluster cfg dr r st j = Some st' ->
  set_cols (HM.where_eq (Comp.gn r) (Z.of_nat j)) (redraw dr j) (gamma st)
  = Some (gamma st').
Proof.
  unfold accel_cluster, bind.
  destruct (set_cols _ _ _) as [g|]; [|discriminate].
  destruct (_ && _); [destruct (_ <=? _)%Z; [discriminate|]|];
    intros H; inversion H; subst; reflexivity.
Qed.

Lemma accel_none (cfg : config) (dr : draws) (r : Comp.result) (l : list nat) :
  fold_left (fun acc j => s <- acc ;; accel_cluster cfg dr r s j) l None = None.
Proof. induction l as [|j l IH]; simpl; auto. Qed.

(** The clusters of [l], redrawn one after the other. *)
Lemma accel_fold (cfg : config) (dr : draws) (r : Comp.result) (n : nat)
      (l : list nat) (st st' : state) :
  length (Comp.gn r) = n -> NoDup l -> Mask.width_is n (gamma st) ->
  fold_left (fun acc j => s <- acc ;; accel_cluster cfg dr r s j) l (Some st)
  = Some st' ->
  Mask.width_is n (gamma st')
  /\ (forall j c, In j l -> In c (HM.where_eq (Comp.gn r) (Z.of_nat j)) ->
        col c (gamma st') = redraw dr j)
  /\ (forall c, (forall j, In j l ->
                   ~ In c (HM.where_eq (Comp.gn r) (Z.of_nat j))) ->
        col c (gamma st') = col c (gamma st)).
Proof.
  intros Hgn Hnd. revert st. induction Hnd as [|j0 l Hj0 Hnd IH]; intros st Hw H.
  - simpl in H. inversion H; subst.
    split; [assumption|]. split; [intros j c []|reflexivity].
  - cbn [fold_left bind] in H.
    destruct (accel_cluster cfg dr r st j0) as [st1|] eqn:H1;
      [|rewrite accel_none in H; discriminate].
    apply accel_cluster_gamma in H1.
    assert (Hin : forall c, In c (HM.where_eq (Comp.gn r) (Z.of_nat j0)) ->
                            (c < n)%nat).
    { intros c Hc. apply where_eq_label in Hc. rewrite <- Hgn.
      apply nth_error_Some. congruence. }
    destruct (@set_cols_spec n _ _ _ _ Hw Hin H1) as (Hw1 & Hset1 & Hkeep1).
    destruct (IH st1 Hw1 H) as (Hw' & Hset & Hkeep).
    split; [assumption|]. split.
    + intros j c [<-|Hj] Hc.
      * rewrite Hkeep; [now apply Hset1|].
        intros j Hj Hc'. apply where_eq_label in Hc, Hc'.
        assert (j = j0) by (apply Nat2Z.inj; congruence). subst. contradiction.
      * now apply Hset.
    + intros c Hout. rewrite Hkeep by (intros j Hj; apply Hout; now right).
      apply Hkeep1. apply Hout. now left.
Qed.

(** X25 (the acceleration step): when the step succeeds on a [gamma] with
    one column per series, every series of every cluster of the
    partition read from the first row holds, after the step, the vector
    redrawn for its cluster: the members of a cluster keep sharing one
    vector. *)
Theorem acceleration_redraws_clusters (cfg : config) (dr : draws) (n : nat)
        (st st' : state) (g0 : list Q) (r : Comp.result) :
  Mask.width_is n (gamma st) ->
  nth_error (gamma st) 0 = Some g0 ->
  Comp.comp Qeq_bool g0 = Some r ->
  acceleration cfg dr st = Some st' ->
  forall j c, (j < Comp.rstar r)%nat ->
              In c (HM.where_eq (Comp.gn r) (Z.of_nat j)) ->
              col c (gamma st') = redraw dr j.
Proof.
  intros Hw Hg0 Hr H j c Hj Hc.
  unfold acceleration, bind in H. rewrite Hg0, Hr in H.
  assert (Hgn : length (Comp.gn r) = n).
  { unfold Comp.comp in Hr. destruct (select _ g0); [discriminate|].
    inversion Hr; subst r. cbn [Comp.gn]. unfold Comp.pd_match.
    rewrite length_map. unfold Mask.width_is in Hw.
    rewrite Forall_forall in Hw. apply Hw. eapply nth_error_In; eauto. }
  destruct (@accel_fold cfg dr r n (seq 0 (Comp.rstar r)) st st' Hgn
              (seq_NoDup _ _) Hw H) as (_ & Hset & _).
  apply Hset; [|assumption]. apply in_seq. lia.
Qed.

Lemma acceleration_redraws_clusters_witness :
  exists st' r,
    acceleration Scenario.cfg_sim Scenario.apart
                 (init_state Scenario.cfg_sim 2 1 13 Scenario.gamma_start)
    = Some st'
    /\ Comp.comp Qeq_bool [1; 2] = Some r
    /\ forall j c, (j < Comp.rstar r)%nat ->
                   In c (HM.where_eq (Comp.gn r) (Z.of_nat j)) ->
                   col c (gamma st') = redraw Scenario.apart j.
Proof.
  destruct (acceleration Scenario.cfg_sim Scenario.apart
              (init_state Scenario.cfg_sim 2 1 13 Scenario.gamma_start))
    as [st'|] eqn:E; [|exfalso; vm_compute in E; discriminate E].
  destruct (Comp.comp Qeq_bool [1; 2]) as [r|] eqn:Er;
    [|exfalso; vm_compute in Er; discriminate Er].
  exists st', r. split; [reflexivity|]. split; [reflexivity|].
  apply (@acceleration_redraws_clusters Scenario.cfg_sim Scenario.apart 2
           (init_state Scenario.cfg_sim 2 1 13 Scenario.gamma_start) st'
           [1; 2] r);
    [ | reflexivity | exact Er | exact E].
  unfold Mask.width_is. cbn [gamma init_state]. repeat constructor.
Defined.

End AccelerationFacts.

(** ** The increments of the similarity matrix *)

Module SimilarityFacts.
Import Sampler Similarity.

Lemma fold_left_map_list {B C D : Type} (f : B -> D -> B) (g : C -> D)
      (l : list C) (acc : B) :
  fold_left f (map g l) acc = fold_left (fun a x => f a (g x)) l acc.
Proof.
  revert acc. induction l as [|x l IH]; intros acc; simpl; auto.
Qed.

Lemma fold_left_ext_in {B C : Type} (f g : B -> C -> B) (l : list C) (acc : B) :
  (forall a x, In x l -> f a x = g a x) ->
  fold_left f l acc = fold_left g l acc.
Proof.
  revert acc. induction l as [|x l IH]; intros acc H; simpl; [reflexivity|].
  rewrite (H acc x (or_introl eq_refl)). apply IH.
  intros a y Hy. apply H. now right.
Qed.

Lemma first_row (c : nat) (l : list nat) (S : list (list Z)) :
  fold_left (fun S2 i2 => incr (nth i2 l 0%nat) c (incr c (nth i2 l 0%nat) S2))
            (seq 0 (length l)) S
  = fold_left (fun S2 x => incr x c (incr c x S2)) l S.
Proof.
  rewrite <- (fold_left_map_list (fun S2 x => incr x c (incr c x S2))
                                 (fun i2 => nth i2 l 0%nat)).
  f_equal. rewrite (HMFacts.map_nth_seq (fun x => x) 0%nat l). apply map_id.
Qed.

(** The loops over the indices of [c :: cc]: the pairs that start at [c],
    then the loops over [cc]. *)
Lemma sim_cluster_cons (c : nat) (cc : list nat) (S : list (list Z)) :
  sim_cluster (c :: cc) (length (c :: cc)) S
  = sim_cluster cc (length cc)
      (fold_left (fun S2 x => incr x c (incr c x S2)) (c :: cc) S).
Proof.
  unfold sim_cluster. cbv zeta.
  change (seq 0 (length (c :: cc))) with (0%nat :: seq 1 (length cc)).
  cbn [fold_left]. rewrite Nat.sub_0_r.
  change (nth 0 (c :: cc) 0%nat) with c.
  rewrite (first_row c (c :: cc) S).
  rewrite <- seq_shift, fold_left_map_list.
  apply fold_left_ext_in. intros S1 i1 Hi1.
  change (length (c :: cc) - Datatypes.S i1)%nat with (length cc - i1)%nat.
  rewrite <- seq_shift, fold_left_map_list. reflexivity.
Qed.

Lemma pair_step_entry (n c x u v : nat) (S : list (list Z)) :
  square n S -> (c < n)%nat -> (x < n)%nat ->
  square n (incr x c (incr c x S))
  /\ entry (incr x c (incr c x S)) u v
     = (entry S u v
        + (if Nat.eqb u c && Nat.eqb v x then 1 else 0)
        + (if Nat.eqb u x && Nat.eqb v c then 1 else 0))%Z.
Proof.
  intros HS Hc Hx.
  assert (HS1 : square n (incr c x S)) by now apply SamplerFacts.incr_square.
  split; [now apply SamplerFacts.incr_square|].
  rewrite (SamplerFacts.entry_incr _ _ _ _ HS1), (SamplerFacts.entry_incr _ _ _ _ HS).
  rewrite (proj2 (Nat.ltb_lt c n) Hc), (proj2 (Nat.ltb_lt x n) Hx).
  cbn [andb]. reflexivity.
Qed.

(** The pairs that start at [c], over members [xs] all different. *)
Lemma row_entry (n c u v : nat) (xs : list nat) (S : list (list Z)) :
  square n S -> (c < n)%nat -> (forall x, In x xs -> (x < n)%nat) -> NoDup xs ->
  square n (fold_left (fun S2 x => incr x c (incr c x S2)) xs S)
  /\ entry (fold_left (fun S2 x => incr x c (incr c x S2)) xs S) u v
     = (entry S u v
        + (if Nat.eqb u c && existsb (Nat.eqb v) xs then 1 else 0)
        + (if existsb (Nat.eqb u) xs && Nat.eqb v c then 1 else 0))%Z.
Proof.
  intros HS Hc Hxs Hnd. revert S HS.
  induction Hnd as [|x xs Hx Hnd IH]; intros S HS; cbn [fold_left existsb].
  - split; [assumption|]. rewrite andb_false_r. cbn [andb]. lia.
  - destruct (@pair_step_entry n c x u v S HS Hc (Hxs x (or_introl eq_refl)))
      as [HS1 E1].
    destruct (IH (fun y Hy => Hxs y (or_intror Hy)) _ HS1) as [HS2 E2].
    split; [assumption|]. rewrite E2, E1.
    assert (Hvx : Nat.eqb v x = true -> existsb (Nat.eqb v) xs = false).
    { intros E. apply Nat.eqb_eq in E. subst v.
      destruct (existsb (Nat.eqb x) xs) eqn:Ex; [|reflexivity].
      apply existsb_exists in Ex. destruct Ex as (y & Hy & Exy).
      apply Nat.eqb_eq in Exy. subst y. contradiction. }
    assert (Hux : Nat.eqb u x = true -> existsb (Nat.eqb u) xs = false).
    { intros E. apply Nat.eqb_eq in E. subst u.
      destruct (existsb (Nat.eqb x) xs) eqn:Ex; [|reflexivity].
      apply existsb_exists in Ex. destruct Ex as (y & Hy & Exy).
      apply Nat.eqb_eq in Exy. subst y. contradiction. }
    destruct (Nat.eqb u c), (Nat.eqb v c), (Nat.eqb v x) eqn:Ev,
      (Nat.eqb u x) eqn:Eu;
      rewrite ?(Hvx eq_refl), ?(Hux eq_refl); cbn [andb orb];
      destruct (existsb (Nat.eqb v) xs), (existsb (Nat.eqb u) xs);
      cbn [andb orb]; lia.
Qed.

(** X26 (increments of one cluster): when the test of line 450 holds, the
    loops of lines 451-454 over a cluster whose members are different
    series add 2 to [sim[u,u]] for every member [u], 1 to [sim[u,v]] for
    every two different members, and nothing elsewhere: the diagonal is
    counted twice. *)
Theorem sim_cluster_increments (n : nat) (cc : list nat) (S : list (list Z))
        (u v : nat) :
  square n S -> NoDup cc -> (forall c, In c cc -> (c < n)%nat) ->
  entry (sim_cluster cc (length cc) S) u v
  = (entry S u v + cluster_increment cc u v)%Z.
Proof.
  intros HS Hnd Hcc. revert S HS.
  induction Hnd as [|c cc Hc Hnd IH]; intros S HS.
  - unfold sim_cluster, cluster_increment. simpl. lia.
  - rewrite sim_cluster_cons.
    assert (Hnd' : NoDup (c :: cc)) by now constructor.
    destruct (@row_entry n c u v (c :: cc) S HS (Hcc c (or_introl eq_refl))
                Hcc Hnd') as [HS1 E1].
    rewrite (IH (fun y Hy => Hcc y (or_intror Hy)) _ HS1), E1.
    unfold cluster_increment. cbn [existsb].
    assert (Hcu : Nat.eqb u c = true -> existsb (Nat.eqb u) cc = false).
    { intros E. apply Nat.eqb_eq in E. subst u.
      destruct (existsb (Nat.eqb c) cc) eqn:Ex; [|reflexivity].
      apply existsb_exists in Ex. destruct Ex as (y & Hy & Exy).
      apply Nat.eqb_eq in Exy. subst y. contradiction. }
    assert (Hcv : Nat.eqb v c = true -> existsb (Nat.eqb v) cc = false).
    { intros E. apply Nat.eqb_eq in E. subst v.
      destruct (existsb (Nat.eqb c) cc) eqn:Ex; [|reflexivity].
      apply existsb_exists in Ex. destruct Ex as (y & Hy & Exy).
      apply Nat.eqb_eq in Exy. subst y. contradiction. }
    destruct (Nat.eqb_spec u c) as [Euc|Euc]; destruct (Nat.eqb_spec v c) as [Evc|Evc];
      rewrite ?(Hcu eq_refl), ?(Hcv eq_refl); cbn [andb orb].
    + subst. rewrite Nat.eqb_refl. lia.
    + subst. rewrite (proj2 (Nat.eqb_neq c v)) by congruence.
      destruct (existsb (Nat.eqb v) cc); cbn [andb]; lia.
    + subst. rewrite (proj2 (Nat.eqb_neq u c)) by congruence.
      destruct (existsb (Nat.eqb u) cc); cbn [andb]; lia.
    + destruct (existsb (Nat.eqb u) cc), (existsb (Nat.eqb v) cc);
        cbn [andb]; lia.
Qed.

Lemma sim_cluster_increments_witness :
  entry (sim_cluster [0%nat; 1%nat] (length [0%nat; 1%nat])
                     (repeat (repeat 0%Z 2) 2)) 0 0
  = (entry (repeat (repeat 0%Z 2) 2) 0 0
     + cluster_increment [0%nat; 1%nat] 0 0)%Z.
Proof.
  apply (@sim_cluster_increments 2 [0%nat; 1%nat] (repeat (repeat 0%Z 2) 2) 0 0).
  - apply SamplerFacts.zeros_symmetric.
  - repeat constructor; simpl; intuition lia.
  - intros c [<-|[<-|[]]]; lia.
Defined.

End SimilarityFacts.
